(** * APL open core: the bytecode runtime and the rune compiler

    A shallow embedding of [src/apl-runtime.js] (class [APLRuntime]) and of
    the compiler stored after [src/runic-map.js] ([RunicMap], [APLCompiler]),
    followed by the properties established about them.

    JavaScript numbers are IEEE-754 binary64 values, so they are modelled by
    the kernel's primitive floats.  Maps from names ([Map] objects keyed by
    strings) are [gmap string _]; arrays are lists. *)

From Stdlib Require Import ZArith List Floats Reals Lra Lia String Ascii.
From Stdlib Require Uint63.
From stdpp Require Import base option list gmap strings pretty.
Import ListNotations.

Set Warnings "-register-all".

Local Open Scope string_scope.
Local Open Scope list_scope.
Local Open Scope Z_scope.

(** ** JavaScript values and coercions *)

Module JS.

(** The values that travel through the interpreter.  String, array and
    buffer values are outside the embedding; the two kinds of objects kept
    are the quantum-state object (by reference, see [qheap] below) and host
    functions registered through [registerNative]. *)
Inductive value : Type :=
| VUndefined
| VNull
| VBool (b : bool)
| VNum (x : float)
| VState (ref : nat)
| VNative (name : string).

Definition nan : float := PrimFloat.nan.

(** [ToBoolean]. *)
Definition truthy (v : value) : bool :=
  match v with
  | VUndefined | VNull => false
  | VBool b => b
  | VNum x => negb (PrimFloat.eqb x 0) && PrimFloat.eqb x x
  | VState _ | VNative _ => true
  end.

Definition is_object (v : value) : bool :=
  match v with
  | VState _ | VNative _ => true
  | _ => false
  end.

(** [ToNumber]: an object first becomes the string [[object Object]] or the
    text of a function, neither of which is a numeric literal. *)
Definition ToNumber (v : value) : float :=
  match v with
  | VUndefined => nan
  | VNull => 0%float
  | VBool true => 1%float
  | VBool false => 0%float
  | VNum x => x
  | VState _ | VNative _ => nan
  end.

(** [a || b]. *)
Definition or_else (a b : value) : value := if truthy a then a else b.

(** [v === undefined] and [v === 0]. *)
Definition is_undefined (v : value) : bool :=
  match v with VUndefined => true | _ => false end.

Definition strict_eq_zero (v : value) : bool :=
  match v with VNum x => PrimFloat.eqb x 0 | _ => false end.

(** The binary [+]: with an object operand it concatenates strings, which
    this embedding has no value for ([None]); [-], [*] and [/] always
    convert both operands to numbers. *)
Definition js_add (a b : value) : option value :=
  if is_object a || is_object b then None
  else Some (VNum (ToNumber a + ToNumber b)%float).

Definition js_sub (a b : value) : value := VNum (ToNumber a - ToNumber b)%float.
Definition js_mul (a b : value) : value := VNum (ToNumber a * ToNumber b)%float.
Definition js_div (a b : value) : value := VNum (ToNumber a / ToNumber b)%float.

(** Integers as numbers; exact below 2^53. *)
Definition of_Z (z : Z) : float :=
  if z <? 0 then (- PrimFloat.of_uint63 (Uint63.of_Z (- z)))%float
  else PrimFloat.of_uint63 (Uint63.of_Z z).

Definition of_nat (n : nat) : float := of_Z (Z.of_nat n).

(** The integer a finite number denotes after truncation toward zero. *)
Definition trunc (x : float) : option Z :=
  match Prim2SF x with
  | S754_zero _ => Some 0
  | S754_finite s m e =>
      let mag := if 0 <=? e then Z.pos m * 2 ^ e else Z.pos m / 2 ^ (- e) in
      Some (if s then - mag else mag)
  | S754_infinity _ | S754_nan => None
  end.

(** [Some z] when the number is exactly the integer [z]. *)
Definition to_integer (x : float) : option Z :=
  match Prim2SF x with
  | S754_zero _ => Some 0
  | S754_finite s m e =>
      if 0 <=? e then Some (if s then - (Z.pos m * 2 ^ e) else Z.pos m * 2 ^ e)
      else if Z.pos m mod 2 ^ (- e) =? 0
           then Some (if s then - (Z.pos m / 2 ^ (- e)) else Z.pos m / 2 ^ (- e))
           else None
  | S754_infinity _ | S754_nan => None
  end.

(** [ToLength]: NaN and negatives give 0, the rest is truncated and capped
    at 2^53 - 1. *)
Definition ToLength (x : float) : Z :=
  match Prim2SF x with
  | S754_infinity false => 2 ^ 53 - 1
  | _ => match trunc x with
         | Some z => Z.max 0 (Z.min z (2 ^ 53 - 1))
         | None => 0
         end
  end.

(** What JavaScript throws: [new Error(message)], or one of the engine's
    own [TypeError] and [RangeError] (whose message text is the engine's). *)
Inductive exn : Type :=
| Error (message : string)
| TypeError (what : string)
| RangeError (what : string).

(** [arr[i]] for a number [i]: [undefined] off the array. *)
Definition at_index {A : Type} (l : list A) (i : Z) : option A :=
  if i <? 0 then None else l !! Z.to_nat i.

End JS.
Import JS.

(** ** Quantum amplitude arithmetic

    [initQuantumAmplitudes], [applyHadamard] and the sampling loop of
    [opQuantumMeasure] only add, subtract, multiply, divide and compare
    amplitudes.  They are written once over a scalar interface, which the
    interpreter instantiates with binary64 numbers and the exact statements
    instantiate with the reals. *)

Module Quantum.

Class Scalar (F : Type) : Type := {
  zero : F;
  one : F;
  add : F -> F -> F;
  sub : F -> F -> F;
  mul : F -> F -> F;
  div : F -> F -> F;
  sqrt2 : F;                  (* Math.sqrt(2) *)
  ltb : F -> F -> bool
}.

#[global] Instance float_scalar : Scalar float := {|
  zero := 0%float;
  one := 1%float;
  add := PrimFloat.add;
  sub := PrimFloat.sub;
  mul := PrimFloat.mul;
  div := PrimFloat.div;
  sqrt2 := PrimFloat.sqrt 2%float;
  ltb := PrimFloat.ltb
|}.

#[global] Instance real_scalar : Scalar R := {|
  zero := 0%R;
  one := 1%R;
  add := Rplus;
  sub := Rminus;
  mul := Rmult;
  div := Rdiv;
  sqrt2 := R_sqrt.sqrt 2%R;
  ltb := fun x y => if Rlt_dec x y then true else false
|}.

(** An amplitude object [{ real, imag }]. *)
Record complex (F : Type) : Type := Complex { real : F; imag : F }.
Arguments Complex {F} real imag.
Arguments real {F} c.
Arguments imag {F} c.

Section Amplitudes.
Context {F : Type} `{Scalar F}.

Definition c0 : complex F := Complex zero zero.
Definition c1 : complex F := Complex one zero.

(** [a[0] = x] on an array: JavaScript extends an empty array. *)
Definition set_first {A : Type} (x : A) (a : list A) : list A :=
  match a with
  | [] => [x]
  | _ :: rest => x :: rest
  end.

(** [initQuantumAmplitudes(numQubits)], for an exponent that is a
    natural number, where [Math.pow(2, numQubits)] is exact. *)
Definition initQuantumAmplitudes (numQubits : nat) : list (complex F) :=
  let size := (2 ^ numQubits)%nat in
  let amplitudes := replicate size c0 in
  set_first c1 amplitudes.

(** [1 << target] on 32-bit integers: the shift count is taken modulo 32
    and bit 31 is the sign bit. *)
Definition shl1 (target : Z) : Z :=
  let k := target mod 32 in
  if k =? 31 then - 2 ^ 31 else 2 ^ k.

(** One turn of the [for] loop of [applyHadamard]; [None] is the
    [TypeError] of destructuring [amplitudes[j]] when it is [undefined].
    The indices stay below 2^31, so [&] and [|] are [Z.land] and
    [Z.lor]. *)
Definition hadamard_step (amplitudes : list (complex F)) (target : Z)
    (acc : option (list (complex F))) (i : nat) : option (list (complex F)) :=
  match acc with
  | None => None
  | Some newAmplitudes =>
      if Z.land (Z.of_nat i) (shl1 target) =? 0 then
        let j := Z.lor (Z.of_nat i) (shl1 target) in
        match amplitudes !! i, at_index amplitudes j with
        | Some a, Some b =>
            let lo := Complex (div (add (real a) (real b)) sqrt2)
                              (div (add (imag a) (imag b)) sqrt2) in
            let hi := Complex (div (sub (real a) (real b)) sqrt2)
                              (div (sub (imag a) (imag b)) sqrt2) in
            Some (<[Z.to_nat j := hi]> (<[i := lo]> newAmplitudes))
        | _, _ => None
        end
      else Some newAmplitudes
  end.

(** [applyHadamard(target)] on the amplitude array: the new array. *)
Definition applyHadamard (target : Z) (amplitudes : list (complex F))
    : option (list (complex F)) :=
  let size := length amplitudes in
  foldl (hadamard_step amplitudes target) (Some amplitudes) (seq 0 size).

(** The probabilities of [opQuantumMeasure]. *)
Definition probabilities (amplitudes : list (complex F)) : list F :=
  map (fun a => add (mul (real a) (real a)) (mul (imag a) (imag a))) amplitudes.

(** The sampling loop: [result] stays 0 when no prefix sum exceeds the
    draw. *)
Fixpoint sample (random : F) (probs : list F) (i : nat) (cumulative : F) : nat :=
  match probs with
  | [] => 0%nat
  | p :: rest =>
      let cumulative := add cumulative p in
      if ltb random cumulative then i else sample random rest (S i) cumulative
  end.

(** The collapse: one-hot at [result]. *)
Definition collapse (amplitudes : list (complex F)) (result : nat) : list (complex F) :=
  imap (fun i _ => if Nat.eqb i result then c1 else c0) amplitudes.

Definition measure (random : F) (amplitudes : list (complex F))
    : nat * list (complex F) :=
  let result := sample random (probabilities amplitudes) 0%nat zero in
  (result, collapse amplitudes result).

(** The amplitude array that is [{real:1, imag:0}] at index [k] and
    [{real:0, imag:0}] at every other index below [size]. *)
Definition one_hot (size k : nat) : list (complex F) :=
  map (fun i => if Nat.eqb i k then c1 else c0) (seq 0 size).

(** The two outputs of the Hadamard combination of a pair of amplitudes,
    and the array obtained by combining the amplitudes two by two: what
    [applyHadamard(0)] computes, as the properties below show. *)
Definition lo (a b : complex F) : complex F :=
  Complex (div (add (real a) (real b)) sqrt2) (div (add (imag a) (imag b)) sqrt2).
Definition hi (a b : complex F) : complex F :=
  Complex (div (sub (real a) (real b)) sqrt2) (div (sub (imag a) (imag b)) sqrt2).

Fixpoint butterflies (l : list (complex F)) : list (complex F) :=
  match l with
  | a :: b :: rest => lo a b :: hi a b :: butterflies rest
  | _ => l
  end.

End Amplitudes.

End Quantum.
Import Quantum.

(** ** The interpreter: class [APLRuntime] *)

Module APLRuntime.

(** An instruction's [opcode] is a number or a string. *)
Inductive opcode : Type :=
| OpNum (n : Z)
| OpStr (s : string).

Definition opcode_eqb (a b : opcode) : bool :=
  match a, b with
  | OpNum m, OpNum n => m =? n
  | OpStr s, OpStr t => if decide (s = t) then true else false
  | _, _ => false
  end.

(** An element [{ name }] of a function's [params]. *)
Record param : Type := Param { param_name : string }.

(** Expression nodes read by [evalExpression].  A literal carries a value
    or an array of values. *)
Inductive literal : Type :=
| LitValue (v : value)
| LitArray (items : list value).

Inductive expr : Type :=
| Identifier (value : string)
| Literal (value : literal)
| CallExpression (callee : string) (arguments : list expr)
| OtherExpression.

(** Instructions, by the shape each handler reads.  [args] of
    [QUANTUM_INIT] is [None] when the instruction has no [args] property;
    otherwise it lists, for each element of the array, [None] when the
    element is [undefined] or [null] and else the element's [value] field.
    [OTHER] is an instruction with any other opcode tag. *)
Inductive instruction : Type :=
| MEM_LOAD (source : string)
| MEM_STORE (target : string)
| MEM_FREE
| PATTERN_BIND (bindings : list string)
| QUANTUM_INIT (args : option (list (option value)))
| QUANTUM_GATE (gate : string) (target : Z)
| QUANTUM_MEASURE
| QUANTUM_ENTANGLE (qubit1 qubit2 : value)
| JUMP (target : Z)
| JUMP_IF (target : Z)
| CALL (function : string) (argCount : nat)
| RETURN
| LOOP (iterable : expr) (variable : string)
| ADD
| SUB
| MUL
| DIV
| FUNC_DECL (name : string) (params : list param) (isAsync : bool)
| PUSH_CONST (value : value)
| LOOP_END
| OTHER (tag : opcode).

Definition opcode_of (i : instruction) : opcode :=
  match i with
  | MEM_LOAD _ => OpNum 0
  | MEM_STORE _ => OpNum 1
  | MEM_FREE => OpNum 3
  | PATTERN_BIND _ => OpNum 5
  | QUANTUM_INIT _ => OpNum 12
  | QUANTUM_GATE _ _ => OpNum 13
  | QUANTUM_MEASURE => OpNum 14
  | QUANTUM_ENTANGLE _ _ => OpNum 15
  | JUMP _ => OpNum 16
  | JUMP_IF _ => OpNum 17
  | CALL _ _ => OpNum 18
  | RETURN => OpNum 19
  | LOOP _ _ => OpNum 20
  | ADD => OpNum 24
  | SUB => OpNum 25
  | MUL => OpNum 26
  | DIV => OpNum 27
  | FUNC_DECL _ _ _ => OpStr "FUNC_DECL"
  | PUSH_CONST _ => OpStr "PUSH_CONST"
  | LOOP_END => OpStr "LOOP_END"
  | OTHER tag => tag
  end.

(** The tags [executeInstruction] has a [case] for. *)
Definition dispatched (tag : opcode) : bool :=
  match tag with
  | OpNum n =>
      (0 <=? n) && (n <=? 5) || (n =? 8) || (n =? 9)
      || (12 <=? n) && (n <=? 21) || (24 <=? n) && (n <=? 27)
  | OpStr s =>
      if decide (s = "FUNC_DECL") then true
      else if decide (s = "PUSH_CONST") then true
      else if decide (s = "LOOP_END") then true else false
  end.

Definition show_opcode (tag : opcode) : string :=
  match tag with
  | OpNum n => pretty n
  | OpStr s => s
  end.

(** A saved frame [{ pc, memory }], a function-table entry
    [{ params, address, isAsync }] and the quantum-state object
    [{ numQubits, amplitudes, entangled }]. *)
Record frame : Type := Frame {
  frame_pc : Z;
  frame_memory : gmap string value
}.

Record func : Type := Func {
  func_params : list param;
  func_address : Z;
  func_isAsync : bool
}.

Record qstate : Type := QState {
  numQubits : value;
  amplitudes : list (complex float);
  entangled : list (value * value)
}.

(** The fields of an [APLRuntime] object.  [stack] and [callStack] list
    their last-pushed element first.  Quantum-state objects live in
    [qheap] and are named by their position there, so that the object on
    the evaluation stack and [this.quantumState] are one object.
    [bytecode] is the property [this.bytecode], which no method of the
    class assigns.  [random] with [draws] stands for [Math.random]: the
    n-th call returns [random n]. *)
Record runtime : Type := Runtime {
  memory : gmap string value;
  stack : list value;
  callStack : list frame;
  functions : gmap string func;
  globals : gmap string value;
  quantumState : option nat;
  pc : Z;
  running : bool;
  bytecode : option (list instruction);
  qheap : list qstate;
  random : nat -> float;
  draws : nat
}.

(** [new APLRuntime()]. *)
Definition constructor (rnd : nat -> float) : runtime :=
  {| memory := ∅; stack := []; callStack := []; functions := ∅; globals := ∅;
     quantumState := None; pc := 0; running := false; bytecode := None;
     qheap := []; random := rnd; draws := 0 |}.

Definition set_memory (m : gmap string value) (s : runtime) : runtime :=
  {| memory := m; stack := stack s; callStack := callStack s;
     functions := functions s; globals := globals s;
     quantumState := quantumState s; pc := pc s; running := running s;
     bytecode := bytecode s; qheap := qheap s; random := random s;
     draws := draws s |}.

Definition set_stack (st : list value) (s : runtime) : runtime :=
  {| memory := memory s; stack := st; callStack := callStack s;
     functions := functions s; globals := globals s;
     quantumState := quantumState s; pc := pc s; running := running s;
     bytecode := bytecode s; qheap := qheap s; random := random s;
     draws := draws s |}.

Definition set_callStack (cs : list frame) (s : runtime) : runtime :=
  {| memory := memory s; stack := stack s; callStack := cs;
     functions := functions s; globals := globals s;
     quantumState := quantumState s; pc := pc s; running := running s;
     bytecode := bytecode s; qheap := qheap s; random := random s;
     draws := draws s |}.

Definition set_functions (fs : gmap string func) (s : runtime) : runtime :=
  {| memory := memory s; stack := stack s; callStack := callStack s;
     functions := fs; globals := globals s;
     quantumState := quantumState s; pc := pc s; running := running s;
     bytecode := bytecode s; qheap := qheap s; random := random s;
     draws := draws s |}.

Definition set_globals (g : gmap string value) (s : runtime) : runtime :=
  {| memory := memory s; stack := stack s; callStack := callStack s;
     functions := functions s; globals := g;
     quantumState := quantumState s; pc := pc s; running := running s;
     bytecode := bytecode s; qheap := qheap s; random := random s;
     draws := draws s |}.

Definition set_quantum (q : option nat) (h : list qstate) (s : runtime) : runtime :=
  {| memory := memory s; stack := stack s; callStack := callStack s;
     functions := functions s; globals := globals s;
     quantumState := q; pc := pc s; running := running s;
     bytecode := bytecode s; qheap := h; random := random s;
     draws := draws s |}.

Definition set_pc (p : Z) (s : runtime) : runtime :=
  {| memory := memory s; stack := stack s; callStack := callStack s;
     functions := functions s; globals := globals s;
     quantumState := quantumState s; pc := p; running := running s;
     bytecode := bytecode s; qheap := qheap s; random := random s;
     draws := draws s |}.

Definition set_running (b : bool) (s : runtime) : runtime :=
  {| memory := memory s; stack := stack s; callStack := callStack s;
     functions := functions s; globals := globals s;
     quantumState := quantumState s; pc := pc s; running := b;
     bytecode := bytecode s; qheap := qheap s; random := random s;
     draws := draws s |}.

Definition set_bytecode (b : option (list instruction)) (s : runtime) : runtime :=
  {| memory := memory s; stack := stack s; callStack := callStack s;
     functions := functions s; globals := globals s;
     quantumState := quantumState s; pc := pc s; running := running s;
     bytecode := b; qheap := qheap s; random := random s;
     draws := draws s |}.

Definition set_draws (n : nat) (s : runtime) : runtime :=
  {| memory := memory s; stack := stack s; callStack := callStack s;
     functions := functions s; globals := globals s;
     quantumState := quantumState s; pc := pc s; running := running s;
     bytecode := bytecode s; qheap := qheap s; random := random s;
     draws := n |}.

(** *** Methods as state transformers

    A method either returns with the object in a new state, or throws
    with the object in the state reached so far.  [Unmodelled] marks
    behaviour outside the embedding (string results, opcodes whose
    handlers are not embedded, library functions whose result the
    language leaves to the engine); [OutOfFuel] is a bound on nested
    execution that was reached. *)
Inductive outcome (A : Type) : Type :=
| Ok (a : A) (s : runtime)
| Throw (e : exn) (s : runtime)
| Unmodelled
| OutOfFuel.
Arguments Ok {A} a s.
Arguments Throw {A} e s.
Arguments Unmodelled {A}.
Arguments OutOfFuel {A}.

Definition M (A : Type) : Type := runtime -> outcome A.

Definition ret {A : Type} (a : A) : M A := fun s => Ok a s.

Definition bind {A B : Type} (m : M A) (k : A -> M B) : M B :=
  fun s =>
    match m s with
    | Ok a s' => k a s'
    | Throw e s' => Throw e s'
    | Unmodelled => Unmodelled
    | OutOfFuel => OutOfFuel
    end.

Definition throw {A : Type} (e : exn) : M A := fun s => Throw e s.
Definition get : M runtime := fun s => Ok s s.
Definition modify (f : runtime -> runtime) : M unit := fun s => Ok tt (f s).
Definition unmodelled {A : Type} : M A := fun _ => Unmodelled.

#[global] Instance outcome_ret : MRet M := @ret.
#[global] Instance outcome_bind : MBind M := fun A B k m => bind m k.

(** [map.get(key)]: [undefined] for an absent key. *)
Definition map_get (m : gmap string value) (key : string) : value :=
  default VUndefined (m !! key).

(** [this.stack.pop()]: [undefined] on an empty array.
    [this.stack.push(v)]. *)
Definition pop : M value :=
  fun s =>
    match stack s with
    | [] => Ok VUndefined s
    | v :: rest => Ok v (set_stack rest s)
    end.

Definition push (v : value) : M unit :=
  modify (fun s => set_stack (v :: stack s) s).

(** [this.stack[this.stack.length - 1]]. *)
Definition top (s : runtime) : value :=
  match stack s with
  | [] => VUndefined
  | v :: _ => v
  end.

(** *** Memory operations *)

Definition opMemLoad (source : string) : M unit :=
  s ← get;
  let value := or_else (map_get (memory s) source) (map_get (globals s) source) in
  if is_undefined value
  then throw (Error ("Undefined variable: " +:+ source))
  else push value.

Definition opMemStore (target : string) : M unit :=
  value ← pop;
  modify (fun s => set_memory (<[target := value]> (memory s)) s).

(** [this.memory.delete(addr)]: the popped value is never one of the
    string keys of [memory], so only the pop is visible. *)
Definition opMemFree : M unit :=
  _ ← pop; mret tt.

Definition opPatternBind (bindings : list string) : M unit :=
  value ← pop;
  modify (fun s =>
    set_memory (foldl (fun m binding => <[binding := value]> m) (memory s) bindings) s).

(** *** Quantum operations *)

(** [Math.pow(2, numQubits)] as the length given to [new Array], for the
    exponents at which the power is exact.  A natural number below 32 gives
    a valid length.  From 2^32 on, for the fractions 2^-1 ... 2^-1074 and
    for [NaN], [new Array] throws a [RangeError].  At the other exponents
    (fractional, infinite, below -1074) the result is whatever the engine's
    [Math.pow] returns. *)
Definition array_exponent (numQubits : value) : M nat :=
  let q := ToNumber numQubits in
  if negb (PrimFloat.eqb q q) then throw (RangeError "Invalid array length")
  else match to_integer q with
       | Some n =>
           if n <? -1074 then unmodelled
           else if n <? 0 then throw (RangeError "Invalid array length")
           else if n <? 32 then mret (Z.to_nat n)
           else throw (RangeError "Invalid array length")
       | None => unmodelled
       end.

(** [instruction.args[0]?.value || 1]. *)
Definition first_arg_value (args : list (option value)) : value :=
  match args with
  | Some v :: _ => v
  | _ => VUndefined
  end.

Definition opQuantumInit (args : option (list (option value))) : M unit :=
  match args with
  | None => throw (TypeError "instruction.args is undefined")
  | Some args =>
      let numQubits := or_else (first_arg_value args) (VNum 1) in
      n ← array_exponent numQubits;
      s ← get;
      let state := QState numQubits (initQuantumAmplitudes n) [] in
      let ref := length (qheap s) in
      modify (set_quantum (Some ref) (qheap s ++ [state]));;
      push (VState ref)
  end.

(** The object [this.quantumState] refers to; a reference always names an
    allocated object. *)
Definition current_qstate : M (nat * qstate) :=
  s ← get;
  match quantumState s with
  | None => throw (TypeError "this.quantumState is null")
  | Some ref =>
      match qheap s !! ref with
      | Some q => mret (ref, q)
      | None => unmodelled
      end
  end.

Definition set_amplitudes (ref : nat) (q : qstate) (a : list (complex float)) : M unit :=
  modify (fun s =>
    set_quantum (quantumState s)
      (<[ref := QState (numQubits q) a (entangled q)]> (qheap s)) s).

Definition applyHadamard (target : Z) : M unit :=
  '(ref, q) ← current_qstate;
  match Quantum.applyHadamard target (amplitudes q) with
  | Some newAmplitudes => set_amplitudes ref q newAmplitudes
  | None => throw (TypeError "amplitudes[j] is undefined")
  end.

(** [CNOT] and [PHASE] are dispatched to handlers that are not embedded
    ([applyPhase] calls the engine's [Math.cos] and [Math.sin]). *)
Definition opQuantumGate (gate : string) (target : Z) : M unit :=
  s ← get;
  match quantumState s with
  | None => throw (Error "Quantum state not initialized")
  | Some _ =>
      if decide (gate = "HADAMARD") then applyHadamard target
      else if decide (gate = "CNOT") then unmodelled
      else if decide (gate = "PHASE") then unmodelled
      else throw (Error ("Unknown quantum gate: " +:+ gate))
  end.

(** [Math.random()]. *)
Definition Math_random : M float :=
  s ← get;
  modify (set_draws (S (draws s)));;
  mret (random s (draws s)).

Definition opQuantumMeasure : M unit :=
  s ← get;
  match quantumState s with
  | None => throw (Error "Quantum state not initialized")
  | Some _ =>
      '(ref, q) ← current_qstate;
      r ← Math_random;
      let '(result, collapsed) := measure r (amplitudes q) in
      set_amplitudes ref q collapsed;;
      push (VNum (of_nat result))
  end.

Definition opQuantumEntangle (qubit1 qubit2 : value) : M unit :=
  '(ref, q) ← current_qstate;
  modify (fun s =>
    set_quantum (quantumState s)
      (<[ref := QState (numQubits q) (amplitudes q) (entangled q ++ [(qubit1, qubit2)])]>
         (qheap s)) s).

(** *** Control flow *)

Definition opJump (target : Z) : M unit :=
  modify (set_pc (target - 1)).

Definition opJumpIf (target : Z) : M unit :=
  condition ← pop;
  if truthy condition then modify (set_pc (target - 1)) else mret tt.

(** The argument loop of [opCall]: [args.unshift(this.stack.pop())],
    [argCount] times. *)
Fixpoint pop_args (argCount : nat) (args : list value) : M (list value) :=
  match argCount with
  | O => mret args
  | S n => v ← pop; pop_args n (v :: args)
  end.

(** [func.params.forEach((param, i) => this.memory.set(param.name, args[i]))]. *)
Fixpoint bind_params (params : list param) (i : nat) (args : list value)
    (m : gmap string value) : gmap string value :=
  match params with
  | [] => m
  | p :: rest =>
      bind_params rest (S i) args
        (<[param_name p := default VUndefined (args !! i)]> m)
  end.

Definition opCall (function : string) (argCount : nat) : M unit :=
  modify (fun s => set_callStack (Frame (pc s) (memory s) :: callStack s) s);;
  s ← get;
  match functions s !! function with
  | None => throw (Error ("Undefined function: " +:+ function))
  | Some func =>
      args ← pop_args argCount [];
      modify (fun s => set_memory (bind_params (func_params func) 0 args (memory s)) s);;
      modify (set_pc (func_address func - 1))
  end.

Definition opReturn : M unit :=
  s ← get;
  match callStack s with
  | [] => modify (set_running false)
  | frame :: rest =>
      modify (set_callStack rest);;
      modify (set_pc (frame_pc frame));;
      let returnValue := top s in
      modify (set_memory (frame_memory frame));;
      if is_undefined returnValue then mret tt else push returnValue
  end.

(** What [evalExpression] returns: a value, or an array of values. *)
Inductive evaluated : Type :=
| EValue (v : value)
| EArray (items : list value).

Definition scalar_of (e : evaluated) : M value :=
  match e with
  | EValue v => mret v
  | EArray _ => unmodelled
  end.

(** [Array.from({ length: end - start }, (_, i) => start + i)]. *)
Definition range (start end_ : value) : M evaluated :=
  let len := ToLength (ToNumber end_ - ToNumber start)%float in
  if 2 ^ 32 - 1 <? len then throw (RangeError "Invalid array length")
  else
    match
      mapM (fun i : nat => js_add start (VNum (of_nat i))) (seq 0 (Z.to_nat len))
    with
    | Some items => mret (EArray items)
    | None => unmodelled
    end.

Fixpoint evalExpression (expr : expr) : M evaluated :=
  match expr with
  | Identifier name =>
      s ← get;
      mret (EValue (or_else (map_get (memory s) name) (map_get (globals s) name)))
  | Literal (LitValue v) => mret (EValue v)
  | Literal (LitArray items) => mret (EArray items)
  | CallExpression callee arguments =>
      if decide (callee = "..") then
        match arguments with
        | a0 :: a1 :: _ =>
            start ← evalExpression a0;
            end_ ← evalExpression a1;
            start ← scalar_of start;
            end_ ← scalar_of end_;
            range start end_
        | [a0] =>
            _ ← evalExpression a0;
            throw (TypeError "expr is undefined")
        | [] => throw (TypeError "expr is undefined")
        end
      else mret (EArray [])
  | OtherExpression => mret (EArray [])
  end.

(** [while (depth > 0 && this.pc < this.bytecode.length) { this.pc++; ... }]:
    the scan that ends [opLoop] (with ['LOOP'] and ['LOOP_END']) and
    [opFuncDecl] (with ['FUNC_DECL'] and the opcode of [RETURN]).  [k]
    bounds the number of turns. *)
Fixpoint skip_block (opens closes : opcode) (k : nat) (depth : nat) : M unit :=
  fun s =>
    if (depth =? 0)%nat then Ok tt s
    else
      match bytecode s with
      | None => Throw (TypeError "this.bytecode is undefined") s
      | Some code =>
          if pc s <? Z.of_nat (length code) then
            match k with
            | O => OutOfFuel
            | S k' =>
                let s := set_pc (pc s + 1) s in
                match at_index code (pc s) with
                | None => Throw (TypeError "this.bytecode[this.pc] is undefined") s
                | Some i =>
                    let depth :=
                      if opcode_eqb (opcode_of i) opens then S depth else depth in
                    let depth :=
                      if opcode_eqb (opcode_of i) closes then Nat.pred depth else depth in
                    skip_block opens closes k' depth s
                end
            end
          else Ok tt s
      end.

Definition skip_fuel (s : runtime) : nat :=
  match bytecode s with
  | None => 0%nat
  | Some code => S (S (length code))
  end.

Section Loop.
(** [this.executeInstruction], as called from the loop body. *)
Variable executeInstruction : instruction -> M unit.

(** The inner [while] of [opLoop], from [bodyPc]. *)
Fixpoint loop_body (k : nat) (depth : nat) (bodyPc : Z) : M unit :=
  fun s =>
    if (depth =? 0)%nat then Ok tt s
    else
      match bytecode s with
      | None => Throw (TypeError "this.bytecode is undefined") s
      | Some code =>
          if bodyPc <? Z.of_nat (length code) then
            match k with
            | O => OutOfFuel
            | S k' =>
                match at_index code bodyPc with
                | None => Throw (TypeError "this.bytecode[bodyPc] is undefined") s
                | Some i =>
                    let depth :=
                      if opcode_eqb (opcode_of i) (OpStr "LOOP") then S depth else depth in
                    let depth :=
                      if opcode_eqb (opcode_of i) (OpStr "LOOP_END")
                      then Nat.pred depth else depth in
                    ((if (0 <? depth)%nat then executeInstruction i else mret tt);;
                     loop_body k' depth (bodyPc + 1)) s
                end
            end
          else Ok tt s
      end.

(** [for (const item of iterable) { ... }]. *)
Fixpoint for_items (variable : string) (items : list value) : M unit :=
  match items with
  | [] => mret tt
  | item :: rest =>
      modify (fun s => set_memory (<[variable := item]> (memory s)) s);;
      s ← get;
      loop_body (skip_fuel s) 1 (pc s + 1);;
      for_items variable rest
  end.

Definition opLoop (iterable : expr) (variable : string) : M unit :=
  it ← evalExpression iterable;
  match it with
  | EValue _ => throw (TypeError "iterable is not iterable")
  | EArray items =>
      for_items variable items;;
      s ← get;
      skip_block (OpStr "LOOP") (OpStr "LOOP_END") (skip_fuel s) 1
  end.
End Loop.

(** *** Arithmetic *)

Definition opAdd : M unit :=
  b ← pop;
  a ← pop;
  match js_add a b with
  | Some v => push v
  | None => unmodelled
  end.

Definition opSub : M unit :=
  b ← pop; a ← pop; push (js_sub a b).

Definition opMul : M unit :=
  b ← pop; a ← pop; push (js_mul a b).

Definition opDiv : M unit :=
  b ← pop;
  a ← pop;
  if strict_eq_zero b then throw (Error "Division by zero")
  else push (js_div a b).

(** *** Function declaration *)

Definition opFuncDecl (name : string) (params : list param) (isAsync : bool) : M unit :=
  modify (fun s =>
    set_functions (<[name := Func params (pc s + 1) isAsync]> (functions s)) s);;
  s ← get;
  skip_block (OpStr "FUNC_DECL") (OpNum 19) (skip_fuel s) 1.

(** *** Dispatch and the main loop *)

Fixpoint executeInstruction (fuel : nat) (instruction : instruction) : M unit :=
  match fuel with
  | O => fun _ => OutOfFuel
  | S fuel' =>
      match instruction with
      | MEM_LOAD source => opMemLoad source
      | MEM_STORE target => opMemStore target
      | MEM_FREE => opMemFree
      | PATTERN_BIND bindings => opPatternBind bindings
      | QUANTUM_INIT args => opQuantumInit args
      | QUANTUM_GATE gate target => opQuantumGate gate target
      | QUANTUM_MEASURE => opQuantumMeasure
      | QUANTUM_ENTANGLE qubit1 qubit2 => opQuantumEntangle qubit1 qubit2
      | JUMP target => opJump target
      | JUMP_IF target => opJumpIf target
      | CALL function argCount => opCall function argCount
      | RETURN => opReturn
      | LOOP iterable variable => opLoop (executeInstruction fuel') iterable variable
      | ADD => opAdd
      | SUB => opSub
      | MUL => opMul
      | DIV => opDiv
      | FUNC_DECL name params isAsync => opFuncDecl name params isAsync
      | PUSH_CONST value => push value
      | LOOP_END => mret tt
      | OTHER tag =>
          if dispatched tag then unmodelled
          else throw (Error ("Unknown opcode: " +:+ show_opcode tag))
      end
  end.

(** What [execute] returns: [{ success: true, result }] or
    [{ success: false, error, pc }]. *)
Inductive run_result : Type :=
| Success (result : value)
| Failure (error : exn) (pc : Z).

(** The [while] loop of [execute]. *)
Fixpoint run (fuel : nat) (bytecode : list instruction) : M unit :=
  fun s =>
    if (pc s <? Z.of_nat (length bytecode)) && running s then
      match fuel with
      | O => OutOfFuel
      | S fuel' =>
          match at_index bytecode (pc s) with
          | None => Throw (TypeError "instruction is undefined") s
          | Some instruction =>
              (executeInstruction fuel instruction;;
               modify (fun s => set_pc (pc s + 1) s);;
               run fuel' bytecode) s
          end
      end
    else Ok tt s.

Definition execute (fuel : nat) (bytecode : list instruction) : M run_result :=
  fun s =>
    let s := set_running true (set_pc 0 s) in
    match run fuel bytecode s with
    | Ok _ s' =>
        Ok (Success match stack s' with [] => VNull | v :: _ => v end) s'
    | Throw e s' => Ok (Failure e (pc s')) s'
    | Unmodelled => Unmodelled
    | OutOfFuel => OutOfFuel
    end.

(** [registerNative(name, func)]. *)
Definition registerNative (name : string) (func : value) : M unit :=
  modify (fun s => set_globals (<[name := func]> (globals s)) s).

End APLRuntime.

(** ** The dual-syntax table: object [RunicMap] *)

(** A JavaScript string is a sequence of UTF-16 code units; every glyph of
    this repository lies in the basic plane, one unit each. *)
Abbreviation jsstring := (list N).

Definition u (s : string) : jsstring :=
  map N_of_ascii (list_ascii_of_string s).

Module RunicMap.

Local Open Scope N_scope.

(** [asciiToRunic], in the order the properties are written. *)
Definition asciiToRunic : list (jsstring * jsstring) :=
  [
    (u "Q.super", [0x16e9]);
    (u "Q.gate", [0x16dc]);
    (u "Q.entangle", [0x1660]);
    (u "Q.teleport", [0x16ea]);
    (u "G.cross", [0x16b4]);
    (u "G.fitness", [0x16a0]);
    (u "G.mutate", [0x16a5]);
    (u "N.net", [0x16be]);
    (u "N.match", [0x16c8]);
    (u "N.synapse", [0x16d2]);
    (u "N.learn", [0x16bb]);
    (u "C.phi", [0x16b3]);
    (u "C.integrate", [0x16c7]);
    (u "S.reason", [0x16ca]);
    (u "S.graph", [0x16d5]);
    (u "R.osc", [0x16df]);
    (u "R.sync", [0x16b1]);
    (u "M.access", [0x16d7]);
    (u "D.dist", [0x16de]);
    (u "D.unify", [0x16a2]);
    (u "D.bind", [0x16c2]);
    (u "C.rate", [0x16a4]);
    (u "C.yield", [0x16d8]);
    (u "C.init", [0x16ce]);
    (u "T.quantum", u "QReg");
    (u "T.spike", u "Spike");
    (u "T.neuron", u "Neuron");
    (u "T.synapse", u "Synapse");
    (u "T.int", u "Int");
    (u "T.float", u "Float");
    (u "T.bool", u "Bool");
    (u "T.array", u "Array");
    (u "T.map", u "Map");
    (u "T.qstate", u "QState");
    (u "T.epr", u "EPR")
  ].

(** [keys.sort((a, b) => b.length - a.length)]: a stable sort, longest
    key first. *)
Fixpoint insert_by_length (k : jsstring * jsstring)
    (sorted : list (jsstring * jsstring)) : list (jsstring * jsstring) :=
  match sorted with
  | [] => [k]
  | x :: rest =>
      if (length x.1 <? length k.1)%nat then k :: x :: rest
      else x :: insert_by_length k rest
  end.

Definition sortedKeys : list (jsstring * jsstring) :=
  foldl (fun sorted k => insert_by_length k sorted) [] asciiToRunic.

Fixpoint strip_prefix (pat s : jsstring) : option jsstring :=
  match pat, s with
  | [], _ => Some s
  | p :: pat', c :: s' => if p =? c then strip_prefix pat' s' else None
  | _ :: _, [] => None
  end.

(** [s.split(pat).join(rep)] for a non-empty [pat]: every occurrence of
    [pat], scanning from the left, becomes [rep].  [skip] counts the
    units of a matched occurrence still to be dropped. *)
Fixpoint replace_from (pat rep : jsstring) (skip : nat) (s : jsstring) : jsstring :=
  match s with
  | [] => []
  | c :: s' =>
      match skip with
      | S n => replace_from pat rep n s'
      | O =>
          match strip_prefix pat s with
          | Some _ => rep ++ replace_from pat rep (Nat.pred (length pat)) s'
          | None => c :: replace_from pat rep O s'
          end
      end
  end.

(** With the empty separator [split] cuts between all units. *)
Fixpoint join_units (rep s : jsstring) : jsstring :=
  match s with
  | [] => []
  | [c] => [c]
  | c :: s' => c :: rep ++ join_units rep s'
  end.

Definition split_join (pat rep s : jsstring) : jsstring :=
  match pat with
  | [] => join_units rep s
  | _ :: _ => replace_from pat rep O s
  end.

Definition toRunic (code : jsstring) : jsstring :=
  foldl (fun result '(ascii, runic) => split_join ascii runic result) code sortedKeys.

(** The two ranges of [/[\u16A0-\u16FF\u1400-\u167F]/]. *)
Definition isValidRunic (c : N) : bool :=
  (0x16A0 <=? c) && (c <=? 0x16FF) || (0x1400 <=? c) && (c <=? 0x167F).

Inductive mode : Type := runic | ascii.

(** [normalize(code)]: the text comes back as it was, with the detected
    mode. *)
Definition normalize (code : jsstring) : jsstring * mode :=
  if existsb isValidRunic code then (code, runic) else (code, ascii).

End RunicMap.

(** ** The compiler: object [APLCompiler] *)

Module APLCompiler.

Local Open Scope N_scope.

(** An entry [{ op, hw, desc }] of [runicAlphabet]. *)
Record opdesc : Type := OpDesc { op : string; hw : string; desc : jsstring }.

(** The glyph tables the tokenizer reads: [this.runicAlphabet], the three
    glyphs its second branch compares with, and [this.dataTypes]. *)
Record glyphs : Type := Glyphs {
  runicAlphabet : list (jsstring * opdesc);
  typeLeads : list jsstring;
  dataTypes : list (jsstring * string)
}.

(** The tables as the source file stores them.  The file holds each rune
    as the three characters obtained by reading the rune's UTF-8 bytes as
    Windows-1252 text, so every key below is three units long. *)
Definition stored : glyphs :=
  {| runicAlphabet := [
    ([0xe1; 0x203a; 0xa9], OpDesc "QUANTUM_SUPERPOSITION" "QFU" (u "Quantum Superposition Engine"));
    ([0xe1; 0x203a; 0x153], OpDesc "QUANTUM_GATE" "QFU" (u "Quantum Gate Executor"));
    ([0xe1; 0x2122; 0xa0], OpDesc "ENTANGLEMENT" "QFU" (u "Entanglement Generator"));
    ([0xe1; 0x203a; 0xaa], OpDesc "QUANTUM_TELEPORT" "QFU" (u "Quantum Teleportation"));
    ([0xe1; 0x161; 0xb4], OpDesc "GENETIC_CROSSOVER" "GEU" (u "Genetic Crossover Accelerator"));
    ([0xe1; 0x161; 0xa0], OpDesc "FITNESS_EVAL" "GEU" (u "Fitness Evaluation Unit"));
    ([0xe1; 0x161; 0xa5], OpDesc "MUTATION" "GEU" (u "Variance/Mutation Generator"));
    ([0xe1; 0x161; 0xbe], OpDesc "NEURAL_NETWORK" "NPU" (u "Neural Network Accelerator"));
    ([0xe1; 0x203a; 0x2c6], OpDesc "PATTERN_MATCH" "NPU" (u "Pattern Matching (BLOOM)"));
    ([0xe1; 0x203a; 0x8f], OpDesc "TRIPARTITE_SYNAPSE" "NPU" (u "Tripartite Synapse Processor"));
    ([0xe1; 0x161; 0xbb], OpDesc "HEBBIAN_LEARNING" "NPU" (u "Hebbian Learning Engine"));
    ([0xe1; 0x161; 0xb3], OpDesc "CONSCIOUSNESS" "CU" ([0x43; 0x6f; 0x6e; 0x73; 0x63; 0x69; 0x6f; 0x75; 0x73; 0x6e; 0x65; 0x73; 0x73; 0x20; 0x28; 0xce; 0xa6; 0x29; 0x20; 0x43; 0x61; 0x6c; 0x63; 0x75; 0x6c; 0x61; 0x74; 0x6f; 0x72]));
    ([0xe1; 0x203a; 0x2021], OpDesc "INFORMATION_INTEGRATION" "CU" (u "Information Integration"));
    ([0xe1; 0x203a; 0x160], OpDesc "SYMBOLIC_REASONING" "SRE" (u "Symbolic Reasoning Engine"));
    ([0xe1; 0x203a; 0x2022], OpDesc "KNOWLEDGE_GRAPH" "SRE" (u "Knowledge Graph Processor"));
    ([0xe1; 0x203a; 0x178], OpDesc "OSCILLATOR" "RU" (u "Oscillator (Resonance)"));
    ([0xe1; 0x161; 0xb1], OpDesc "RESONANCE_SYNC" "RU" (u "Resonance Synchronizer"));
    ([0xe1; 0x203a; 0x2014], OpDesc "MEMORY_ACCESS" "MU" (u "Memory Access (Quantum + Classical)"));
    ([0xe1; 0x203a; 0x17e], OpDesc "DISTRIBUTE" "COORD" (u "Distribution Coordinator"));
    ([0xe1; 0x161; 0xa2], OpDesc "UNIFY" "COORD" (u "Unification (Neurosymbolic)"));
    ([0xe1; 0x203a; 0x201a], OpDesc "BIND" "COORD" (u "Junction/Binding Unit"));
    ([0xe1; 0x161; 0xa4], OpDesc "LEARNING_RATE" "CTRL" (u "Learning Rate Modulator"));
    ([0xe1; 0x203a; 0x2dc], OpDesc "YIELD" "CTRL" (u "Yield (Concurrency)"));
    ([0xe1; 0x203a; 0x17d], OpDesc "INITIALIZE" "CTRL" (u "Zero/Initialize"));
    ([0xe1; 0x161; 0xb9], OpDesc "WAVE_PROPAGATION" "NPU" (u "Wave Propagation"))
     ];
     typeLeads := [ [0xe1; 0x203a; 0x153]; [0xe1; 0x203a; 0x160]; [0xe1; 0x161; 0xbe] ];
     dataTypes := [
    ([0xe1; 0x203a; 0x153; 0xe1; 0x161; 0xa2; 0xe1; 0x203a; 0xa9; 0xe1; 0x161; 0xbe; 0xe1; 0x203a; 0x8f; 0xe1; 0x161; 0xa2; 0xe1; 0x203a; 0x2014], "Quantum");
    ([0xe1; 0x203a; 0x160; 0xe1; 0x203a; 0x2c6; 0xe1; 0x203a; 0x2021; 0xe1; 0x203a; 0x2022; 0xe1; 0x2122; 0xa0], "Spike");
    ([0xe1; 0x161; 0xbe; 0xe1; 0x2122; 0xa0; 0xe1; 0x161; 0xa2; 0xe1; 0x161; 0xb1; 0xe1; 0x203a; 0x178; 0xe1; 0x161; 0xbe], "Neuron");
    ([0xe1; 0x203a; 0x160; 0xe1; 0x203a; 0x2dc; 0xe1; 0x161; 0xbe; 0xe1; 0x203a; 0xa9; 0xe1; 0x203a; 0x2c6; 0xe1; 0x203a; 0x160; 0xe1; 0x2122; 0xa0], "Synapse");
    ([0xe1; 0x203a; 0x2021; 0xe1; 0x161; 0xbe; 0xe1; 0x203a; 0x8f], "Int");
    ([0xe1; 0x161; 0xa0; 0xe1; 0x161; 0xa4; 0xe1; 0x203a; 0x178; 0xe1; 0x203a; 0xa9; 0xe1; 0x203a; 0x8f], "Float");
    ([0xe1; 0x203a; 0x201a; 0xe1; 0x203a; 0x178; 0xe1; 0x203a; 0x178; 0xe1; 0x161; 0xa4], "Bool");
    ([0xe1; 0x203a; 0xa9; 0xe1; 0x161; 0xb1; 0xe1; 0x161; 0xb1; 0xe1; 0x203a; 0xa9; 0xe1; 0x203a; 0x2dc], "Array");
    ([0xe1; 0x203a; 0x2014; 0xe1; 0x203a; 0xa9; 0xe1; 0x203a; 0x2c6], "Map");
    ([0xe1; 0x203a; 0x153; 0xe1; 0x203a; 0x160; 0xe1; 0x203a; 0x8f; 0xe1; 0x203a; 0xa9; 0xe1; 0x203a; 0x8f; 0xe1; 0x2122; 0xa0], "QState");
    ([0xe1; 0x2122; 0xa0; 0xe1; 0x161; 0xbe; 0xe1; 0x203a; 0x8f; 0xe1; 0x203a; 0xa9; 0xe1; 0x161; 0xbe; 0xe1; 0x2dc; 0x203a; 0xe1; 0x161; 0xa4; 0xe1; 0x2122; 0xa0; 0xe1; 0x203a; 0x2014; 0xe1; 0x2122; 0xa0; 0xe1; 0x161; 0xbe; 0xe1; 0x203a; 0x8f], "EPR")
     ] |}.

(** The byte a character stands for in Windows-1252, for the characters
    that occur in the stored keys. *)
Definition cp1252_byte (c : N) : N :=
  if c =? 0x201a then 0x82 else if c =? 0x2021 then 0x87
  else if c =? 0x2c6 then 0x88 else if c =? 0x160 then 0x8a
  else if c =? 0x17d then 0x8e else if c =? 0x2022 then 0x95
  else if c =? 0x2014 then 0x97 else if c =? 0x2dc then 0x98
  else if c =? 0x2122 then 0x99 else if c =? 0x161 then 0x9a
  else if c =? 0x203a then 0x9b else if c =? 0x153 then 0x9c
  else if c =? 0x17e then 0x9e else if c =? 0x178 then 0x9f
  else c.

(** The text whose UTF-8 bytes, three to a character, are the given
    characters read as Windows-1252. *)
Fixpoint redecode (s : jsstring) : jsstring :=
  match s with
  | b0 :: b1 :: b2 :: rest =>
      N.lor (N.shiftl (N.land (cp1252_byte b0) 0x0f) 12)
        (N.lor (N.shiftl (N.land (cp1252_byte b1) 0x3f) 6)
               (N.land (cp1252_byte b2) 0x3f))
      :: redecode rest
  | _ => []
  end.

(** The same tables with the double encoding of the keys undone: the
    keys are the runes themselves. *)
Definition repaired : glyphs :=
  {| runicAlphabet := map (fun kd => (redecode kd.1, kd.2)) (runicAlphabet stored);
     typeLeads := map redecode (typeLeads stored);
     dataTypes := map (fun kd => (redecode kd.1, kd.2)) (dataTypes stored) |}.


(** What a compiler stage does: it returns, raises, or exhausts the
    bound on its loop ([Exhausted]). *)
Inductive res (A : Type) : Type :=
| Return (a : A)
| Raise (e : exn)
| Exhausted.
Arguments Return {A} a.
Arguments Raise {A} e.
Arguments Exhausted {A}.

#[global] Instance res_ret : MRet res := @Return.
#[global] Instance res_bind : MBind res := fun A B k m =>
  match m with
  | Return a => k a
  | Raise e => Raise e
  | Exhausted => Exhausted
  end.

(** *** Tokens *)

Inductive token_type : Type :=
| RUNE | TYPE | IDENTIFIER | NUMBER | DELIMITER | OPERATOR | KEYWORD.

(** A token's [value] is a string, or a number for [NUMBER] tokens. *)
Inductive token_value : Type :=
| Str (s : jsstring)
| Num (x : float).

(** A token [{ type, value, op, dataType }]; the last two are present on
    RUNE and TYPE tokens only. *)
Record token : Type := Token {
  tok_type : token_type;
  tok_value : token_value;
  tok_op : option opdesc;
  tok_dataType : option string
}.

Definition jsstring_eqb (a b : jsstring) : bool :=
  if decide (a = b) then true else false.

(** [table[key]] for an own property. *)
Fixpoint lookup_key {A : Type} (key : jsstring) (table : list (jsstring * A)) : option A :=
  match table with
  | [] => None
  | (k, v) :: rest => if jsstring_eqb k key then Some v else lookup_key key rest
  end.

Definition is_str (v : token_value) (s : string) : bool :=
  match v with
  | Str t => jsstring_eqb t (u s)
  | Num _ => false
  end.

(** [/\s/], [/[0-9]/] and [/[a-zA-Z]/] on one unit. *)
Definition isWhitespace (c : N) : bool :=
  (9 <=? c) && (c <=? 13) || (c =? 32) || (c =? 0xa0) || (c =? 0x1680)
  || (0x2000 <=? c) && (c <=? 0x200a) || (c =? 0x2028) || (c =? 0x2029)
  || (c =? 0x202f) || (c =? 0x205f) || (c =? 0x3000) || (c =? 0xfeff).

Definition isDigit (c : N) : bool := (48 <=? c) && (c <=? 57).

Definition isAlpha (c : N) : bool :=
  (97 <=? c) && (c <=? 122) || (65 <=? c) && (c <=? 90).

Definition isKeyword (word : jsstring) : bool :=
  existsb (fun k => jsstring_eqb (u k) word)
    ["function"; "if"; "else"; "for"; "while"; "return"; "let"; "const"; "var"]%string.

Definition is_delimiter (c : N) : bool :=
  (c =? 40) || (c =? 41) || (c =? 123) || (c =? 125) || (c =? 91) || (c =? 93).

Definition is_operator (c : N) : bool :=
  (c =? 43) || (c =? 45) || (c =? 42) || (c =? 47) || (c =? 61).

(** The longest prefix whose units satisfy [p], and what follows it. *)
Fixpoint span (p : N -> bool) (s : jsstring) : jsstring * jsstring :=
  match s with
  | [] => ([], [])
  | c :: rest =>
      if p c then let '(w, r) := span p rest in (c :: w, r) else ([], s)
  end.

Definition digits_value (ds : jsstring) : Z :=
  foldl (fun acc d => (10 * acc + (Z.of_N d - 48))%Z) 0%Z ds.

(** The binary64 number nearest to the quotient of two positive integers
    of any size, ties to even, and Infinity past the largest number: the
    division of the binary64 specification rounds the exact quotient
    once. *)
Definition nearest_quotient (numerator denominator : positive) : float :=
  SF2Prim (SFdiv prec emax (S754_finite false numerator 0)
                           (S754_finite false denominator 0)).

(** [parseFloat(num)] for a text of digits and dots that starts with a
    digit: the Number value of the decimal [digits] or [digits.digits] at
    its head, which is the binary64 number nearest to it, whatever the
    number of digits. *)
Definition parseFloat (num : jsstring) : float :=
  let '(int_part, rest) := span isDigit num in
  let frac_part :=
    match rest with
    | 46 :: rest' => fst (span isDigit rest')
    | _ => []
    end in
  match digits_value (int_part ++ frac_part) with
  | Z.pos numerator =>
      nearest_quotient numerator (Z.to_pos (10 ^ Z.of_nat (length frac_part)))
  | _ => 0%float
  end.

Section Tokenizer.
Variable this : glyphs.

(** The [while (i < code.length)] loop of [tokenize], on the text from
    position [i] on. *)
Fixpoint tokenize_from (fuel : nat) (code : jsstring) (tokens : list token)
    : res (list token) :=
  match fuel with
  | O => Exhausted
  | S fuel =>
      match code with
      | [] => Return tokens
      | char :: rest =>
          match lookup_key [char] (runicAlphabet this) with
          | Some d =>
              tokenize_from fuel rest (tokens ++ [Token RUNE (Str [char]) (Some d) None])
          | None =>
              if existsb (jsstring_eqb [char]) (typeLeads this) then
                let '(word, rest) :=
                  span (fun c => negb (isWhitespace c) && negb (c =? 40) && negb (c =? 41))
                    code in
                match lookup_key word (dataTypes this) with
                | Some t =>
                    tokenize_from fuel rest (tokens ++ [Token TYPE (Str word) None (Some t)])
                | None =>
                    tokenize_from fuel rest (tokens ++ [Token IDENTIFIER (Str word) None None])
                end
              else if isDigit char then
                let '(num, rest) := span (fun c => isDigit c || (c =? 46)) code in
                tokenize_from fuel rest
                  (tokens ++ [Token NUMBER (Num (parseFloat num)) None None])
              else if isWhitespace char then tokenize_from fuel rest tokens
              else if is_delimiter char then
                tokenize_from fuel rest (tokens ++ [Token DELIMITER (Str [char]) None None])
              else if is_operator char then
                tokenize_from fuel rest (tokens ++ [Token OPERATOR (Str [char]) None None])
              else if isAlpha char then
                let '(word, rest) :=
                  span (fun c => isAlpha c || isDigit c || (c =? 95)) code in
                tokenize_from fuel rest
                  (tokens ++ [Token (if isKeyword word then KEYWORD else IDENTIFIER)
                                (Str word) None None])
              else tokenize_from fuel rest tokens
          end
      end
  end.

(** Every turn of the loop consumes a unit, so the length of the text
    bounds the turns. *)
Definition tokenize (code : jsstring) : res (list token) :=
  tokenize_from (S (length code)) code [].
End Tokenizer.

(** *** The parser *)

Inductive node : Type :=
| NumberLiteral (value : token_value)
| HardwareOperation (operation hardwareUnit : string) (description : jsstring)
    (params : list node)
| Identifier (name : token_value)
| FunctionDeclaration (name : token_value) (params : list token_value)
    (body : list node)
| Unknown (value : token).

Record program : Type := Program { body : list node }.

Section Parser.
Variable tokens : list token.

(** [tokens[current] && tokens[current].value !== stop]. *)
Definition more (stop : string) (current : nat) : bool :=
  match tokens !! current with
  | Some t => negb (is_str (tok_value t) stop)
  | None => false
  end.

(** [if (tokens[current] && tokens[current].value === ',') current++]. *)
Definition skip_comma (current : nat) : nat :=
  match tokens !! current with
  | Some t => if is_str (tok_value t) "," then S current else current
  | None => current
  end.

(** The parameter-name loop of a function declaration. *)
Fixpoint names (fuel : nat) (current : nat) (params : list token_value)
    : res (list token_value * nat) :=
  match fuel with
  | O => Exhausted
  | S fuel =>
      match tokens !! current with
      | Some t =>
          if is_str (tok_value t) ")" then Return (params, current)
          else names fuel (skip_comma (S current)) (params ++ [tok_value t])
      | None => Return (params, current)
      end
  end.

(** [walk()], with the cursor [current] passed in and out, and the two
    loops that call it: the arguments of a rune up to [")"] and the
    body of a function up to ["}"]. *)
Fixpoint walk (fuel : nat) (current : nat) : res (node * nat) :=
  match fuel with
  | O => Exhausted
  | S fuel =>
      match tokens !! current with
      | None => Raise (TypeError "token is undefined")
      | Some token =>
          match tok_type token with
          | NUMBER => Return (NumberLiteral (tok_value token), S current)
          | RUNE =>
              let current := S current in
              match tok_op token with
              | None => Raise (TypeError "token.op is undefined")
              | Some d =>
                  if match tokens !! current with
                     | Some t => is_str (tok_value t) "("
                     | None => false
                     end
                  then
                    '(params, current) ← walk_until fuel ")" true (S current) [];
                    Return (HardwareOperation (op d) (hw d) (desc d) params, S current)
                  else Return (HardwareOperation (op d) (hw d) (desc d) [], current)
              end
          | IDENTIFIER => Return (Identifier (tok_value token), S current)
          | KEYWORD =>
              if is_str (tok_value token) "function" then
                let current := S current in
                match tokens !! current with
                | None => Raise (TypeError "tokens[current] is undefined")
                | Some t =>
                    let name := tok_value t in
                    let current := S (S current) in
                    '(params, current) ← names fuel current [];
                    let current := S (S current) in
                    '(body, current) ← walk_until fuel "}" false current [];
                    Return (FunctionDeclaration name params body, S current)
                end
              else Return (Unknown token, S current)
          | _ => Return (Unknown token, S current)
          end
      end
  end
with walk_until (fuel : nat) (stop : string) (commas : bool) (current : nat)
    (acc : list node) : res (list node * nat) :=
  match fuel with
  | O => Exhausted
  | S fuel =>
      if more stop current then
        '(n, current) ← walk fuel current;
        walk_until fuel stop commas
          (if commas then skip_comma current else current) (acc ++ [n])
      else Return (acc, current)
  end.

(** [while (current < tokens.length) ast.body.push(walk())]. *)
Fixpoint parse_from (fuel : nat) (current : nat) (body : list node)
    : res (list node) :=
  match fuel with
  | O => Exhausted
  | S fuel' =>
      if (current <? length tokens)%nat then
        '(n, current) ← walk fuel current;
        parse_from fuel' current (body ++ [n])
      else Return body
  end.

(** [walk] moves the cursor forward at every call, so twice the number
    of tokens bounds the nesting of the loops. *)
Definition parse : res program :=
  body ← parse_from (2 * length tokens + 2) 0 [];
  Return (Program body).
End Parser.

(** *** The code generator *)

(** What [traverse] returns: an operation [{ operation, hardwareUnit,
    params }], one of the tagged objects [{ type: 'number' | 'variable' |
    'function', ... }], or the node itself. *)
Inductive lowered : Type :=
| Operation (operation hardwareUnit : string) (params : list lowered)
| Number (value : token_value)
| Variable_ (name : token_value)
| Function (name : token_value) (params : list token_value) (body : list lowered)
| Node (n : node).

(** The object [code].  [hardwareMap] keeps its keys in the order they
    were first assigned. *)
Record code : Type := Code {
  operations : list lowered;
  hardwareMap : list (string * list lowered);
  executionPlan : list lowered
}.

Fixpoint push_unit (hardwareUnit : string) (o : lowered)
    (m : list (string * list lowered)) : list (string * list lowered) :=
  match m with
  | [] => [(hardwareUnit, [o])]
  | (k, ops) :: rest =>
      if decide (k = hardwareUnit) then (k, ops ++ [o]) :: rest
      else (k, ops) :: push_unit hardwareUnit o rest
  end.

(** [traverse(node)], threading the object [code] it appends to. *)
Fixpoint traverse (n : node) (c : code) : lowered * code :=
  let fix traverse_all (l : list node) (c : code) : list lowered * code :=
    match l with
    | [] => ([], c)
    | x :: rest =>
        let '(x', c) := traverse x c in
        let '(rest', c) := traverse_all rest c in
        (x' :: rest', c)
    end in
  match n with
  | HardwareOperation operation hardwareUnit _ params =>
      let '(params', c) := traverse_all params c in
      let o := Operation operation hardwareUnit params' in
      (o, Code (operations c ++ [o]) (push_unit hardwareUnit o (hardwareMap c))
               (executionPlan c))
  | NumberLiteral value => (Number value, c)
  | Identifier name => (Variable_ name, c)
  | FunctionDeclaration name params body =>
      let '(body', c) := traverse_all body c in
      (Function name params body', c)
  | Unknown _ => (Node n, c)
  end.

Definition generate (ast : program) : code :=
  foldl (fun c n =>
           let '(o, c) := traverse n c in
           Code (operations c) (hardwareMap c) (executionPlan c ++ [o]))
        (Code [] [] []) (body ast).

(** *** The pipeline *)

(** [{ success: true, code, tokens, ast }] or [{ success: false, error }]. *)
Inductive compiled : Type :=
| Compiled (code : code) (tokens : list token) (ast : program)
| Failed (error : exn).

Definition compile (this : glyphs) (source : jsstring) : res compiled :=
  match
    tokens ← tokenize this source;
    ast ← parse tokens;
    Return (Compiled (generate ast) tokens ast)
  with
  | Raise e => Return (Failed e)
  | r => r
  end.

(** *** Abbreviations for statements *)

(** A node without hardware operation anywhere inside. *)
Fixpoint hardware_free (n : node) : bool :=
  match n with
  | HardwareOperation _ _ _ _ => false
  | FunctionDeclaration _ _ body => forallb hardware_free body
  | _ => true
  end.

(** A token that is not a RUNE token. *)
Definition not_rune (t : token) : Prop := tok_type t <> RUNE.



(** An [Unknown] node passed through by [traverse], for a token that has
    neither [op] nor [dataType]. *)
Definition plain (t : token_type) (s : string) : lowered :=
  Node (Unknown (Token t (Str (u s)) None None)).

(** [compile(source)] succeeds with the object [code]. *)
Definition compiles_to (this : glyphs) (source : jsstring) (c : code) : Prop :=
  exists tokens ast, compile this source = Return (Compiled c tokens ast).

End APLCompiler.

(** ** The other two gates: [applyCNOT] and [applyPhase]

    Like [applyHadamard] they are written over the scalar interface.
    [applyPhase] also calls [Math.cos] and [Math.sin], whose binary64
    results the language leaves to the engine; they are an interface of
    their own, instantiated with the real functions. *)

Module Gates.

(** [Math.cos] and [Math.sin]. *)
Class Trigonometry (F : Type) : Type := {
  Math_cos : F -> F;
  Math_sin : F -> F
}.

#[global] Instance real_trigonometry : Trigonometry R := {|
  Math_cos := Rtrigo_def.cos;
  Math_sin := Rtrigo_def.sin
|}.

Section Arrays.
Context {F : Type} `{Scalar F}.

(** One turn of the [for] loop of [applyCNOT]: the destructuring swap
    [[new[i], new[j]] = [new[j], new[i]]] reads both elements and then
    writes [new[i]] and [new[j]], in this order.  When [j] is off the
    array the swap stores [undefined] at [i] and creates the element [j];
    such arrays are outside the embedding ([None]).  The indices stay
    below 2^31, so [&] and [^] are [Z.land] and [Z.lxor]. *)
Definition cnot_step (target control : Z) (acc : option (list (complex F))) (i : nat)
    : option (list (complex F)) :=
  match acc with
  | None => None
  | Some newAmplitudes =>
      if Z.land (Z.of_nat i) (shl1 control) =? 0 then Some newAmplitudes
      else
        let j := Z.lxor (Z.of_nat i) (shl1 target) in
        match newAmplitudes !! i, at_index newAmplitudes j with
        | Some a, Some b => Some (<[Z.to_nat j := a]> (<[i := b]> newAmplitudes))
        | _, _ => None
        end
  end.

(** [applyCNOT(target, control)] on the amplitude array: the new array. *)
Definition applyCNOT (target control : Z) (amplitudes : list (complex F))
    : option (list (complex F)) :=
  let size := length amplitudes in
  foldl (cnot_step target control) (Some amplitudes) (seq 0 size).

(** [applyPhase(target, angle)]: every amplitude whose index has the
    target bit set is multiplied by [{ real: cos(angle), imag: sin(angle) }],
    in place. *)
Definition applyPhase `{Trigonometry F} (target : Z) (angle : F)
    (amplitudes : list (complex F)) : list (complex F) :=
  let phase := Complex (Math_cos angle) (Math_sin angle) in
  imap (fun i a =>
          if Z.land (Z.of_nat i) (shl1 target) =? 0 then a
          else Complex (sub (mul (real a) (real phase)) (mul (imag a) (imag phase)))
                       (add (mul (real a) (imag phase)) (mul (imag a) (real phase))))
       amplitudes.

(** *** The arrays the loops pass through

    [partner t i] is the index [i ^ (1 << t)].  The three arrays below are
    what [newAmplitudes] holds after the first [k] turns of the loop of
    [applyCNOT] (with distinct qubits: a pair is swapped while exactly its
    lower index has been visited), of [applyCNOT] with target and control on
    one qubit, and of [applyHadamard]. *)
Definition partner (t i : nat) : nat :=
  Z.to_nat (Z.lxor (Z.of_nat i) (2 ^ Z.of_nat t)).

Definition cnot_upto (t c : nat) (a : list (complex F)) (k : nat) : list (complex F) :=
  imap (fun i x =>
          if Z.testbit (Z.of_nat i) (Z.of_nat c)
             && (Nat.min i (partner t i) <? k)%nat
             && negb (Nat.max i (partner t i) <? k)%nat
          then default x (a !! partner t i) else x) a.

Definition not_upto (c : nat) (a : list (complex F)) (k : nat) : list (complex F) :=
  imap (fun i x =>
          if (Nat.max i (partner c i) <? k)%nat
          then default x (a !! partner c i) else x) a.

Definition hadamard_upto (t : nat) (a : list (complex F)) (k : nat) : list (complex F) :=
  imap (fun i x =>
          let y := default x (a !! partner t i) in
          if Z.testbit (Z.of_nat i) (Z.of_nat t)
          then (if (partner t i <? k)%nat then hi y x else x)
          else (if (i <? k)%nat then lo x y else x)) a.

End Arrays.

End Gates.

(** ** More methods of [APLRuntime]

    [applyCNOT], [opPatternMatch] with [matchPattern], and [opParallel]
    with [executeParallelTask], as state transformers of their own. *)

Module Handlers.
Import APLRuntime.

(** [applyCNOT(target, control)], which [opQuantumGate] calls with
    [instruction.control] for the gate name ['CNOT']. *)
Definition applyCNOT (target control : Z) : M unit :=
  '(ref, q) ← current_qstate;
  match Gates.applyCNOT target control (amplitudes q) with
  | Some newAmplitudes => set_amplitudes ref q newAmplitudes
  | None => unmodelled
  end.

(** *** Pattern matching

    The data a pattern, and the value matched against it, are made of:
    primitives, arrays without holes, and [DObject] for an object that is
    no array (or a function).  [matchPattern] enumerates the keys of such
    a pattern and reads them off the value, prototypes included; this is
    outside the embedding ([None]). *)
Inductive data : Type :=
| DUndefined
| DNull
| DBool (b : bool)
| DNum (x : float)
| DStr (s : jsstring)
| DArray (items : list data)
| DObject.

(** [value === pattern] for a pattern that is a primitive. *)
Definition strict_eq (value pattern : data) : bool :=
  match value, pattern with
  | DUndefined, DUndefined => true
  | DNull, DNull => true
  | DBool a, DBool b => Bool.eqb a b
  | DNum x, DNum y => PrimFloat.eqb x y
  | DStr s, DStr t => if decide (s = t) then true else false
  | _, _ => false
  end.

(** [matchPattern(value, pattern)]; [every] is [pattern.every((p, i) =>
    this.matchPattern(value[i], p))], which stops at the first [false]. *)
Fixpoint matchPattern (value pattern : data) : option bool :=
  match pattern with
  | DArray ps =>
      match value with
      | DArray vs =>
          (fix every (i : nat) (ps : list data) : option bool :=
             match ps with
             | [] => Some true
             | p :: rest =>
                 match matchPattern (default DUndefined (vs !! i)) p with
                 | Some true => every (S i) rest
                 | r => r
                 end
             end) 0%nat ps
      | _ => Some false
      end
  | DObject => None
  | _ => Some (strict_eq value pattern)
  end.

(** The values of the evaluation stack, as data. *)
Definition data_of (v : value) : data :=
  match v with
  | VUndefined => DUndefined
  | VNull => DNull
  | VBool b => DBool b
  | VNum x => DNum x
  | VState _ | VNative _ => DObject
  end.

Definition opPatternMatch (pattern : data) : M unit :=
  value ← pop;
  match matchPattern (data_of value) pattern with
  | Some matches => push (VBool matches)
  | None => unmodelled
  end.

(** *** Parallel loops

    [opParallel] starts one task per item and awaits them all.  A task
    runs up to its first [await]: it replaces [this.memory] by a copy in
    which the variable is bound to its item and then reads
    [this.bytecode.length].  With [this.bytecode] undefined the task is
    rejected there, before it puts the saved memory back, and the next
    task starts from the memory it left; [Promise.all] then rejects with
    the error of the first task.  With [this.bytecode] assigned the tasks
    interleave at every [await], which is outside the embedding. *)
Fixpoint executeParallelTasks (variable : string) (items : list value) : M unit :=
  match items with
  | [] => mret tt
  | item :: rest =>
      modify (fun s => set_memory (<[variable := item]> (memory s)) s);;
      s ← get;
      match bytecode s with
      | None => executeParallelTasks variable rest
      | Some _ => unmodelled
      end
  end.

Definition opParallel (iterable : expr) (variable : string) : M unit :=
  it ← evalExpression iterable;
  match it with
  | EValue _ => throw (TypeError "iterable is not iterable")
  | EArray items =>
      executeParallelTasks variable items;;
      match items with
      | _ :: _ => throw (TypeError "this.bytecode is undefined")
      | [] =>
          s ← get;
          skip_block (OpStr "PARALLEL") (OpStr "LOOP_END") (skip_fuel s) 1
      end
  end.

End Handlers.

(** ** Reading the object [code]

    [code.hardwareMap[unit]] for an own property, and the operations of a
    list that run on a given unit, in the order of the list. *)

Module CodeMap.
Import APLCompiler.

Fixpoint hardwareMap_get (hardwareUnit : string) (m : list (string * list lowered))
    : option (list lowered) :=
  match m with
  | [] => None
  | (k, ops) :: rest =>
      if decide (k = hardwareUnit) then Some ops else hardwareMap_get hardwareUnit rest
  end.

Definition on_unit (hardwareUnit : string) (o : lowered) : bool :=
  match o with
  | Operation _ h _ => if decide (h = hardwareUnit) then true else false
  | _ => false
  end.

Definition unit_ops (hardwareUnit : string) (ops : list lowered) : list lowered :=
  List.filter (on_unit hardwareUnit) ops.

End CodeMap.

(** ** Kinds of tokens and of characters, for the statements *)

Module TokenKinds.
Import APLCompiler.

(** A token the parser needs nothing more from: not the keyword
    [function], and carrying its [op] when it is a RUNE token. *)
Definition simple (t : token) : Prop :=
  (tok_type t = KEYWORD -> is_str (tok_value t) "function" = false)
  /\ (tok_type t = RUNE -> tok_op t <> None).

(** A unit none of the tokenizer's branches takes, and which continues
    neither a number nor an identifier. *)
Definition dropped (this : glyphs) (c : N) : Prop :=
  lookup_key [c] (runicAlphabet this) = None
  /\ existsb (jsstring_eqb [c]) (typeLeads this) = false
  /\ isDigit c = false /\ isWhitespace c = false /\ is_delimiter c = false
  /\ is_operator c = false /\ isAlpha c = false
  /\ (c =? 46)%N = false /\ (c =? 95)%N = false.

End TokenKinds.

(** ** The reverse table of [RunicMap]: [init] and [toAscii] *)

Module RunicToAscii.

(** [object[key] = v] on an object whose keys are no array indices: an
    existing property keeps its place, a new one goes last. *)
Fixpoint set_property (key v : jsstring) (object : list (jsstring * jsstring))
    : list (jsstring * jsstring) :=
  match object with
  | [] => [(key, v)]
  | (k, w) :: rest =>
      if decide (k = key) then (k, v) :: rest else (k, w) :: set_property key v rest
  end.

(** [runicToAscii] as [init()] leaves it. *)
Definition init : list (jsstring * jsstring) :=
  foldl (fun runicToAscii '(ascii, runic) => set_property runic ascii runicToAscii)
        [] RunicMap.asciiToRunic.

Definition runicToAscii : list (jsstring * jsstring) := init.

Definition toAscii (code : jsstring) : jsstring :=
  foldl (fun result '(runic, ascii) => RunicMap.split_join runic ascii result)
        code runicToAscii.

End RunicToAscii.

(** ** Programs and states the properties are stated on *)

Import APLRuntime.

(** A runtime straight from the constructor; no property below draws a
    random number from it. *)
Definition fresh : runtime := constructor (fun _ => 0%float).

(** Scenario E: [function f(a, b) { return a + b }] declared at address 0,
    then called with 5 and 3. *)
Definition scenarioE : list instruction :=
  [ FUNC_DECL "f" [Param "a"; Param "b"] false;
    MEM_LOAD "a"; MEM_LOAD "b"; ADD; RETURN;
    PUSH_CONST (VNum 5); PUSH_CONST (VNum 3); CALL "f" 2 ].

(** Scenario C: a loop over the range [0..3] (3 excluded) whose body copies
    the loop variable into a slot. *)
Definition range_0_3 : expr :=
  CallExpression ".." [Literal (LitValue (VNum 0)); Literal (LitValue (VNum 3))].

Definition scenarioC : list instruction :=
  [ LOOP range_0_3 "i"; MEM_LOAD "i"; MEM_STORE "slot"; LOOP_END ].

(** The same loop with an empty body: the header alone binds [i]. *)
Definition scenarioC_bare : list instruction :=
  [ LOOP range_0_3 "i"; LOOP_END ].

(** Scenario B: the ASCII source and its rune spelling. *)
Definition scenarioB : jsstring := u "q = Q.super(2)".
Definition scenarioB_runes : jsstring := u "q = " ++ [0x16e9%N] ++ u "(2)".

Module ScenarioB.
Import APLCompiler.

(** What the ASCII spelling of scenario B compiles to. *)
Definition scenarioB_ascii_code : code :=
  {| operations := [];
     hardwareMap := [];
     executionPlan :=
       [ Variable_ (Str (u "q")); plain OPERATOR "=";
         Variable_ (Str (u "Q")); Variable_ (Str (u "super"));
         plain DELIMITER "("; Number (Num 2); plain DELIMITER ")" ] |}.

(** What its rune spelling compiles to once the keys are runes. *)
Definition scenarioB_rune_code : code :=
  {| operations := [ Operation "QUANTUM_SUPERPOSITION" "QFU" [Number (Num 2)] ];
     hardwareMap :=
       [ ("QFU", [ Operation "QUANTUM_SUPERPOSITION" "QFU" [Number (Num 2)] ]) ];
     executionPlan :=
       [ Variable_ (Str (u "q")); plain OPERATOR "=";
         Operation "QUANTUM_SUPERPOSITION" "QFU" [Number (Num 2)] ] |}.

End ScenarioB.
Import ScenarioB.

(** A caller with [x] bound to 1 and 7 on the stack, about to call a
    function of one parameter [a]. *)
Definition caller : runtime :=
  set_pc 7
    (set_functions {["f" := Func [Param "a"] 5 false]}
       (set_stack [VNum 7] (set_memory {["x" := VNum 1]} fresh))).

(** A runtime whose two-qubit state is collapsed on index 2 and whose next
    random draw is 0.75. *)
Definition collapsed_at_2 : runtime :=
  set_quantum (Some 0%nat) [QState (VNum 2) (one_hot 4 2) []]
    (constructor (fun _ => 0.75%float)).

(** The first amplitude after two Hadamard gates on a fresh state, in
    binary64 arithmetic. *)
Definition hh_one : float :=
  ((1 + 0) / PrimFloat.sqrt 2 + (1 - 0) / PrimFloat.sqrt 2) / PrimFloat.sqrt 2.

(** A runtime whose one-qubit state is the equal superposition reached by
    one Hadamard gate, and whose random draws are all 0.75. *)
Definition superposed : runtime :=
  set_quantum (Some 0%nat)
    [QState (VNum 1)
       [Complex (1 / PrimFloat.sqrt 2)%float 0%float;
        Complex (1 / PrimFloat.sqrt 2)%float 0%float] []]
    (constructor (fun _ => 0.75%float)).

(** A runtime in the middle of a run, with 5 on the stack. *)
Definition running_with_5 : runtime :=
  set_stack [VNum 5] (set_running true fresh).

(** The seven glyphs that spell the data type [Quantum], a key of
    [dataTypes]. *)
Definition quantum_type : jsstring :=
  [0x16dc; 0x16a2; 0x16e9; 0x16be; 0x16cf; 0x16a2; 0x16d7]%N.

(** ** Proof automation *)

(** Unfolds the monad of the interpreter down to functions on states. *)
Ltac unfold_M :=
  unfold mbind, mret, outcome_bind, outcome_ret, bind, ret, get, modify, throw,
    unmodelled, push in *.

(** ** Properties of the compiler *)

Section CompilerFacts.
Import APLCompiler.

(** [parseFloat] rounds to the nearest number whatever the length of the
    literal: nineteen fractional digits, a numerator one above 2^53 (a tie,
    which goes to the even neighbour), a second dot (where the literal
    ends), and a number past the largest one. *)
Lemma parseFloat_rounds_to_nearest :
  parseFloat (u "0.0000000000000000001") = 0x1.d83c94fb6d2acp-64%float
  /\ parseFloat (u "0.1") = 0x1.999999999999ap-4%float
  /\ parseFloat (u "9007199254740993") = 0x1p+53%float
  /\ parseFloat (u "1.5.7") = 1.5%float
  /\ parseFloat (49%N :: replicate 309 48%N) = infinity.
Proof. repeat split; vm_compute; reflexivity. Qed.

(** [toRunic] spells scenario B with the rune of [Q.super]. *)
Lemma toRunic_scenarioB : RunicMap.toRunic scenarioB = scenarioB_runes.
Proof. vm_compute. reflexivity. Qed.

(** [normalize] hands the ASCII text to the compiler unchanged. *)
Lemma normalize_scenarioB :
  RunicMap.normalize scenarioB = (scenarioB, RunicMap.ascii).
Proof. vm_compute. reflexivity. Qed.

(** C1 (the code at the failing input): compiling the ASCII source
    [q = Q.super(2)] succeeds with an empty [operations] list, so it
    produces no QUANTUM_SUPERPOSITION instruction; [Q] and [super] become
    two variables and the parentheses two unknown nodes.  This holds with
    the glyph table as the file stores it and with its keys re-decoded to
    runes. *)
Theorem C1_ascii_source_has_no_operation :
  compiles_to stored scenarioB scenarioB_ascii_code /\
  compiles_to repaired scenarioB scenarioB_ascii_code.
Proof.
  split; eexists; eexists; vm_compute; reflexivity.
Qed.

(** With the keys re-decoded, the rune spelling does compile to the one
    instruction the ASCII spelling lacks. *)
Lemma rune_source_repaired :
  compiles_to repaired scenarioB_runes scenarioB_rune_code.
Proof. eexists; eexists; vm_compute; reflexivity. Qed.

(** With the keys as stored, no single unit is a key, and the rune is
    skipped like any other unknown character. *)
Lemma rune_source_stored :
  compiles_to stored scenarioB_runes
    {| operations := [];
       hardwareMap := [];
       executionPlan :=
         [ Variable_ (Str (u "q")); plain OPERATOR "=";
           plain DELIMITER "("; Number (Num 2); plain DELIMITER ")" ] |}.
Proof. eexists; eexists; vm_compute; reflexivity. Qed.

(** The tokenizer never looks a unit up successfully in the stored table:
    all its keys are three units long. *)
Lemma stored_alphabet_has_no_unit_key (c : N) :
  lookup_key [c] (runicAlphabet stored) = None.
Proof.
  cbn [stored runicAlphabet lookup_key]. unfold jsstring_eqb.
  repeat (destruct (decide _) as [E | _]; [discriminate E | ]).
  reflexivity.
Qed.

(** Nor is any unit one of the three glyphs of the second branch. *)
Lemma stored_leads_are_no_unit (c : N) :
  existsb (jsstring_eqb [c]) (typeLeads stored) = false.
Proof.
  cbn [stored typeLeads existsb]. unfold jsstring_eqb.
  repeat (destruct (decide _) as [E | _]; [discriminate E | ]).
  reflexivity.
Qed.

(** So the tokenizer emits no RUNE token ... *)
Lemma tokenize_from_not_rune (fuel : nat) :
  forall (code : jsstring) (acc ts : list token),
    Forall not_rune acc ->
    tokenize_from stored fuel code acc = Return ts ->
    Forall not_rune ts.
Proof.
  induction fuel as [ | fuel IH]; intros code acc ts Hacc Hts; [discriminate | ].
  cbn [tokenize_from] in Hts. destruct code as [ | char rest].
  - injection Hts as <-. exact Hacc.
  - rewrite stored_alphabet_has_no_unit_key, stored_leads_are_no_unit in Hts.
    assert (Hpush : forall t, not_rune t -> Forall not_rune (acc ++ [t])).
    { intros t Ht. apply Forall_app. split; [exact Hacc | constructor; [exact Ht | constructor]]. }
    destruct (isDigit char).
    { destruct (span _ _) as [num rest'].
      apply IH in Hts; [exact Hts | ]. apply Hpush. unfold not_rune. cbn. discriminate. }
    destruct (isWhitespace char); [apply IH in Hts; assumption | ].
    destruct (is_delimiter char).
    { apply IH in Hts; [exact Hts | ]. apply Hpush. unfold not_rune. cbn. discriminate. }
    destruct (is_operator char).
    { apply IH in Hts; [exact Hts | ]. apply Hpush. unfold not_rune. cbn. discriminate. }
    destruct (isAlpha char).
    { destruct (span _ _) as [word rest'].
      apply IH in Hts; [exact Hts | ]. apply Hpush.
      unfold not_rune. cbn [tok_type]. destruct (isKeyword word); discriminate. }
    apply IH in Hts; assumption.
Qed.

(** ... the parser, given no RUNE token, builds no hardware operation ... *)
Lemma walk_hardware_free (tokens : list token) (fuel : nat) :
  Forall not_rune tokens ->
  (forall current n c',
      walk tokens fuel current = Return (n, c') -> hardware_free n = true)
  /\ (forall stop commas current acc ns c',
        forallb hardware_free acc = true ->
        walk_until tokens fuel stop commas current acc = Return (ns, c') ->
        forallb hardware_free ns = true).
Proof.
  intros Htok. induction fuel as [ | fuel [IHw IHu]].
  { split; intros; discriminate. }
  split.
  - intros current n c' Hw. cbn [walk] in Hw.
    destruct (tokens !! current) as [token | ] eqn:Htoken; [ | discriminate Hw].
    pose proof (Forall_lookup_1 _ _ _ _ Htok Htoken) as Hnr.
    destruct (tok_type token) eqn:Htype;
      try (injection Hw as <- _; reflexivity).
    + exfalso. apply Hnr. exact Htype.
    + destruct (is_str (tok_value token) "function");
        [ | injection Hw as <- _; reflexivity].
      destruct (tokens !! S current) as [t | ]; [ | discriminate Hw].
      destruct (names tokens fuel (S (S (S current))) []) as [[params c1] | | ];
        try discriminate Hw.
      cbn in Hw.
      destruct (walk_until tokens fuel "}" false (S (S c1)) [])
        as [[body c2] | | ] eqn:Hbody; try discriminate Hw.
      cbn in Hw. injection Hw as <- _. cbn [hardware_free].
      apply (IHu _ _ _ [] _ _ eq_refl Hbody).
  - intros stop commas current acc ns c' Hacc Hu. cbn [walk_until] in Hu.
    destruct (more tokens stop current).
    + destruct (walk tokens fuel current) as [[n c1] | | ] eqn:Hw;
        try discriminate Hu.
      cbn in Hu. apply IHu in Hu; [exact Hu | ].
      rewrite forallb_app, Hacc. cbn. rewrite (IHw _ _ _ Hw). reflexivity.
    + injection Hu as <- _. exact Hacc.
Qed.

Lemma parse_from_hardware_free (tokens : list token) (fuel : nat) :
  Forall not_rune tokens ->
  forall current acc body,
    forallb hardware_free acc = true ->
    parse_from tokens fuel current acc = Return body ->
    forallb hardware_free body = true.
Proof.
  intros Htok. induction fuel as [ | fuel IH]; intros current acc body Hacc Hp;
    [discriminate | ].
  cbn [parse_from] in Hp. destruct (current <? length tokens)%nat.
  - destruct (walk tokens (S fuel) current) as [[n c1] | | ] eqn:Hw;
      try discriminate Hp.
    cbn in Hp. apply IH in Hp; [exact Hp | ].
    rewrite forallb_app, Hacc. cbn.
    rewrite (proj1 (walk_hardware_free tokens (S fuel) Htok) _ _ _ Hw). reflexivity.
  - injection Hp as <-. exact Hacc.
Qed.


(** ... and the generator leaves [code] as it is on such nodes. *)
Lemma traverse_hardware_free :
  forall (n : node) (c : code), hardware_free n = true -> snd (traverse n c) = c.
Proof.
  fix IH 1. intros [v | o h d ps | nm | nm ps body | t] c Hn;
    try reflexivity; [discriminate Hn | ].
  cbn [hardware_free] in Hn. cbn [traverse].
  match goal with
  | |- context [ ?F body c ] => set (traverse_all := F)
  end.
  assert (Hall : snd (traverse_all body c) = c).
  { revert c. induction body as [ | x body IHb]; intros c; [reflexivity | ].
    cbn [forallb] in Hn. apply andb_prop in Hn as [Hx Hbody].
    unfold traverse_all at 1. cbn fix. fold traverse_all. cbv beta iota.
    pose proof (IH x c Hx) as Hxc. destruct (traverse x c) as [x' c1].
    cbn in Hxc. subst c1.
    pose proof (IHb Hbody c) as Hrc. destruct (traverse_all body c) as [rest' c2].
    cbn in Hrc. subst c2. reflexivity. }
  destruct (traverse_all body c) as [body' c1]. cbn in Hall. subst c1. reflexivity.
Qed.

Lemma generate_hardware_free (body : list node) (c : code) :
  forallb hardware_free body = true ->
  operations (foldl (fun c n =>
                       let '(o, c) := traverse n c in
                       Code (operations c) (hardwareMap c) (executionPlan c ++ [o]))
                c body)
  = operations c.
Proof.
  revert c. induction body as [ | n body IH]; intros c Hb; [reflexivity | ].
  cbn [forallb] in Hb. apply andb_prop in Hb as [Hn Hb].
  cbn [foldl]. pose proof (traverse_hardware_free n c Hn) as Hc.
  destruct (traverse n c) as [o c1]. cbn in Hc. subst c1.
  rewrite IH by exact Hb. reflexivity.
Qed.

(** X25: with the glyph table as the file stores it, no source text
    compiles to any operation: the tokenizer never emits a RUNE token, so
    the parser never builds a hardware operation and the generator appends
    nothing to [operations]. *)
Lemma stored_table_yields_no_operation (source : jsstring) (c : code)
    (tokens : list token) (ast : program) :
  compile stored source = Return (Compiled c tokens ast) ->
  operations c = [].
Proof.
  intros Hc. unfold compile, tokenize, parse in Hc.
  unfold mbind, res_bind, mret, res_ret in Hc.
  destruct (tokenize_from stored (S (length source)) source []) as [ts | | ] eqn:Htok;
    try discriminate Hc.
  destruct (parse_from ts (2 * length ts + 2) 0 []) as [body | | ] eqn:Hparse;
    try discriminate Hc.
  injection Hc as <- _ _.
  apply tokenize_from_not_rune in Htok; [ | constructor].
  apply (parse_from_hardware_free ts _ Htok) in Hparse; [ | reflexivity].
  unfold generate. cbn [APLCompiler.body].
  apply (generate_hardware_free body (Code [] [] []) Hparse).
Qed.

Lemma stored_table_yields_no_operation_witness :
  exists c tokens ast,
    compile stored scenarioB_runes = Return (Compiled c tokens ast)
    /\ operations c = [].
Proof.
  eexists. eexists. eexists. split; [vm_compute; reflexivity | ].
  eapply (stored_table_yields_no_operation scenarioB_runes). vm_compute. reflexivity.
Defined.

End CompilerFacts.

(** ** Properties of the interpreter *)

Section RunFacts.

(** One turn of the main loop that returns, one that throws, and the exit of
    the loop. *)
Lemma run_step (fuel : nat) (code : list instruction) (s s1 : runtime) (i : instruction) :
  (pc s <? Z.of_nat (length code)) && running s = true ->
  at_index code (pc s) = Some i ->
  executeInstruction (S fuel) i s = Ok tt s1 ->
  run (S fuel) code s = run fuel code (set_pc (pc s1 + 1) s1).
Proof.
  intros Hc Hi He. cbn [run]. rewrite Hc, Hi. unfold_M. rewrite He. reflexivity.
Qed.

Lemma run_throw (fuel : nat) (code : list instruction) (s s' : runtime) (i : instruction)
    (e : exn) :
  (pc s <? Z.of_nat (length code)) && running s = true ->
  at_index code (pc s) = Some i ->
  executeInstruction (S fuel) i s = Throw e s' ->
  run (S fuel) code s = Throw e s'.
Proof.
  intros Hc Hi He. cbn [run]. rewrite Hc, Hi. unfold_M. rewrite He. reflexivity.
Qed.

Lemma run_done (fuel : nat) (code : list instruction) (s : runtime) :
  (pc s <? Z.of_nat (length code)) && running s = false ->
  run fuel code s = Ok tt s.
Proof. intros Hc. destruct fuel; cbn [run]; rewrite Hc; reflexivity. Qed.

End RunFacts.

Section StackFacts.

(** On an empty stack [pop] returns [undefined] and leaves the state as it
    is. *)
Lemma pop_empty (s : runtime) :
  pop (set_stack [] s) = Ok VUndefined (set_stack [] s).
Proof. reflexivity. Qed.

(** On a non-empty stack it removes and returns the last-pushed value. *)
Lemma pop_cons (v : value) (rest : list value) (s : runtime) :
  pop (set_stack (v :: rest) s) = Ok v (set_stack rest s).
Proof. reflexivity. Qed.

(** [execute] turns a throw of the main loop into a failure record that
    carries the program counter of that moment. *)
Lemma execute_reports_throw (fuel : nat) (code : list instruction)
    (s s' : runtime) (e : exn) :
  run fuel code (set_running true (set_pc 0 s)) = Throw e s' ->
  execute fuel code s = Ok (Failure e (pc s')) s'.
Proof. unfold execute. intros ->. reflexivity. Qed.

(** C2 (counterexample): the one-instruction program [add], run on a fresh
    runtime whose stack is empty, does not fault: [execute] returns
    [{ success: true }] with NaN as result, and NaN is on the stack. *)
Lemma C2_add_on_empty_stack_succeeds :
  execute 2 [ADD] fresh
  = Ok (Success (VNum nan))
       (set_pc 1 (set_stack [VNum nan] (set_running true fresh))).
Proof. reflexivity. Qed.

(** No handler faults for want of operands: whatever the stack holds,
    [sub], [mul] and [store] return normally, [add] does not throw, and the
    only error [div] throws is the division by zero. *)
Lemma arithmetic_never_underflows (s : runtime) (target : string) :
  (exists s', opSub s = Ok tt s')
  /\ (exists s', opMul s = Ok tt s')
  /\ (exists s', opMemStore target s = Ok tt s')
  /\ (forall e s', opAdd s <> Throw e s')
  /\ (forall e s', opDiv s = Throw e s' -> e = Error "Division by zero").
Proof.
  unfold opSub, opMul, opMemStore, opAdd, opDiv, pop. unfold_M.
  destruct s as [m st cs fs g q p r bc h rnd d].
  destruct st as [ | b [ | a rest]]; cbn;
    (repeat split; eauto; intros e s'; try discriminate;
     solve [ destruct (js_add _ _); discriminate
           | destruct (strict_eq_zero _); [intros [= <- _]; reflexivity | discriminate] ]).
Qed.

(** C2 (amended): popping the empty evaluation stack is not a fault.  In
    every state whose stack is empty, [pop] yields [undefined]; [add],
    [sub], [mul] and [div] return normally and leave NaN as the only stack
    element, and [store] returns normally and binds its target to
    [undefined].  Run as one-instruction programs on a fresh runtime, each
    of them makes [execute] return [{ success: true }].  With any number of
    values on the stack, [sub], [mul] and [store] return normally, [add]
    does not throw and [div] throws nothing but the division by zero. *)
Theorem C2_pop_on_empty_stack_is_undefined :
  forall (s : runtime) (target : string) (fuel : nat),
    let s0 := set_stack [] s in
    pop s0 = Ok VUndefined s0
    /\ opAdd s0 = Ok tt (set_stack [VNum nan] s0)
    /\ opSub s0 = Ok tt (set_stack [VNum nan] s0)
    /\ opMul s0 = Ok tt (set_stack [VNum nan] s0)
    /\ opDiv s0 = Ok tt (set_stack [VNum nan] s0)
    /\ opMemStore target s0
       = Ok tt (set_memory (<[target := VUndefined]> (memory s0)) s0)
    /\ (forall i, In i [ADD; SUB; MUL; DIV] ->
          exists s', execute (S fuel) [i] fresh = Ok (Success (VNum nan)) s'
                     /\ stack s' = [VNum nan])
    /\ (exists s', execute (S fuel) [MEM_STORE target] fresh = Ok (Success VNull) s'
                   /\ memory s' !! target = Some VUndefined)
    /\ (exists s', opSub s = Ok tt s')
    /\ (exists s', opMul s = Ok tt s')
    /\ (exists s', opMemStore target s = Ok tt s')
    /\ (forall e s', opAdd s <> Throw e s')
    /\ (forall e s', opDiv s = Throw e s' -> e = Error "Division by zero").
Proof.
  intros s target fuel s0.
  do 6 (split; [reflexivity | ]).
  split; [ | split; [ | apply arithmetic_never_underflows]].
  - intros i [<- | [<- | [<- | [<- | []]]]]; eexists;
      (split; [destruct fuel; reflexivity | reflexivity]).
  - eexists; split; [destruct fuel; reflexivity | ]. cbn. apply lookup_insert_eq.
Qed.

End StackFacts.

Section LoadFacts.

(** What [opMemLoad] does in general: the value in [memory] when it is
    truthy, else the value in [globals] unless that is [undefined], else the
    error. *)
Lemma opMemLoad_spec (source : string) (s : runtime) :
  opMemLoad source s =
    let m := map_get (memory s) source in
    let g := map_get (globals s) source in
    if truthy m then Ok tt (set_stack (m :: stack s) s)
    else if is_undefined g then Throw (Error ("Undefined variable: " +:+ source)) s
    else Ok tt (set_stack (g :: stack s) s).
Proof.
  unfold opMemLoad, or_else. unfold_M. cbn.
  destruct (truthy (map_get (memory s) source)) eqn:Ht.
  - destruct (map_get (memory s) source); try discriminate Ht; reflexivity.
  - destruct (is_undefined (map_get (globals s) source)); reflexivity.
Qed.

(** [opMemLoad] throws exactly when the value in [memory] is falsy (or
    absent) and [globals] gives [undefined]. *)
Lemma opMemLoad_faults_iff (source : string) (s : runtime) :
  (exists e s', opMemLoad source s = Throw e s')
  <-> truthy (map_get (memory s) source) = false
      /\ map_get (globals s) source = VUndefined.
Proof.
  rewrite opMemLoad_spec. cbv zeta.
  destruct (truthy (map_get (memory s) source)).
  - split; [intros (e & s' & H); discriminate H | intros [H _]; discriminate H].
  - destruct (map_get (globals s) source) eqn:Hg; cbn;
      (split; [intros (e & s' & H); try discriminate H; auto
              | intros [_ H]; try discriminate H; eauto]).
Qed.

(** C6 (the code at the failing input): the program that stores 0 under
    [x] and then loads [x] fails at the load, at pc 2, with "Undefined
    variable: x", although [x] is bound in memory at that moment. *)
Theorem C6_load_of_zero_faults :
  exists s',
    execute 4 [PUSH_CONST (VNum 0); MEM_STORE "x"; MEM_LOAD "x"] fresh
    = Ok (Failure (Error "Undefined variable: x") 2) s'
    /\ memory s' !! "x" = Some (VNum 0).
Proof. eexists. split; [vm_compute; reflexivity | reflexivity]. Qed.

(** The same load answers from [globals] when the name is also bound
    there, instead of pushing the 0 bound in memory. *)
Lemma load_of_zero_prefers_global :
  opMemLoad "x"
    (set_globals {["x" := VNative "f"]} (set_memory {["x" := VNum 0]} fresh))
  = Ok tt (set_stack [VNative "f"]
            (set_globals {["x" := VNative "f"]} (set_memory {["x" := VNum 0]} fresh))).
Proof. reflexivity. Qed.

End LoadFacts.

Section DivFacts.

(** C7 (counterexample): both operands are finite numbers and the divisor
    0.5 is not zero, yet [div] pushes Infinity: 2^1023 / 0.5 overflows. *)
Lemma C7_div_pushes_infinity :
  execute 4 [PUSH_CONST (VNum 0x1p1023); PUSH_CONST (VNum 0.5); DIV] fresh
  = Ok (Success (VNum infinity))
       (set_pc 3 (set_stack [VNum infinity] (set_running true fresh))).
Proof. reflexivity. Qed.

(** With a NaN dividend the quotient pushed is NaN. *)
Lemma div_pushes_nan :
  execute 4 [PUSH_CONST (VNum nan); PUSH_CONST (VNum 1); DIV] fresh
  = Ok (Success (VNum nan))
       (set_pc 3 (set_stack [VNum nan] (set_running true fresh))).
Proof. reflexivity. Qed.

(** C7 (amended): when the two popped operands are the numbers [a] (left)
    and [b] (right), [div] throws "Division by zero" exactly when
    [b === 0], which holds for +0 and for -0 and for no other number, and
    the run then returns [{ success: false, error, pc }] with the pc of
    the [div]; otherwise it pushes the binary64 quotient [a / b] without
    inspecting it, be it Infinity or NaN. *)
Theorem C7_div_faults_iff_divisor_is_zero :
  forall (a b : float) (rest : list value) (s : runtime),
    let s0 := set_stack (VNum b :: VNum a :: rest) s in
    opDiv s0 =
      (if PrimFloat.eqb b 0
       then Throw (Error "Division by zero") (set_stack rest s0)
       else Ok tt (set_stack (VNum (a / b) :: rest) s0))
    /\ ((exists e s', opDiv s0 = Throw e s') <-> PrimFloat.eqb b 0 = true)
    /\ (PrimFloat.eqb b 0 = true <-> exists sign, Prim2SF b = S754_zero sign)
    /\ execute 4 [PUSH_CONST (VNum a); PUSH_CONST (VNum b); DIV] fresh =
         (if PrimFloat.eqb b 0
          then Ok (Failure (Error "Division by zero") 2)
                  (set_pc 2 (set_running true fresh))
          else Ok (Success (VNum (a / b)))
                  (set_pc 3 (set_stack [VNum (a / b)] (set_running true fresh)))).
Proof.
  intros a b rest s s0.
  assert (Hdiv : forall rest s, opDiv (set_stack (VNum b :: VNum a :: rest) s) =
      (if PrimFloat.eqb b 0
       then Throw (Error "Division by zero")
              (set_stack rest (set_stack (VNum b :: VNum a :: rest) s))
       else Ok tt (set_stack (VNum (a / b) :: rest)
                     (set_stack (VNum b :: VNum a :: rest) s)))).
  { intros rest' s'. unfold opDiv. unfold_M. cbn.
    destruct (PrimFloat.eqb b 0); reflexivity. }
  split; [apply Hdiv | split; [ | split]].
  - subst s0. rewrite Hdiv. destruct (PrimFloat.eqb b 0).
    + split; [reflexivity | intros _; eauto].
    + split; [intros (e & s' & H); discriminate H | discriminate].
  - rewrite FloatAxioms.eqb_spec.
    change (Prim2SF 0) with (S754_zero false).
    destruct (Prim2SF b) as [[ | ] | [ | ] | | [ | ] m e]; cbn;
      (split; [first [discriminate | eauto]
              | first [reflexivity | intros [sg H]; discriminate H]]).
  - unfold execute.
    erewrite run_step; [ | reflexivity | reflexivity | reflexivity ].
    erewrite run_step; [ | reflexivity | reflexivity | reflexivity ].
    pose proof (Hdiv [] (set_pc 2 (set_running true fresh))) as Hd.
    destruct (PrimFloat.eqb b 0).
    + erewrite run_throw; [ | reflexivity | reflexivity | exact Hd ]. reflexivity.
    + erewrite run_step; [ | reflexivity | reflexivity | exact Hd ].
      rewrite run_done by reflexivity. reflexivity.
Qed.

End DivFacts.

Section CallFacts.

(** With [this.bytecode] undefined every function declaration throws,
    right after registering the function. *)
Lemma opFuncDecl_without_bytecode (name : string) (params : list param)
    (isAsync : bool) (s : runtime) :
  bytecode s = None ->
  opFuncDecl name params isAsync s
  = Throw (TypeError "this.bytecode is undefined")
      (set_functions (<[name := Func params (pc s + 1) isAsync]> (functions s)) s).
Proof.
  intros Hb. unfold opFuncDecl. unfold_M. cbn. unfold skip_fuel. cbn. rewrite Hb.
  cbn. rewrite Hb. reflexivity.
Qed.


(** C4 (the code at the failing input): run by [execute] on a fresh
    runtime, scenario E fails at its first instruction.  [opFuncDecl]
    registers [f] and then reads [this.bytecode.length], but [this.bytecode]
    is [undefined]: [execute] keeps the instruction list in its parameter
    and never assigns the property.  The run returns
    [{ success: false, error, pc: 0 }] and the stack stays empty. *)
Theorem C4_function_declaration_faults :
  forall fuel : nat,
    exists s',
      execute (S fuel) scenarioE fresh
      = Ok (Failure (TypeError "this.bytecode is undefined") 0) s'
      /\ bytecode s' = None
      /\ functions s' !! "f" = Some (Func [Param "a"; Param "b"] 1 false)
      /\ stack s' = [].
Proof.
  intros fuel.
  exists (set_functions {["f" := Func [Param "a"; Param "b"] 1 false]}
            (set_running true fresh)).
  split; [reflexivity | repeat split].
Qed.

(** Had the property been assigned before the run, scenario E would go as
    described: 8 on top of the stack after the [return], and the memory of
    the caller (here empty) back in place. *)
Lemma scenarioE_with_bytecode_assigned :
  exists s',
    execute 9 scenarioE (set_bytecode (Some scenarioE) fresh)
    = Ok (Success (VNum 8)) s'
    /\ stack s' = [VNum 8; VNum 8]
    /\ memory s' = memory fresh
    /\ callStack s' = [].
Proof. eexists. split; [vm_compute; reflexivity | repeat split]. Qed.

(** [opReturn] with a saved frame restores that frame's memory and pc. *)
Lemma opReturn_restores (s : runtime) (f : frame) (rest : list frame) :
  callStack s = f :: rest ->
  exists s', opReturn s = Ok tt s'
             /\ memory s' = frame_memory f
             /\ pc s' = frame_pc f
             /\ callStack s' = rest.
Proof.
  intros Hcs. unfold opReturn. unfold_M. rewrite Hcs. cbn.
  destruct (is_undefined (top s)); eexists; repeat split.
Qed.

End CallFacts.

Section CallBinding.

(** The argument loop pops the arguments back into call order. *)
Lemma pop_args_spec (args : list value) :
  forall (acc rest : list value) (s : runtime),
    stack s = rev args ++ rest ->
    pop_args (length args) acc s = Ok (args ++ acc) (set_stack rest s).
Proof.
  induction args as [ | x l IH] using rev_ind; intros acc rest s Hs.
  - cbn in *. unfold_M. destruct s; cbn in *; subst; reflexivity.
  - rewrite rev_app_distr in Hs. cbn in Hs.
    rewrite length_app, Nat.add_comm. cbn [length Nat.add pop_args].
    unfold_M. unfold pop at 1. rewrite Hs.
    rewrite (IH (x :: acc) rest (set_stack (rev l ++ rest) s) eq_refl).
    rewrite <- app_assoc. reflexivity.
Qed.

(** Binding the parameters leaves every other name as it was ... *)
Lemma bind_params_other (ps : list param) :
  forall (i : nat) (args : list value) (m : gmap string value) (x : string),
    x ∉ map param_name ps ->
    bind_params ps i args m !! x = m !! x.
Proof.
  induction ps as [ | p ps IH]; intros i args m x Hx; [reflexivity | ].
  cbn in *. apply not_elem_of_cons in Hx as [Hne Hx].
  rewrite IH by exact Hx. apply lookup_insert_ne. congruence.
Qed.

(** ... and binds distinct parameter names by position. *)
Lemma bind_params_nth (ps : list param) :
  forall (i j : nat) (args : list value) (m : gmap string value) (p : param) (v : value),
    NoDup (map param_name ps) ->
    ps !! j = Some p ->
    args !! (i + j)%nat = Some v ->
    bind_params ps i args m !! param_name p = Some v.
Proof.
  induction ps as [ | q ps IH]; intros i j args m p v Hnd Hp Hv; [discriminate | ].
  cbn in Hnd. apply NoDup_cons in Hnd as [Hq Hnd].
  destruct j as [ | j]; cbn in *.
  - injection Hp as ->. rewrite bind_params_other by exact Hq.
    rewrite Nat.add_0_r in Hv. rewrite Hv. apply lookup_insert_eq.
  - apply (IH (S i) j); [exact Hnd | exact Hp | ].
    rewrite <- Hv. f_equal. lia.
Qed.

(** C3 (counterexample): after the call the memory still holds the
    caller's binding of [x] next to the parameter [a]; it is not the map
    that holds [a] alone. *)
Lemma C3_call_keeps_caller_bindings :
  exists s',
    opCall "f" 1 caller = Ok tt s'
    /\ memory s' !! "x" = Some (VNum 1)
    /\ memory s' !! "a" = Some (VNum 7)
    /\ memory s' <> {["a" := VNum 7]}.
Proof.
  eexists. split; [vm_compute; reflexivity | ].
  split; [reflexivity | split; [reflexivity | ]].
  intros H. apply (f_equal (fun m : gmap string value => m !! "x")) in H.
  vm_compute in H. discriminate H.
Qed.

(** C3 (amended): a [call] of a defined function with N parameters, with
    the N arguments on top of the stack, pushes a frame that holds the pc
    and the whole memory of the caller, pops the N arguments, and binds the
    parameter names to them in the memory of the caller itself: every name
    that is not a parameter keeps the caller's binding, and distinct
    parameter names are bound by position.  The pc becomes the entry
    address minus one. *)
Theorem C3_call_binds_parameters_over_caller_memory :
  forall (s : runtime) (function : string) (func : func) (args rest : list value),
    functions s !! function = Some func ->
    length args = length (func_params func) ->
    stack s = rev args ++ rest ->
    exists s',
      opCall function (length args) s = Ok tt s'
      /\ callStack s' = Frame (pc s) (memory s) :: callStack s
      /\ stack s' = rest
      /\ pc s' = func_address func - 1
      /\ memory s' = bind_params (func_params func) 0 args (memory s)
      /\ (forall x, x ∉ map param_name (func_params func) ->
            memory s' !! x = memory s !! x)
      /\ (NoDup (map param_name (func_params func)) ->
          forall i p v, func_params func !! i = Some p -> args !! i = Some v ->
            memory s' !! param_name p = Some v).
Proof.
  intros s function func args rest Hf Hlen Hs.
  eexists. split.
  - unfold opCall. unfold_M. cbn. rewrite Hf.
    rewrite (pop_args_spec args [] rest) by exact Hs. cbn. reflexivity.
  - cbn. rewrite app_nil_r. repeat split.
    + intros x Hx. apply bind_params_other, Hx.
    + intros Hnd i p v Hp Hv. apply (bind_params_nth _ 0 i); assumption.
Qed.

Lemma C3_call_binds_parameters_over_caller_memory_witness :
  exists s',
    opCall "f" 1 caller = Ok tt s'
    /\ callStack s' = [Frame 7 {["x" := VNum 1]}]
    /\ stack s' = []
    /\ pc s' = 4
    /\ memory s' = bind_params [Param "a"] 0 [VNum 7] {["x" := VNum 1]}
    /\ (forall x, x ∉ ["a"] -> memory s' !! x = ({["x" := VNum 1]} : gmap string value) !! x)
    /\ (NoDup ["a"] ->
        forall i p v, [Param "a"] !! i = Some p -> [VNum 7] !! i = Some v ->
          memory s' !! param_name p = Some v).
Proof.
  apply (C3_call_binds_parameters_over_caller_memory
           caller "f" (Func [Param "a"] 5 false) [VNum 7] []);
    reflexivity.
Defined.

End CallBinding.

Section LoopFacts.

(** With [this.bytecode] undefined every loop over an array throws: in its
    first iteration, or in the final scan when the array is empty. *)
Lemma opLoop_without_bytecode (exec : instruction -> M unit) (iterable : expr)
    (variable : string) (items : list value) (s s1 : runtime) :
  evalExpression iterable s = Ok (EArray items) s1 ->
  bytecode s1 = None ->
  exists s', opLoop exec iterable variable s
             = Throw (TypeError "this.bytecode is undefined") s'.
Proof.
  intros He Hb. unfold opLoop. unfold_M. rewrite He.
  destruct items as [ | item rest].
  - cbn. unfold skip_fuel. rewrite Hb. cbn. rewrite Hb. eauto.
  - cbn. unfold_M. cbn. unfold skip_fuel. cbn. rewrite Hb. cbn. rewrite Hb. eauto.
Qed.


(** C5 (the code at the failing input): run by [execute] on a fresh
    runtime, the loop of scenario C fails in its first iteration.  [opLoop]
    binds [i] to 0 and then reads [this.bytecode.length] with
    [this.bytecode] undefined (the defect of C4); the run returns
    [{ success: false, error, pc: 0 }], the slot is never written and [i]
    holds 0, not 2.  The loop with an empty body fails the same way. *)
Theorem C5_loop_faults :
  forall fuel : nat,
    (exists s',
       execute (S fuel) scenarioC fresh
       = Ok (Failure (TypeError "this.bytecode is undefined") 0) s'
       /\ memory s' !! "i" = Some (VNum 0)
       /\ memory s' !! "slot" = None)
    /\ (exists s',
          execute (S fuel) scenarioC_bare fresh
          = Ok (Failure (TypeError "this.bytecode is undefined") 0) s'
          /\ memory s' !! "i" = Some (VNum 0)).
Proof.
  intros fuel.
  split; exists (set_memory {["i" := VNum 0]} (set_running true fresh));
    (split; [reflexivity | repeat split]).
Qed.

(** Had [this.bytecode] been assigned, the loop with the empty body would
    leave 2 in [i] and succeed ... *)
Lemma scenarioC_bare_with_bytecode_assigned :
  exists s',
    execute 5 scenarioC_bare (set_bytecode (Some scenarioC_bare) fresh)
    = Ok (Success VNull) s'
    /\ memory s' !! "i" = Some (VNum 2).
Proof. eexists. split; [vm_compute; reflexivity | repeat split]. Qed.

(** ... while the body of scenario C would still fail in the first
    iteration, at its [load] of [i]: the loop variable holds 0, which
    [opMemLoad] takes for an unbound name (the defect of C6). *)
Lemma scenarioC_with_bytecode_assigned :
  exists s',
    execute 5 scenarioC (set_bytecode (Some scenarioC) fresh)
    = Ok (Failure (Error "Undefined variable: i") 0) s'
    /\ memory s' !! "i" = Some (VNum 0)
    /\ memory s' !! "slot" = None.
Proof. eexists. split; [vm_compute; reflexivity | repeat split]. Qed.

End LoopFacts.

Section QuantumInitFacts.

Lemma array_exponent_one (s : runtime) : array_exponent (VNum 1) s = Ok 1%nat s.
Proof. reflexivity. Qed.

(** C10: when the [args] array of [init] is empty, or its first element is
    [undefined] or [null], or that element's [value] is falsy (0, -0, NaN,
    [false], [null], [undefined]), the state object created has [numQubits]
    1 and the two amplitudes [{real:1, imag:0}], [{real:0, imag:0}]; it
    becomes [this.quantumState] and a reference to the same object is
    pushed on the stack. *)
Theorem C10_init_defaults_to_one_qubit :
  forall (args : list (option value)) (s : runtime),
    truthy (first_arg_value args) = false ->
    let ref := length (qheap s) in
    let state := QState (VNum 1) [Complex 1%float 0%float; Complex 0%float 0%float] [] in
    opQuantumInit (Some args) s
    = Ok tt (set_stack (VState ref :: stack s)
               (set_quantum (Some ref) (qheap s ++ [state]) s)).
Proof.
  intros args s Hfalsy ref state. unfold opQuantumInit, or_else.
  rewrite Hfalsy. unfold_M. rewrite array_exponent_one. reflexivity.
Qed.

Lemma C10_init_defaults_to_one_qubit_witness :
  truthy (first_arg_value []) = false
  /\ truthy (first_arg_value [Some (VNum 0)]) = false
  /\ opQuantumInit (Some []) fresh
     = Ok tt (set_stack [VState 0]
                (set_quantum (Some 0%nat)
                   [QState (VNum 1) [Complex 1%float 0%float; Complex 0%float 0%float] []]
                   fresh))
  /\ opQuantumInit (Some [Some (VNum 0)]) fresh
     = Ok tt (set_stack [VState 0]
                (set_quantum (Some 0%nat)
                   [QState (VNum 1) [Complex 1%float 0%float; Complex 0%float 0%float] []]
                   fresh)).
Proof.
  split; [reflexivity | split; [reflexivity | split]].
  - apply (C10_init_defaults_to_one_qubit [] fresh). reflexivity.
  - apply (C10_init_defaults_to_one_qubit [Some (VNum 0)] fresh). reflexivity.
Defined.

(** The falsy first arguments: a missing one, [undefined], [null], and the
    values 0, -0, NaN, [false], [null] and [undefined]. *)
Lemma falsy_first_arguments :
  Forall (fun args => truthy (first_arg_value args) = false)
    [ []; [None]; [Some (VNum 0)]; [Some (VNum (-0))]; [Some (VNum nan)];
      [Some (VBool false)]; [Some VNull]; [Some VUndefined] ].
Proof. repeat constructor. Qed.

(** An instruction without [args] property makes [init] throw. *)
Lemma init_without_args_property (s : runtime) :
  opQuantumInit None s = Throw (TypeError "instruction.args is undefined") s.
Proof. reflexivity. Qed.

End QuantumInitFacts.

Section MeasureFacts.

(** A number that is at least 0 is not below 0 (NaN is neither). *)
Lemma not_below_zero (r : float) :
  PrimFloat.leb 0 r = true -> PrimFloat.ltb r 0 = false.
Proof.
  rewrite leb_spec, ltb_spec.
  change (Prim2SF 0) with (S754_zero false).
  destruct (Prim2SF r) as [sg | sg | | sg m e]; try destruct sg; cbn; congruence.
Qed.

Lemma probabilities_one_hot (size k : nat) :
  probabilities (one_hot (F:=float) size k)
  = map (fun i => if Nat.eqb i k then 1%float else 0%float) (seq 0 size).
Proof.
  unfold probabilities, one_hot. rewrite map_map. apply map_ext.
  intros i. destruct (Nat.eqb i k); reflexivity.
Qed.

Lemma sample_one_hot (r : float) (k n : nat) :
  PrimFloat.ltb r 0 = false -> PrimFloat.ltb r 1 = true ->
  forall i : nat, (i <= k < i + n)%nat ->
    sample r (map (fun i => if Nat.eqb i k then 1%float else 0%float) (seq i n)) i zero = k.
Proof.
  intros H0 H1. induction n as [ | n IH]; intros i Hk; [lia | ].
  cbn [seq map sample]. destruct (Nat.eqb_spec i k) as [-> | Hne].
  - change (add zero 1%float) with 1%float. cbn [ltb float_scalar]. rewrite H1. reflexivity.
  - change (add zero 0%float) with (zero : float). cbn [ltb float_scalar].
    change (zero : float) with 0%float at 1. rewrite H0.
    apply IH. lia.
Qed.

Lemma collapse_one_hot (size k : nat) :
  collapse (one_hot (F:=float) size k) k = one_hot size k.
Proof.
  unfold collapse. rewrite imap_seq_0. unfold one_hot.
  rewrite length_map, length_seq. reflexivity.
Qed.


(** C9: when the amplitude array of the current quantum state is one-hot
    at index [k], [measure] pushes [k] whatever number in [0, 1)
    [Math.random] returns, and the array it stores is again one-hot at
    [k]. *)
Theorem C9_measure_of_one_hot_state :
  forall (s : runtime) (ref : nat) (q : qstate) (size k : nat),
    quantumState s = Some ref ->
    qheap s !! ref = Some q ->
    amplitudes q = one_hot size k ->
    (k < size)%nat ->
    PrimFloat.leb 0 (random s (draws s)) = true ->
    PrimFloat.ltb (random s (draws s)) 1 = true ->
    exists s',
      opQuantumMeasure s = Ok tt s'
      /\ stack s' = VNum (of_nat k) :: stack s
      /\ quantumState s' = Some ref
      /\ qheap s' !! ref = Some (QState (numQubits q) (one_hot size k) (entangled q)).
Proof.
  intros s ref q size k Hq Href Hamp Hk Hge Hlt.
  apply not_below_zero in Hge.
  eexists. split.
  - unfold opQuantumMeasure, current_qstate, Math_random, set_amplitudes.
    unfold_M. cbv beta. rewrite Hq. cbv beta iota. rewrite Hq. cbv beta iota.
    rewrite Href. cbv beta iota.
    unfold measure. rewrite Hamp, probabilities_one_hot.
    rewrite (sample_one_hot _ k size Hge Hlt 0) by lia.
    rewrite collapse_one_hot. cbv beta iota zeta. reflexivity.
  - cbn. split; [reflexivity | ]. split; [exact Hq | ].
    apply list_lookup_insert_eq. apply lookup_lt_Some in Href. exact Href.
Qed.

Lemma C9_measure_of_one_hot_state_witness :
  exists s',
    opQuantumMeasure collapsed_at_2 = Ok tt s'
    /\ stack s' = [VNum 2]
    /\ quantumState s' = Some 0%nat
    /\ qheap s' !! 0%nat = Some (QState (VNum 2) (one_hot 4 2) []).
Proof.
  apply (C9_measure_of_one_hot_state collapsed_at_2 0 (QState (VNum 2) (one_hot 4 2) []) 4 2);
    first [reflexivity | lia].
Defined.

End MeasureFacts.

Section HadamardFacts.
Context {F : Type} `{Scalar F}.

Lemma land_even (p : nat) : Z.land (Z.of_nat (2 * p)) (shl1 0) = 0.
Proof.
  change (shl1 0) with (Z.ones 1). rewrite Z.land_ones by lia.
  rewrite Nat2Z.inj_mul. change (2 ^ 1) with 2. rewrite Z.mul_comm. apply Z_mod_mult.
Qed.

Lemma lor_even (p : nat) : Z.lor (Z.of_nat (2 * p)) (shl1 0) = Z.of_nat (S (2 * p)).
Proof.
  pose proof (land_even p) as Hl.
  rewrite <- Z.lxor_lor by exact Hl. rewrite <- Z.add_nocarry_lxor by exact Hl.
  change (shl1 0) with 1. lia.
Qed.

Lemma land_odd (p : nat) : Z.land (Z.of_nat (S (2 * p))) (shl1 0) = 1.
Proof.
  change (shl1 0) with (Z.ones 1). rewrite Z.land_ones by lia.
  change (2 ^ 1) with 2. 
  replace (Z.of_nat (S (2 * p))) with (1 + Z.of_nat p * 2) by lia.
  rewrite Z_mod_plus_full. reflexivity.
Qed.

Lemma hadamard_step_even (amplitudes acc : list (complex F)) (p : nat) (x y : complex F) :
  amplitudes !! (2 * p)%nat = Some x ->
  amplitudes !! S (2 * p) = Some y ->
  hadamard_step amplitudes 0 (Some acc) (2 * p)
  = Some (<[S (2 * p) := hi x y]> (<[(2 * p)%nat := lo x y]> acc)).
Proof.
  intros Hx Hy. unfold hadamard_step. rewrite land_even, lor_even. cbn [Z.eqb].
  rewrite Hx. unfold at_index.
  replace (Z.of_nat (S (2 * p)) <? 0) with false by (symmetry; apply Z.ltb_ge; lia).
  rewrite Nat2Z.id, Hy. reflexivity.
Qed.

Lemma hadamard_step_odd (amplitudes acc : list (complex F)) (p : nat) :
  hadamard_step amplitudes 0 (Some acc) (S (2 * p)) = Some acc.
Proof. unfold hadamard_step. rewrite land_odd. reflexivity. Qed.

Lemma insert_pair {A : Type} (pre : list A) (q : nat) (a b x y : A) (l : list A) :
  length pre = q ->
  <[S q := b]> (<[q := a]> (pre ++ x :: y :: l)) = (pre ++ [a; b]) ++ l.
Proof.
  intros <-. rewrite insert_app_r_alt by lia. rewrite Nat.sub_diag. cbn.
  rewrite insert_app_r_alt by lia.
  replace (S (length pre) - length pre)%nat with 1%nat by lia. cbn.
  rewrite <- app_assoc. reflexivity.
Qed.

Lemma hadamard_pairs (n : nat) :
  forall (l pre pre' : list (complex F)) (p : nat),
    length l = (2 * n)%nat ->
    length pre = (2 * p)%nat ->
    length pre' = (2 * p)%nat ->
    foldl (hadamard_step (pre ++ l) 0) (Some (pre' ++ l)) (seq (2 * p) (2 * n))
    = Some (pre' ++ butterflies l).
Proof.
  induction n as [ | n IH]; intros l pre pre' p Hl Hpre Hpre'.
  - destruct l; [reflexivity | discriminate].
  - destruct l as [ | x [ | y l]]; cbn in Hl; try lia.
    replace (2 * S n)%nat with (S (S (2 * n))) by lia.
    cbn [seq foldl butterflies].
    rewrite (hadamard_step_even _ _ p x y).
    2:{ apply list_lookup_middle. symmetry. exact Hpre. }
    2:{ replace (pre ++ x :: y :: l) with ((pre ++ [x]) ++ y :: l)
          by (rewrite <- app_assoc; reflexivity).
        apply list_lookup_middle. rewrite length_app, Hpre. cbn. lia. }
    rewrite hadamard_step_odd.
    rewrite (insert_pair pre' (2 * p)) by exact Hpre'.
    replace (pre ++ x :: y :: l) with ((pre ++ [x; y]) ++ l)
      by (rewrite <- app_assoc; reflexivity).
    replace (S (S (2 * p))) with (2 * S p)%nat by lia.
    rewrite (IH l (pre ++ [x; y]) (pre' ++ [lo x y; hi x y]) (S p)).
    + rewrite <- app_assoc. reflexivity.
    + lia.
    + rewrite length_app, Hpre. cbn. lia.
    + rewrite length_app, Hpre'. cbn. lia.
Qed.

Lemma applyHadamard_0_even (l : list (complex F)) (n : nat) :
  length l = (2 * n)%nat ->
  Quantum.applyHadamard 0 l = Some (butterflies l).
Proof.
  intros Hl. unfold Quantum.applyHadamard. rewrite Hl.
  apply (hadamard_pairs n l [] [] 0 Hl); reflexivity.
Qed.


Lemma length_butterflies (l : list (complex F)) : length (butterflies l) = length l.
Proof.
  enough (Hboth : length (butterflies l) = length l
                  /\ forall x, length (butterflies (x :: l)) = length (x :: l))
    by apply Hboth.
  induction l as [ | y l [IH1 IH2]]; [split; reflexivity | ].
  split; [apply IH2 | ]. intros x. cbn. rewrite IH1. reflexivity.
Qed.

Lemma applyHadamard_0_twice (l : list (complex F)) (n : nat) :
  length l = (2 * n)%nat ->
  Quantum.applyHadamard 0 l ≫= Quantum.applyHadamard 0
  = Some (butterflies (butterflies l)).
Proof.
  intros Hl. rewrite (applyHadamard_0_even l n Hl). cbn.
  apply (applyHadamard_0_even _ n). rewrite length_butterflies. exact Hl.
Qed.

Lemma butterflies_zeros (m : nat) :
  lo c0 c0 = c0 -> hi c0 c0 = c0 ->
  butterflies (replicate (2 * m) c0) = replicate (2 * m) c0.
Proof.
  intros Hlo Hhi. induction m as [ | m IH]; [reflexivity | ].
  replace (2 * S m)%nat with (S (S (2 * m))) by lia.
  cbn [replicate butterflies]. rewrite Hlo, Hhi, IH. reflexivity.
Qed.

Lemma initQuantumAmplitudes_shape (n : nat) :
  (0 < n)%nat ->
  exists m : nat,
    (2 ^ n = 2 * S m)%nat
    /\ initQuantumAmplitudes n = c1 :: c0 :: replicate (2 * m) c0.
Proof.
  intros Hn. destruct n as [ | n]; [lia | ].
  assert (Hpos : (0 < 2 ^ n)%nat) by (apply Nat.neq_0_lt_0, Nat.pow_nonzero; lia).
  exists (2 ^ n - 1)%nat. split; [cbn; lia | ].
  unfold initQuantumAmplitudes.
  replace (2 ^ S n)%nat with (S (S (2 * (2 ^ n - 1)))) by (cbn; lia).
  reflexivity.
Qed.

Lemma initQuantumAmplitudes_one_hot (n : nat) :
  initQuantumAmplitudes n = one_hot (2 ^ n) 0.
Proof.
  unfold initQuantumAmplitudes, one_hot.
  assert (Hpos : (0 < 2 ^ n)%nat) by (apply Nat.neq_0_lt_0, Nat.pow_nonzero; lia).
  destruct (2 ^ n)%nat as [ | size]; [lia | ].
  cbn [replicate set_first seq map Nat.eqb]. f_equal.
  rewrite <- fmap_S_seq. rewrite <- list_fmap_compose.
  clear. induction size as [ | size IH]; [reflexivity | ].
  cbn [replicate]. rewrite IH at 1. 
  change (seq 0 (S size)) with (0%nat :: seq 1 size).
  rewrite <- fmap_S_seq. rewrite fmap_cons. cbn. f_equal.
  rewrite <- list_fmap_compose. reflexivity.
Qed.

End HadamardFacts.

Section HadamardReal.

Lemma sqrt2_square : (R_sqrt.sqrt 2 * R_sqrt.sqrt 2 = 2)%R.
Proof. apply sqrt_sqrt. lra. Qed.

Lemma sqrt2_nonzero : R_sqrt.sqrt 2 <> 0%R.
Proof. intros H0. pose proof sqrt2_square as Hs. rewrite H0 in Hs. lra. Qed.

Lemma lo_lo_hi (x y : complex R) : lo (lo x y) (hi x y) = x.
Proof.
  destruct x as [xr xi], y as [yr yi]. unfold lo, hi. cbn.
  pose proof sqrt2_square as Hs. pose proof sqrt2_nonzero as Hn.
  f_equal.
  - replace ((xr + yr) / R_sqrt.sqrt 2 + (xr - yr) / R_sqrt.sqrt 2)%R
      with (2 * xr / R_sqrt.sqrt 2)%R by (field; exact Hn).
    replace (2 * xr / R_sqrt.sqrt 2 / R_sqrt.sqrt 2)%R
      with (2 * xr / (R_sqrt.sqrt 2 * R_sqrt.sqrt 2))%R by (field; exact Hn).
    rewrite Hs. field.
  - replace ((xi + yi) / R_sqrt.sqrt 2 + (xi - yi) / R_sqrt.sqrt 2)%R
      with (2 * xi / R_sqrt.sqrt 2)%R by (field; exact Hn).
    replace (2 * xi / R_sqrt.sqrt 2 / R_sqrt.sqrt 2)%R
      with (2 * xi / (R_sqrt.sqrt 2 * R_sqrt.sqrt 2))%R by (field; exact Hn).
    rewrite Hs. field.
Qed.

Lemma hi_lo_hi (x y : complex R) : hi (lo x y) (hi x y) = y.
Proof.
  destruct x as [xr xi], y as [yr yi]. unfold lo, hi. cbn.
  pose proof sqrt2_square as Hs. pose proof sqrt2_nonzero as Hn.
  f_equal.
  - replace ((xr + yr) / R_sqrt.sqrt 2 - (xr - yr) / R_sqrt.sqrt 2)%R
      with (2 * yr / R_sqrt.sqrt 2)%R by (field; exact Hn).
    replace (2 * yr / R_sqrt.sqrt 2 / R_sqrt.sqrt 2)%R
      with (2 * yr / (R_sqrt.sqrt 2 * R_sqrt.sqrt 2))%R by (field; exact Hn).
    rewrite Hs. field.
  - replace ((xi + yi) / R_sqrt.sqrt 2 - (xi - yi) / R_sqrt.sqrt 2)%R
      with (2 * yi / R_sqrt.sqrt 2)%R by (field; exact Hn).
    replace (2 * yi / R_sqrt.sqrt 2 / R_sqrt.sqrt 2)%R
      with (2 * yi / (R_sqrt.sqrt 2 * R_sqrt.sqrt 2))%R by (field; exact Hn).
    rewrite Hs. field.
Qed.

Lemma butterflies_involutive (l : list (complex R)) :
  butterflies (butterflies l) = l.
Proof.
  enough (Hboth : butterflies (butterflies l) = l
                  /\ forall x, butterflies (butterflies (x :: l)) = x :: l)
    by apply Hboth.
  induction l as [ | y l [IH1 IH2]]; [split; reflexivity | ].
  split; [apply IH2 | ]. intros x. cbn [butterflies].
  rewrite lo_lo_hi, hi_lo_hi, IH1. reflexivity.
Qed.

End HadamardReal.

(** Over the reals two Hadamard gates on qubit 0 restore every amplitude
    array of even length. *)
Lemma hadamard_twice_real (l : list (complex R)) (n : nat) :
  length l = (2 * n)%nat ->
  Quantum.applyHadamard 0 l ≫= Quantum.applyHadamard 0 = Some l.
Proof.
  intros Hl. rewrite (applyHadamard_0_twice l n Hl), butterflies_involutive.
  reflexivity.
Qed.

(** An array of one amplitude has no partner for index 0: the gate throws.
    [opQuantumInit] never builds such a state from a number, since it
    replaces 0 qubits by 1. *)
Lemma hadamard_on_zero_qubits :
  Quantum.applyHadamard 0 (initQuantumAmplitudes (F:=float) 0) = None.
Proof. reflexivity. Qed.

(** Through the interpreter: after [init] with two qubits and two
    Hadamard gates on qubit 0, the state object holds the initial amplitudes
    up to the rounding of the first one. *)
Lemma hadamard_twice_in_the_interpreter :
  exists s',
    execute 4 [ QUANTUM_INIT (Some [Some (VNum 2)]);
                QUANTUM_GATE "HADAMARD" 0; QUANTUM_GATE "HADAMARD" 0 ] fresh
    = Ok (Success (VState 0)) s'
    /\ qheap s'
       = [ QState (VNum 2)
             (<[0%nat := Complex hh_one 0%float]> (initQuantumAmplitudes 2)) [] ].
Proof. eexists. split; [vm_compute; reflexivity | reflexivity]. Qed.

(** A gate before any [init] is an error ... *)
Lemma gate_before_init_faults :
  execute 2 [ QUANTUM_GATE "HADAMARD" 0 ] fresh
  = Ok (Failure (Error "Quantum state not initialized") 0) (set_running true fresh).
Proof. vm_compute. reflexivity. Qed.

(** ... and so is a gate name outside the three known ones. *)
Lemma unknown_gate_faults :
  execute 3 [ QUANTUM_INIT (Some []); QUANTUM_GATE "TOFFOLI" 0 ] fresh
  = Ok (Failure (Error "Unknown quantum gate: TOFFOLI") 1)
       (set_pc 1 (set_stack [VState 0]
          (set_quantum (Some 0%nat) [QState (VNum 1) (initQuantumAmplitudes 1) []]
             (set_running true fresh)))).
Proof. vm_compute. reflexivity. Qed.

(** C8: for every positive number of qubits the freshly initialized
    amplitude array is one-hot at index 0, and applying the Hadamard gate to
    qubit 0 twice gives it back: exactly over the reals, and in binary64
    arithmetic up to the first amplitude, whose real part comes out as
    [hh_one], within 2^-52 of 1. *)
Theorem C8_hadamard_twice_restores_initial_state :
  forall n : nat,
    (0 < n)%nat ->
    let reals := initQuantumAmplitudes (F:=R) n in
    let floats := initQuantumAmplitudes (F:=float) n in
    reals = one_hot (2 ^ n) 0
    /\ Quantum.applyHadamard 0 reals ≫= Quantum.applyHadamard 0 = Some reals
    /\ Quantum.applyHadamard 0 floats ≫= Quantum.applyHadamard 0
       = Some (<[0%nat := Complex hh_one 0%float]> floats)
    /\ PrimFloat.leb (PrimFloat.abs (hh_one - 1)) 0x1p-52 = true.
Proof.
  intros n Hn reals floats.
  split; [apply initQuantumAmplitudes_one_hot | ].
  destruct (initQuantumAmplitudes_shape (F:=R) n Hn) as (m & Hsize & Hshape).
  destruct (initQuantumAmplitudes_shape (F:=float) n Hn) as (m' & Hsize' & Hshape').
  split; [ | split; [ | reflexivity]].
  - apply (hadamard_twice_real reals (S m)).
    subst reals. rewrite Hshape. cbn. rewrite length_replicate. lia.
  - rewrite (applyHadamard_0_twice floats (S m')).
    + subst floats. rewrite Hshape'. cbn [butterflies].
      rewrite butterflies_zeros by reflexivity.
      cbn [butterflies]. rewrite butterflies_zeros by reflexivity. reflexivity.
    + subst floats. rewrite Hshape'. cbn. rewrite length_replicate. lia.
Qed.

Lemma C8_hadamard_twice_restores_initial_state_witness :
    let reals := initQuantumAmplitudes (F:=R) 1 in
    let floats := initQuantumAmplitudes (F:=float) 1 in
    reals = one_hot (2 ^ 1) 0
    /\ Quantum.applyHadamard 0 reals ≫= Quantum.applyHadamard 0 = Some reals
    /\ Quantum.applyHadamard 0 floats ≫= Quantum.applyHadamard 0
       = Some (<[0%nat := Complex hh_one 0%float]> floats)
    /\ PrimFloat.leb (PrimFloat.abs (hh_one - 1)) 0x1p-52 = true.
Proof. apply (C8_hadamard_twice_restores_initial_state 1). lia. Defined.

(** ** Further properties of the gates *)

Section BitFacts.

Lemma shl1_small (t : nat) : (t < 31)%nat -> shl1 (Z.of_nat t) = 2 ^ Z.of_nat t.
Proof.
  intros Ht. unfold shl1. rewrite Z.mod_small by lia.
  destruct (Z.eqb_spec (Z.of_nat t) 31); [lia | reflexivity].
Qed.

Lemma land_pow2 (i t : Z) :
  0 <= t -> Z.land i (2 ^ t) = if Z.testbit i t then 2 ^ t else 0.
Proof.
  intros Ht. apply Z.bits_inj'. intros k Hk.
  rewrite Z.land_spec, Z.pow2_bits_eqb by lia.
  destruct (Z.eqb_spec t k) as [-> | Hne].
  - destruct (Z.testbit i k).
    + rewrite Z.pow2_bits_true by lia. reflexivity.
    + rewrite Z.bits_0. reflexivity.
  - rewrite andb_false_r. destruct (Z.testbit i t).
    + rewrite Z.pow2_bits_false by lia. reflexivity.
    + rewrite Z.bits_0. reflexivity.
Qed.

Lemma land_pow2_eqb (i t : Z) :
  0 <= t -> (Z.land i (2 ^ t) =? 0) = negb (Z.testbit i t).
Proof.
  intros Ht. rewrite land_pow2 by exact Ht.
  destruct (Z.testbit i t); [ | reflexivity].
  apply Z.eqb_neq. pose proof (Z.pow_pos_nonneg 2 t). lia.
Qed.

Lemma lxor_pow2_twice (i t : Z) : Z.lxor (Z.lxor i (2 ^ t)) (2 ^ t) = i.
Proof. rewrite Z.lxor_assoc, Z.lxor_nilpotent, Z.lxor_0_r. reflexivity. Qed.

Lemma lxor_pow2_other_bit (i t c : Z) :
  0 <= t -> t <> c -> Z.testbit (Z.lxor i (2 ^ t)) c = Z.testbit i c.
Proof.
  intros Ht Hne. rewrite Z.lxor_spec, Z.pow2_bits_false by lia.
  apply xorb_false_r.
Qed.

Lemma lxor_pow2_same_bit (i t : Z) :
  0 <= t -> Z.testbit (Z.lxor i (2 ^ t)) t = negb (Z.testbit i t).
Proof.
  intros Ht. rewrite Z.lxor_spec, Z.pow2_bits_true by lia.
  apply xorb_true_r.
Qed.

Lemma lxor_pow2_neq (i t : Z) : 0 <= t -> Z.lxor i (2 ^ t) <> i.
Proof.
  intros Ht Heq. pose proof (lxor_pow2_same_bit i t Ht) as Hb.
  rewrite Heq in Hb. destruct (Z.testbit i t); discriminate.
Qed.

(** With the bit clear, [|] adds the power of two; with the bit set, [^]
    subtracts it. *)
Lemma lor_pow2_clear (i t : Z) :
  0 <= t -> Z.testbit i t = false -> Z.lor i (2 ^ t) = i + 2 ^ t.
Proof.
  intros Ht Hb.
  assert (Hl : Z.land i (2 ^ t) = 0) by (rewrite land_pow2, Hb by exact Ht; reflexivity).
  rewrite <- Z.lxor_lor by exact Hl. rewrite <- Z.add_nocarry_lxor by exact Hl.
  reflexivity.
Qed.

Lemma lxor_pow2_clear (i t : Z) :
  0 <= t -> Z.testbit i t = false -> Z.lxor i (2 ^ t) = i + 2 ^ t.
Proof.
  intros Ht Hb.
  assert (Hl : Z.land i (2 ^ t) = 0) by (rewrite land_pow2, Hb by exact Ht; reflexivity).
  rewrite <- Z.add_nocarry_lxor by exact Hl. reflexivity.
Qed.

Lemma lxor_pow2_set (i t : Z) :
  0 <= t -> Z.testbit i t = true -> Z.lxor i (2 ^ t) = i - 2 ^ t.
Proof.
  intros Ht Hb.
  pose proof (lxor_pow2_clear (Z.lxor i (2 ^ t)) t Ht) as Hc.
  rewrite lxor_pow2_same_bit, Hb, lxor_pow2_twice in Hc by exact Ht.
  specialize (Hc eq_refl). lia.
Qed.

Lemma testbit_add_pow2 (i t : Z) :
  0 <= t -> Z.testbit i t = false -> Z.testbit (i + 2 ^ t) t = true.
Proof.
  intros Ht Hb. rewrite <- lxor_pow2_clear by assumption.
  rewrite lxor_pow2_same_bit, Hb by exact Ht. reflexivity.
Qed.

Lemma testbit_sub_pow2 (i t : Z) :
  0 <= t -> Z.testbit i t = true -> Z.testbit (i - 2 ^ t) t = false.
Proof.
  intros Ht Hb. rewrite <- lxor_pow2_set by assumption.
  rewrite lxor_pow2_same_bit, Hb by exact Ht. reflexivity.
Qed.

Lemma testbit_set_ge (i t : Z) :
  0 <= i -> 0 <= t -> Z.testbit i t = true -> 2 ^ t <= i.
Proof.
  intros Hi Ht Hb. pose proof (lxor_pow2_set i t Ht Hb) as Hx.
  assert (0 <= Z.lxor i (2 ^ t)).
  { apply Z.lxor_nonneg. pose proof (Z.pow_pos_nonneg 2 t). lia. }
  lia.
Qed.

(** A number below 2^n keeps below it when one of its lower bits is
    flipped. *)
Lemma lxor_pow2_below (i t n : Z) :
  0 <= i < 2 ^ n -> 0 <= t < n -> 0 <= Z.lxor i (2 ^ t) < 2 ^ n.
Proof.
  intros Hi Ht.
  assert (Hp : 0 < 2 ^ t) by (apply Z.pow_pos_nonneg; lia).
  assert (Hnn : 0 <= Z.lxor i (2 ^ t)) by (apply Z.lxor_nonneg; lia).
  split; [exact Hnn | ].
  destruct (Z.eq_dec (Z.lxor i (2 ^ t)) 0) as [-> | Hne]; [lia | ].
  apply Z.log2_lt_pow2; [lia | ].
  pose proof (Z.log2_lxor i (2 ^ t) (proj1 Hi) (Z.lt_le_incl _ _ Hp)) as Hl.
  rewrite Z.log2_pow2 in Hl by lia.
  destruct (Z.eq_dec i 0) as [-> | Hi0].
  - change (Z.log2 0) with 0 in Hl. lia.
  - assert (Z.log2 i < n) by (apply Z.log2_lt_pow2; lia). lia.
Qed.

End BitFacts.

Section LoopInvariants.

(** A [for] loop over the indices of an array whose accumulator after [k]
    turns is [G k]. *)
Lemma foldl_seq_invariant {A : Type} (step : option (list A) -> nat -> option (list A))
    (G : nat -> list A) (n : nat) :
  (forall k, (k < n)%nat -> step (Some (G k)) k = Some (G (S k))) ->
  foldl step (Some (G 0%nat)) (seq 0 n) = Some (G n).
Proof.
  induction n as [ | n IH]; intros Hs; [reflexivity | ].
  rewrite seq_S, foldl_app, IH by (intros; apply Hs; lia).
  cbn. apply Hs. lia.
Qed.

Lemma imap_unchanged {A : Type} (f : nat -> A -> A) (l : list A) :
  (forall i x, l !! i = Some x -> f i x = x) -> imap f l = l.
Proof.
  intros Hf. apply list_eq. intros i. rewrite list_lookup_imap.
  destruct (l !! i) as [x | ] eqn:Hi; [ | reflexivity].
  cbn. rewrite (Hf i x Hi). reflexivity.
Qed.

End LoopInvariants.

Section CnotFacts.
Import Gates.
Context {F : Type} `{Scalar F}.

Lemma partner_of_Z (t i : nat) :
  Z.of_nat (partner t i) = Z.lxor (Z.of_nat i) (2 ^ Z.of_nat t).
Proof.
  unfold partner. apply Z2Nat.id. apply Z.lxor_nonneg.
  pose proof (Z.pow_pos_nonneg 2 (Z.of_nat t)). lia.
Qed.

Lemma partner_partner (t i : nat) : partner t (partner t i) = i.
Proof.
  unfold partner at 1. rewrite partner_of_Z, lxor_pow2_twice. apply Nat2Z.id.
Qed.

Lemma partner_neq (t i : nat) : partner t i <> i.
Proof.
  intros Heq. apply (lxor_pow2_neq (Z.of_nat i) (Z.of_nat t)); [lia | ].
  rewrite <- partner_of_Z, Heq. reflexivity.
Qed.

Lemma partner_control_bit (t c i : nat) :
  t <> c -> Z.testbit (Z.of_nat (partner t i)) (Z.of_nat c) = Z.testbit (Z.of_nat i) (Z.of_nat c).
Proof.
  intros Hne. rewrite partner_of_Z. apply lxor_pow2_other_bit; lia.
Qed.

Lemma cnot_turn (t c : nat) (a : list (complex F)) (k : nat) :
  (t < 31)%nat -> (c < 31)%nat -> t <> c ->
  (forall i, (i < length a)%nat -> (partner t i < length a)%nat) ->
  (k < length a)%nat ->
  cnot_step (Z.of_nat t) (Z.of_nat c) (Some (cnot_upto t c a k)) k
  = Some (cnot_upto t c a (S k)).
Proof.
  intros Ht Hc Hne Hin Hk.
  unfold cnot_step. rewrite !shl1_small by assumption.
  rewrite land_pow2_eqb by lia.
  destruct (Z.testbit (Z.of_nat k) (Z.of_nat c)) eqn:Hbit; cbn [negb].
  - (* the control bit of k is set: the pair (k, partner k) is swapped *)
    rewrite <- partner_of_Z. unfold at_index.
    replace (Z.of_nat (partner t k) <? 0) with false by (symmetry; apply Z.ltb_ge; lia).
    rewrite Nat2Z.id.
    pose proof (Hin k Hk) as Hj.
    pose proof (partner_neq t k) as Hjk.
    pose proof (partner_partner t k) as Hjj.
    pose proof (partner_control_bit t c k Hne) as Hjbit. rewrite Hbit in Hjbit.
    destruct (lookup_lt_is_Some_2 a k Hk) as [x Hx].
    destruct (lookup_lt_is_Some_2 a (partner t k) Hj) as [y Hy].
    unfold cnot_upto at 1 2. rewrite !list_lookup_imap, Hx, Hy. cbn [fmap option_fmap option_map].
    rewrite Hbit, Hjbit, Hjj, Hx. cbn [default andb].
    f_equal. apply list_eq. intros i.
    destruct (decide (i = partner t k)) as [-> | Hij].
    + rewrite list_lookup_insert_eq by (rewrite length_insert; unfold cnot_upto; rewrite length_imap; exact Hj).
      unfold cnot_upto. rewrite list_lookup_imap, Hy. cbn [fmap option_fmap option_map].
      rewrite Hjbit, Hjj, Hx. cbn [default andb]. f_equal.
      destruct (Nat.ltb_spec (Nat.min k (partner t k)) k),
               (Nat.ltb_spec (Nat.max k (partner t k)) k),
               (Nat.ltb_spec (Nat.min (partner t k) k) (S k)),
               (Nat.ltb_spec (Nat.max (partner t k) k) (S k)); cbn; try reflexivity; lia.
    + rewrite list_lookup_insert_ne by (intros E; apply Hij; symmetry; exact E).
      destruct (decide (i = k)) as [-> | Hik].
      * rewrite list_lookup_insert_eq by (unfold cnot_upto; rewrite length_imap; exact Hk).
        unfold cnot_upto. rewrite list_lookup_imap, Hx. cbn [fmap option_fmap option_map].
        rewrite Hbit, Hy. cbn [default andb]. f_equal.
        destruct (Nat.ltb_spec (Nat.min (partner t k) k) k),
                 (Nat.ltb_spec (Nat.max (partner t k) k) k),
                 (Nat.ltb_spec (Nat.min k (partner t k)) (S k)),
                 (Nat.ltb_spec (Nat.max k (partner t k)) (S k)); cbn; try reflexivity; lia.
      * rewrite list_lookup_insert_ne by (intros E; apply Hik; symmetry; exact E).
        unfold cnot_upto. rewrite !list_lookup_imap.
        destruct (a !! i) as [z | ]; [ | reflexivity]. cbn [fmap option_fmap option_map].
        assert (Hpk : partner t i <> k).
        { intros E. apply Hij. rewrite <- E. symmetry. apply partner_partner. }
        replace (Nat.min i (partner t i) <? S k)%nat with (Nat.min i (partner t i) <? k)%nat
          by (destruct (Nat.ltb_spec (Nat.min i (partner t i)) k),
                       (Nat.ltb_spec (Nat.min i (partner t i)) (S k)); try reflexivity; lia).
        replace (Nat.max i (partner t i) <? S k)%nat with (Nat.max i (partner t i) <? k)%nat
          by (destruct (Nat.ltb_spec (Nat.max i (partner t i)) k),
                       (Nat.ltb_spec (Nat.max i (partner t i)) (S k)); try reflexivity; lia).
        reflexivity.
  - (* the control bit of k is clear: nothing is written *)
    f_equal. apply list_eq. intros i. unfold cnot_upto. rewrite !list_lookup_imap.
    destruct (a !! i) as [z | ]; [ | reflexivity]. cbn [fmap option_fmap option_map].
    destruct (Z.testbit (Z.of_nat i) (Z.of_nat c)) eqn:Hibit; [ | reflexivity].
    cbn [andb].
    assert (Hik : i <> k) by (intros ->; congruence).
    assert (Hpk : partner t i <> k).
    { intros E. pose proof (partner_control_bit t c i Hne) as Hb. rewrite E in Hb. congruence. }
    replace (Nat.min i (partner t i) <? S k)%nat with (Nat.min i (partner t i) <? k)%nat
      by (destruct (Nat.ltb_spec (Nat.min i (partner t i)) k),
                   (Nat.ltb_spec (Nat.min i (partner t i)) (S k)); try reflexivity; lia).
    replace (Nat.max i (partner t i) <? S k)%nat with (Nat.max i (partner t i) <? k)%nat
      by (destruct (Nat.ltb_spec (Nat.max i (partner t i)) k),
                   (Nat.ltb_spec (Nat.max i (partner t i)) (S k)); try reflexivity; lia).
    reflexivity.
Qed.

Lemma applyCNOT_distinct (t c : nat) (a : list (complex F)) :
  (t < 31)%nat -> (c < 31)%nat -> t <> c ->
  (forall i, (i < length a)%nat -> (partner t i < length a)%nat) ->
  Gates.applyCNOT (Z.of_nat t) (Z.of_nat c) a = Some a.
Proof.
  intros Ht Hc Hne Hin. unfold Gates.applyCNOT.
  assert (H0 : cnot_upto t c a 0 = a).
  { apply imap_unchanged. intros i x Hi.
    replace (Nat.min i (partner t i) <? 0)%nat with false by reflexivity.
    rewrite andb_false_r. reflexivity. }
  assert (Hn : cnot_upto t c a (length a) = a).
  { apply imap_unchanged. intros i x Hi.
    apply lookup_lt_Some in Hi. pose proof (Hin i Hi).
    replace (Nat.max i (partner t i) <? length a)%nat with true
      by (symmetry; apply Nat.ltb_lt; lia).
    rewrite andb_false_r. reflexivity. }
  rewrite <- H0 at 1. rewrite <- Hn at 3.
  apply (foldl_seq_invariant _ (cnot_upto t c a)).
  intros k Hk. apply cnot_turn; assumption.
Qed.

Lemma partner_in_register (n t i : nat) (a : list (complex F)) :
  (t < n)%nat -> length a = (2 ^ n)%nat -> (i < length a)%nat -> (partner t i < length a)%nat.
Proof.
  intros Ht Hlen Hi. rewrite Hlen in *.
  assert (Hpow : Z.of_nat (2 ^ n) = 2 ^ Z.of_nat n) by (rewrite Nat2Z.inj_pow; reflexivity).
  apply Nat2Z.inj_lt. rewrite partner_of_Z, Hpow.
  apply lxor_pow2_below; lia.
Qed.

Lemma partner_below (c k : nat) :
  Z.testbit (Z.of_nat k) (Z.of_nat c) = true -> (partner c k < k)%nat.
Proof.
  intros Hbit. apply Nat2Z.inj_lt. rewrite partner_of_Z.
  rewrite lxor_pow2_set by (lia || exact Hbit).
  pose proof (Z.pow_pos_nonneg 2 (Z.of_nat c)). lia.
Qed.

Lemma partner_above (c k : nat) :
  Z.testbit (Z.of_nat k) (Z.of_nat c) = false -> (k < partner c k)%nat.
Proof.
  intros Hbit. apply Nat2Z.inj_lt. rewrite partner_of_Z.
  rewrite lxor_pow2_clear by (lia || exact Hbit).
  pose proof (Z.pow_pos_nonneg 2 (Z.of_nat c)). lia.
Qed.

Lemma partner_same_bit (c i : nat) :
  Z.testbit (Z.of_nat (partner c i)) (Z.of_nat c) = negb (Z.testbit (Z.of_nat i) (Z.of_nat c)).
Proof. rewrite partner_of_Z. apply lxor_pow2_same_bit. lia. Qed.

Lemma not_turn (c : nat) (a : list (complex F)) (k : nat) :
  (c < 31)%nat -> (k < length a)%nat ->
  cnot_step (Z.of_nat c) (Z.of_nat c) (Some (not_upto c a k)) k
  = Some (not_upto c a (S k)).
Proof.
  intros Hc Hk.
  unfold cnot_step. rewrite !shl1_small by assumption.
  rewrite land_pow2_eqb by lia.
  destruct (Z.testbit (Z.of_nat k) (Z.of_nat c)) eqn:Hbit; cbn [negb].
  - rewrite <- partner_of_Z. unfold at_index.
    replace (Z.of_nat (partner c k) <? 0) with false by (symmetry; apply Z.ltb_ge; lia).
    rewrite Nat2Z.id.
    pose proof (partner_below c k Hbit) as Hj.
    pose proof (partner_partner c k) as Hjj.
    destruct (lookup_lt_is_Some_2 a k Hk) as [x Hx].
    destruct (lookup_lt_is_Some_2 a (partner c k) ltac:(lia)) as [y Hy].
    unfold not_upto at 1 2. rewrite !list_lookup_imap, Hx, Hy. cbn [fmap option_fmap option_map].
    rewrite Hjj.
    replace (Nat.max k (partner c k) <? k)%nat with false by (symmetry; apply Nat.ltb_ge; lia).
    replace (Nat.max (partner c k) k <? k)%nat with false by (symmetry; apply Nat.ltb_ge; lia).
    f_equal. apply list_eq. intros i.
    destruct (decide (i = partner c k)) as [-> | Hij].
    + rewrite list_lookup_insert_eq
        by (rewrite length_insert; unfold not_upto; rewrite length_imap; lia).
      unfold not_upto. rewrite list_lookup_imap, Hy. cbn [fmap option_fmap option_map].
      rewrite Hjj, Hx.
      replace (Nat.max (partner c k) k <? S k)%nat with true by (symmetry; apply Nat.ltb_lt; lia).
      reflexivity.
    + rewrite list_lookup_insert_ne by (intros E; apply Hij; symmetry; exact E).
      destruct (decide (i = k)) as [-> | Hik].
      * rewrite list_lookup_insert_eq by (unfold not_upto; rewrite length_imap; exact Hk).
        unfold not_upto. rewrite list_lookup_imap, Hx. cbn [fmap option_fmap option_map].
        rewrite Hy.
        replace (Nat.max k (partner c k) <? S k)%nat with true by (symmetry; apply Nat.ltb_lt; lia).
        reflexivity.
      * rewrite list_lookup_insert_ne by (intros E; apply Hik; symmetry; exact E).
        unfold not_upto. rewrite !list_lookup_imap.
        destruct (a !! i) as [z | ]; [ | reflexivity]. cbn [fmap option_fmap option_map].
        assert (Hpk : partner c i <> k).
        { intros E. apply Hij. rewrite <- E. symmetry. apply partner_partner. }
        replace (Nat.max i (partner c i) <? S k)%nat with (Nat.max i (partner c i) <? k)%nat
          by (destruct (Nat.ltb_spec (Nat.max i (partner c i)) k),
                       (Nat.ltb_spec (Nat.max i (partner c i)) (S k)); try reflexivity; lia).
        reflexivity.
  - f_equal. apply list_eq. intros i. unfold not_upto. rewrite !list_lookup_imap.
    destruct (a !! i) as [z | ]; [ | reflexivity]. cbn [fmap option_fmap option_map].
    assert (Hmax : Nat.max i (partner c i) <> k).
    { intros E. destruct (Z.testbit (Z.of_nat i) (Z.of_nat c)) eqn:Hibit.
      - pose proof (partner_below c i Hibit). assert (i = k) by lia. subst i. congruence.
      - pose proof (partner_above c i Hibit). assert (Hp : partner c i = k) by lia.
        pose proof (partner_same_bit c i) as Hs. rewrite Hp, Hbit, Hibit in Hs. discriminate Hs. }
    replace (Nat.max i (partner c i) <? S k)%nat with (Nat.max i (partner c i) <? k)%nat
      by (destruct (Nat.ltb_spec (Nat.max i (partner c i)) k),
                   (Nat.ltb_spec (Nat.max i (partner c i)) (S k)); try reflexivity; lia).
    reflexivity.
Qed.

Lemma applyCNOT_same (c : nat) (a : list (complex F)) :
  (c < 31)%nat ->
  Gates.applyCNOT (Z.of_nat c) (Z.of_nat c) a = Some (not_upto c a (length a)).
Proof.
  intros Hc. unfold Gates.applyCNOT.
  assert (H0 : not_upto c a 0 = a).
  { apply imap_unchanged. intros i x Hi. reflexivity. }
  rewrite <- H0 at 1.
  apply (foldl_seq_invariant _ (not_upto c a)).
  intros k Hk. apply not_turn; assumption.
Qed.

End CnotFacts.

Section HadamardAnyQubit.
Import Gates.
Context {F : Type} `{Scalar F}.

Lemma hadamard_turn (t : nat) (a : list (complex F)) (k : nat) :
  (t < 31)%nat ->
  (forall i, (i < length a)%nat -> (partner t i < length a)%nat) ->
  (k < length a)%nat ->
  hadamard_step a (Z.of_nat t) (Some (hadamard_upto t a k)) k
  = Some (hadamard_upto t a (S k)).
Proof.
  intros Ht Hin Hk.
  unfold hadamard_step. rewrite !shl1_small by assumption.
  rewrite land_pow2_eqb by lia.
  destruct (Z.testbit (Z.of_nat k) (Z.of_nat t)) eqn:Hbit; cbn [negb].
  - (* bit set: the turn writes nothing *)
    f_equal. apply list_eq. intros i. unfold hadamard_upto. rewrite !list_lookup_imap.
    destruct (a !! i) as [z | ]; [ | reflexivity]. cbn [fmap option_fmap option_map].
    cbv zeta.
    destruct (Z.testbit (Z.of_nat i) (Z.of_nat t)) eqn:Hibit.
    + assert (Hpk : partner t i <> k).
      { intros E. pose proof (partner_same_bit t i) as Hs.
        rewrite E, Hbit, Hibit in Hs. discriminate Hs. }
      replace (partner t i <? S k)%nat with (partner t i <? k)%nat
        by (destruct (Nat.ltb_spec (partner t i) k),
                     (Nat.ltb_spec (partner t i) (S k)); try reflexivity; lia).
      reflexivity.
    + assert (Hik : i <> k) by (intros ->; congruence).
      replace (i <? S k)%nat with (i <? k)%nat
        by (destruct (Nat.ltb_spec i k), (Nat.ltb_spec i (S k)); try reflexivity; lia).
      reflexivity.
  - (* bit clear: the turn writes k and its partner *)
    rewrite lor_pow2_clear, <- lxor_pow2_clear, <- partner_of_Z by (lia || exact Hbit).
    unfold at_index.
    replace (Z.of_nat (partner t k) <? 0) with false by (symmetry; apply Z.ltb_ge; lia).
    rewrite Nat2Z.id.
    pose proof (Hin k Hk) as Hj.
    pose proof (partner_above t k Hbit) as Hjk.
    pose proof (partner_partner t k) as Hjj.
    pose proof (partner_same_bit t k) as Hjbit. rewrite Hbit in Hjbit. cbn in Hjbit.
    destruct (lookup_lt_is_Some_2 a k Hk) as [x Hx].
    destruct (lookup_lt_is_Some_2 a (partner t k) Hj) as [y Hy].
    rewrite Hx, Hy.
    f_equal. apply list_eq. intros i.
    destruct (decide (i = partner t k)) as [-> | Hij].
    + rewrite list_lookup_insert_eq
        by (rewrite length_insert; unfold hadamard_upto; rewrite length_imap; exact Hj).
      unfold hadamard_upto. rewrite list_lookup_imap, Hy. cbn [fmap option_fmap option_map].
      cbv zeta. rewrite Hjbit, Hjj, Hx.
      replace (k <? S k)%nat with true by (symmetry; apply Nat.ltb_lt; lia).
      reflexivity.
    + rewrite list_lookup_insert_ne by (intros E; apply Hij; symmetry; exact E).
      destruct (decide (i = k)) as [-> | Hik].
      * rewrite list_lookup_insert_eq by (unfold hadamard_upto; rewrite length_imap; exact Hk).
        unfold hadamard_upto. rewrite list_lookup_imap, Hx. cbn [fmap option_fmap option_map].
        cbv zeta. rewrite Hbit, Hy.
        replace (k <? S k)%nat with true by (symmetry; apply Nat.ltb_lt; lia).
        reflexivity.
      * rewrite list_lookup_insert_ne by (intros E; apply Hik; symmetry; exact E).
        unfold hadamard_upto. rewrite !list_lookup_imap.
        destruct (a !! i) as [z | ]; [ | reflexivity]. cbn [fmap option_fmap option_map].
        cbv zeta.
        assert (Hpk : partner t i <> k).
        { intros E. apply Hij. rewrite <- E. symmetry. apply partner_partner. }
        replace (partner t i <? S k)%nat with (partner t i <? k)%nat
          by (destruct (Nat.ltb_spec (partner t i) k),
                       (Nat.ltb_spec (partner t i) (S k)); try reflexivity; lia).
        replace (i <? S k)%nat with (i <? k)%nat
          by (destruct (Nat.ltb_spec i k), (Nat.ltb_spec i (S k)); try reflexivity; lia).
        reflexivity.
Qed.

(** What [applyHadamard] computes on any qubit of the register. *)
Lemma applyHadamard_any (t : nat) (a : list (complex F)) :
  (t < 31)%nat ->
  (forall i, (i < length a)%nat -> (partner t i < length a)%nat) ->
  Quantum.applyHadamard (Z.of_nat t) a = Some (hadamard_upto t a (length a)).
Proof.
  intros Ht Hin. unfold Quantum.applyHadamard.
  assert (H0 : hadamard_upto t a 0 = a).
  { apply imap_unchanged. intros i x Hi. cbv zeta.
    destruct (Z.testbit _ _); reflexivity. }
  rewrite <- H0 at 2.
  apply (foldl_seq_invariant _ (hadamard_upto t a)).
  intros k Hk. apply hadamard_turn; assumption.
Qed.

Lemma length_hadamard_upto (t : nat) (a : list (complex F)) (k : nat) :
  length (hadamard_upto t a k) = length a.
Proof. unfold hadamard_upto. apply length_imap. Qed.

End HadamardAnyQubit.

Section HadamardAnyQubitReal.
Import Gates.

Lemma hadamard_upto_twice (t : nat) (a : list (complex R)) :
  (forall i, (i < length a)%nat -> (partner t i < length a)%nat) ->
  hadamard_upto t (hadamard_upto t a (length a)) (length a) = a.
Proof.
  intros Hin. apply list_eq. intros i.
  unfold hadamard_upto at 1. rewrite list_lookup_imap.
  destruct (hadamard_upto t a (length a) !! i) as [bi | ] eqn:Hbi.
  2:{ apply lookup_ge_None in Hbi. rewrite length_hadamard_upto in Hbi.
      symmetry. apply lookup_ge_None. exact Hbi. }
  assert (Hi : (i < length a)%nat).
  { apply lookup_lt_Some in Hbi. rewrite length_hadamard_upto in Hbi. exact Hbi. }
  pose proof (Hin i Hi) as Hp.
  destruct (lookup_lt_is_Some_2 a i Hi) as [x Hx].
  destruct (lookup_lt_is_Some_2 a (partner t i) Hp) as [y Hy].
  assert (Hbp : hadamard_upto t a (length a) !! partner t i
                = Some (if Z.testbit (Z.of_nat i) (Z.of_nat t) then lo y x else hi x y)).
  { unfold hadamard_upto. rewrite list_lookup_imap, Hy. cbn [fmap option_fmap option_map].
    cbv zeta. rewrite partner_same_bit, partner_partner, Hx. cbn [default].
    destruct (Z.testbit (Z.of_nat i) (Z.of_nat t)); cbn [negb].
    - replace (partner t i <? length a)%nat with true by (symmetry; apply Nat.ltb_lt; lia).
      reflexivity.
    - replace (i <? length a)%nat with true by (symmetry; apply Nat.ltb_lt; lia).
      reflexivity. }
  assert (Hbi' : bi = if Z.testbit (Z.of_nat i) (Z.of_nat t) then hi y x else lo x y).
  { unfold hadamard_upto in Hbi. rewrite list_lookup_imap, Hx in Hbi.
    cbn [fmap option_fmap option_map] in Hbi. cbv zeta in Hbi. rewrite Hy in Hbi.
    cbn [default] in Hbi.
    replace (partner t i <? length a)%nat with true in Hbi by (symmetry; apply Nat.ltb_lt; lia).
    replace (i <? length a)%nat with true in Hbi by (symmetry; apply Nat.ltb_lt; lia).
    injection Hbi as <-. reflexivity. }
  cbn [fmap option_fmap option_map]. cbv zeta. rewrite Hbp. cbn [default].
  rewrite Hx. f_equal. subst bi.
  replace (partner t i <? length a)%nat with true by (symmetry; apply Nat.ltb_lt; lia).
  replace (i <? length a)%nat with true by (symmetry; apply Nat.ltb_lt; lia).
  destruct (Z.testbit (Z.of_nat i) (Z.of_nat t)).
  - apply hi_lo_hi.
  - apply lo_lo_hi.
Qed.

End HadamardAnyQubitReal.

Section GateTheorems.
Import Gates.

Lemma qstate_eta (q : qstate) : QState (numQubits q) (amplitudes q) (entangled q) = q.
Proof. destruct q. reflexivity. Qed.

Lemma set_quantum_same (s : runtime) : set_quantum (quantumState s) (qheap s) s = s.
Proof. destruct s. reflexivity. Qed.

(** X1: [applyCNOT] with target and control on two different qubits of
    the register changes nothing.  The loop visits both indices of every
    pair whose control bit is set and swaps the pair each time, so every
    swap is undone: the array stored is the array read, and the runtime is
    left exactly as it was. *)
Theorem X1_cnot_on_distinct_qubits_changes_nothing :
  forall (n t c : nat) (s : runtime) (ref : nat) (q : qstate),
    (t < n)%nat -> (n <= 31)%nat -> (c < 31)%nat -> t <> c ->
    quantumState s = Some ref ->
    qheap s !! ref = Some q ->
    length (amplitudes q) = (2 ^ n)%nat ->
    Gates.applyCNOT (Z.of_nat t) (Z.of_nat c) (amplitudes q) = Some (amplitudes q)
    /\ Handlers.applyCNOT (Z.of_nat t) (Z.of_nat c) s = Ok tt s.
Proof.
  intros n t c s ref q Ht Hn Hc Hne Hq Href Hlen.
  assert (Hid : Gates.applyCNOT (Z.of_nat t) (Z.of_nat c) (amplitudes q)
                = Some (amplitudes q)).
  { apply applyCNOT_distinct; [lia | exact Hc | exact Hne | ].
    intros i Hi. apply (partner_in_register n); assumption. }
  split; [exact Hid | ].
  unfold Handlers.applyCNOT, current_qstate, set_amplitudes. unfold_M.
  rewrite Hq, Href, Hid. rewrite qstate_eta, list_insert_id by exact Href.
  rewrite set_quantum_same. reflexivity.
Qed.

Lemma X1_cnot_on_distinct_qubits_changes_nothing_witness :
  let s := set_quantum (Some 0%nat) [QState (VNum 2) (one_hot 4 2) []] fresh in
  Gates.applyCNOT 0 1 (one_hot (F:=float) 4 2) = Some (one_hot 4 2)
  /\ Handlers.applyCNOT 0 1 s = Ok tt s.
Proof.
  apply (X1_cnot_on_distinct_qubits_changes_nothing 2 0 1
           (set_quantum (Some 0%nat) [QState (VNum 2) (one_hot 4 2) []] fresh)
           0%nat (QState (VNum 2) (one_hot 4 2) []));
    first [reflexivity | lia].
Defined.

(** X2: with target and control on one qubit of the register,
    [applyCNOT] exchanges every amplitude with its partner under the bit
    of that qubit: the new array has at index [i] what the old one had at
    index [i ^ (1 << c)]. *)
Theorem X2_cnot_with_control_on_target_flips_the_qubit :
  forall (n c : nat) (a : list (complex float)),
    (c < n)%nat -> (n <= 31)%nat ->
    length a = (2 ^ n)%nat ->
    exists b,
      Gates.applyCNOT (Z.of_nat c) (Z.of_nat c) a = Some b
      /\ length b = length a
      /\ forall i, (i < length a)%nat -> b !! i = a !! partner c i.
Proof.
  intros n c a Hc Hn Hlen. exists (not_upto c a (length a)).
  split; [apply applyCNOT_same; lia | ].
  split; [unfold not_upto; apply length_imap | ].
  intros i Hi. unfold not_upto. rewrite list_lookup_imap.
  pose proof (partner_in_register n c i a Hc Hlen Hi) as Hp.
  destruct (lookup_lt_is_Some_2 a i Hi) as [x Hx].
  destruct (lookup_lt_is_Some_2 a (partner c i) Hp) as [y Hy].
  rewrite Hx, Hy.
  replace (Nat.max i (partner c i) <? length a)%nat with true
    by (symmetry; apply Nat.ltb_lt; lia).
  reflexivity.
Qed.

Lemma X2_cnot_with_control_on_target_flips_the_qubit_witness :
  exists b,
    Gates.applyCNOT 1 1 (one_hot (F:=float) 4 2) = Some b
    /\ length b = 4%nat
    /\ forall i, (i < 4)%nat -> b !! i = one_hot 4 2 !! partner 1 i.
Proof.
  apply (X2_cnot_with_control_on_target_flips_the_qubit 2 1 (one_hot 4 2));
    first [reflexivity | lia].
Defined.

Lemma hadamard_step_None {F : Type} `{Scalar F} (a : list (complex F)) (t : Z) (l : list nat) :
  foldl (hadamard_step a t) None l = None.
Proof. induction l as [ | i l IH]; [reflexivity | exact IH]. Qed.

Lemma applyHadamard_outside {F : Type} `{Scalar F} (n t : nat) (a : list (complex F)) :
  (n <= t)%nat -> (t <= 31)%nat -> length a = (2 ^ n)%nat ->
  Quantum.applyHadamard (Z.of_nat t) a = None.
Proof.
  intros Hnt Ht Hlen. unfold Quantum.applyHadamard.
  assert (Hpos : (0 < 2 ^ n)%nat) by (apply Nat.neq_0_lt_0, Nat.pow_nonzero; lia).
  destruct a as [ | x a']; [cbn in Hlen; lia | ].
  cbn [length seq foldl].
  replace (hadamard_step (x :: a') (Z.of_nat t) (Some (x :: a')) 0) with (@None (list (complex F))).
  { apply hadamard_step_None. }
  unfold hadamard_step. rewrite Z.land_0_l, Z.lor_0_l. cbn [Z.eqb Z.of_nat lookup list_lookup].
  destruct (Nat.eq_dec t 31%nat) as [-> | H31].
  - reflexivity.
  - rewrite shl1_small by lia. unfold at_index.
    assert (Hp : 0 < 2 ^ Z.of_nat t) by (apply Z.pow_pos_nonneg; lia).
    replace (2 ^ Z.of_nat t <? 0) with false by (symmetry; apply Z.ltb_ge; lia).
    replace ((x :: a') !! Z.to_nat (2 ^ Z.of_nat t)) with (@None (complex F)); [reflexivity | ].
    symmetry. apply lookup_ge_None. rewrite Hlen.
    apply Nat2Z.inj_le. rewrite Z2Nat.id by lia.
    rewrite Nat2Z.inj_pow. change (Z.of_nat 2) with 2.
    apply Z.pow_le_mono_r; lia.
Qed.

(** X4: on a register of [n] qubits the Hadamard gate throws exactly when
    its target is no qubit of the register ([n <= target], for targets up
    to 31): index 0 then has no partner in the array and the destructuring
    of [amplitudes[j]] fails.  [opQuantumGate] passes the TypeError on and
    the state object keeps its amplitudes.  On a qubit of the register the
    gate returns an array of the same length. *)
Theorem X4_hadamard_faults_iff_target_outside_register :
  forall (n t : nat) (s : runtime) (ref : nat) (q : qstate),
    (n <= 31)%nat -> (t <= 31)%nat ->
    quantumState s = Some ref ->
    qheap s !! ref = Some q ->
    length (amplitudes q) = (2 ^ n)%nat ->
    (Quantum.applyHadamard (Z.of_nat t) (amplitudes q) = None <-> (n <= t)%nat)
    /\ (forall b, Quantum.applyHadamard (Z.of_nat t) (amplitudes q) = Some b ->
                  length b = length (amplitudes q))
    /\ ((n <= t)%nat ->
        opQuantumGate "HADAMARD" (Z.of_nat t) s
        = Throw (TypeError "amplitudes[j] is undefined") s).
Proof.
  intros n t s ref q Hn Ht Hq Href Hlen.
  assert (Hin : (t < n)%nat ->
                Quantum.applyHadamard (Z.of_nat t) (amplitudes q)
                = Some (hadamard_upto t (amplitudes q) (length (amplitudes q)))).
  { intros Htn. apply applyHadamard_any; [lia | ].
    intros i Hi. apply (partner_in_register n); assumption. }
  split; [ | split].
  - split.
    + intros Hnone. destruct (Nat.le_gt_cases n t) as [Hle | Hgt]; [exact Hle | ].
      rewrite (Hin Hgt) in Hnone. discriminate Hnone.
    + intros Hle. apply (applyHadamard_outside n); assumption.
  - intros b Hb. destruct (Nat.le_gt_cases n t) as [Hle | Hgt].
    + rewrite (applyHadamard_outside n t _ Hle Ht Hlen) in Hb. discriminate Hb.
    + rewrite (Hin Hgt) in Hb. injection Hb as <-. apply length_hadamard_upto.
  - intros Hle. unfold opQuantumGate, APLRuntime.applyHadamard, current_qstate. unfold_M.
    rewrite Hq. rewrite decide_True by reflexivity. cbv beta. rewrite Hq, Href.
    rewrite (applyHadamard_outside n t _ Hle Ht Hlen). reflexivity.
Qed.

Lemma X4_hadamard_faults_iff_target_outside_register_witness :
  let s := set_quantum (Some 0%nat) [QState (VNum 2) (one_hot 4 2) []] fresh in
  (Quantum.applyHadamard 2 (one_hot (F:=float) 4 2) = None <-> (2 <= 2)%nat)
  /\ (forall b, Quantum.applyHadamard 2 (one_hot (F:=float) 4 2) = Some b ->
                length b = length (one_hot (F:=float) 4 2))
  /\ ((2 <= 2)%nat ->
      opQuantumGate "HADAMARD" 2 s = Throw (TypeError "amplitudes[j] is undefined") s).
Proof.
  apply (X4_hadamard_faults_iff_target_outside_register 2 2
           (set_quantum (Some 0%nat) [QState (VNum 2) (one_hot 4 2) []] fresh)
           0%nat (QState (VNum 2) (one_hot 4 2) []));
    first [reflexivity | lia].
Defined.

(** X3: over the reals, two Hadamard gates on any qubit [t] of a register
    of [n] qubits give back the amplitude array they started from. *)
Theorem X3_hadamard_twice_on_any_qubit :
  forall (n t : nat) (a : list (complex R)),
    (t < n)%nat -> (n <= 31)%nat ->
    length a = (2 ^ n)%nat ->
    Quantum.applyHadamard (Z.of_nat t) a ≫= Quantum.applyHadamard (Z.of_nat t) = Some a.
Proof.
  intros n t a Ht Hn Hlen.
  assert (Hin : forall i, (i < length a)%nat -> (partner t i < length a)%nat).
  { intros i Hi. apply (partner_in_register n); assumption. }
  rewrite (applyHadamard_any t a) by (lia || exact Hin). cbn [mbind option_bind].
  rewrite applyHadamard_any.
  - rewrite length_hadamard_upto. f_equal. apply hadamard_upto_twice. exact Hin.
  - lia.
  - intros i. rewrite length_hadamard_upto. apply Hin.
Qed.

Lemma X3_hadamard_twice_on_any_qubit_witness :
  Quantum.applyHadamard 1 (initQuantumAmplitudes (F:=R) 2)
    ≫= Quantum.applyHadamard 1
  = Some (initQuantumAmplitudes 2).
Proof.
  apply (X3_hadamard_twice_on_any_qubit 2 1 (initQuantumAmplitudes 2));
    first [reflexivity | lia].
Defined.

(** X5: over the reals, [applyPhase] keeps the probability
    [real^2 + imag^2] of every amplitude and the length of the array, and
    it leaves alone the amplitudes whose index has the target bit clear. *)
Theorem X5_phase_keeps_every_probability :
  forall (target : Z) (angle : R) (a : list (complex R)),
    probabilities (Gates.applyPhase target angle a) = probabilities a
    /\ length (Gates.applyPhase target angle a) = length a
    /\ (forall i : nat,
          Z.land (Z.of_nat i) (shl1 target) = 0 ->
          Gates.applyPhase target angle a !! i = a !! i).
Proof.
  intros target angle a. unfold Gates.applyPhase. split; [ | split].
  - unfold probabilities. apply list_eq. intros i.
    rewrite !list_lookup_fmap, list_lookup_imap.
    destruct (a !! i) as [[r im] | ]; [ | reflexivity]. cbn.
    destruct (Z.land (Z.of_nat i) (shl1 target) =? 0); [reflexivity | ].
    cbn. f_equal.
    pose proof (sin2_cos2 angle) as Hsc. unfold Rsqr in Hsc.
    replace ((r * cos angle - im * sin angle) * (r * cos angle - im * sin angle)
             + (r * sin angle + im * cos angle) * (r * sin angle + im * cos angle))%R
      with ((r * r + im * im) * (sin angle * sin angle + cos angle * cos angle))%R by ring.
    rewrite Hsc. ring.
  - apply length_imap.
  - intros i Hi. rewrite list_lookup_imap, Hi. destruct (a !! i); reflexivity.
Qed.

End GateTheorems.

(** ** Further properties of the interpreter *)

Section MeasureAnyState.

(** The sampling loop returns 0 or an index of the array. *)
Lemma sample_range (r : float) (probs : list float) :
  forall (i : nat) (cumulative : float),
    sample r probs i cumulative = 0%nat
    \/ (i <= sample r probs i cumulative < i + length probs)%nat.
Proof.
  induction probs as [ | p rest IH]; intros i cumulative; [left; reflexivity | ].
  cbn [sample length]. destruct (ltb r (add cumulative p)).
  - right. lia.
  - destruct (IH (S i) (add cumulative p)) as [-> | Hr]; [left; reflexivity | right; lia].
Qed.

Lemma length_probabilities {F : Type} `{Scalar F} (l : list (complex F)) :
  length (probabilities l) = length l.
Proof. unfold probabilities. apply length_map. Qed.

Lemma length_one_hot {F : Type} `{Scalar F} (size k : nat) :
  length (one_hot (F:=F) size k) = size.
Proof. unfold one_hot. rewrite length_map. apply length_seq. Qed.

(** The collapse writes the one-hot array of the result, whatever the
    amplitudes were. *)
Lemma collapse_any {F : Type} `{Scalar F} (l : list (complex F)) (k : nat) :
  collapse l k = one_hot (length l) k.
Proof. unfold collapse, one_hot. apply imap_seq_0. Qed.

Lemma opQuantumMeasure_any (s : runtime) (ref : nat) (q : qstate) :
  quantumState s = Some ref ->
  qheap s !! ref = Some q ->
  let k := sample (random s (draws s)) (probabilities (amplitudes q)) 0 zero in
  opQuantumMeasure s
  = Ok tt (set_stack (VNum (of_nat k) :: stack s)
             (set_quantum (Some ref)
                (<[ref := QState (numQubits q) (one_hot (length (amplitudes q)) k)
                            (entangled q)]> (qheap s))
                (set_draws (S (draws s)) s))).
Proof.
  intros Hq Href k.
  unfold opQuantumMeasure, current_qstate, Math_random, set_amplitudes.
  unfold_M. cbv beta. rewrite Hq. cbv beta iota. rewrite Hq. cbv beta iota.
  rewrite Href. cbv beta iota.
  unfold measure. rewrite collapse_any. cbv beta iota zeta.
  cbn [quantumState qheap stack set_draws set_quantum set_stack draws random].
  rewrite Hq. reflexivity.
Qed.

End MeasureAnyState.

Section MeasureTheorems.



(** X7: measuring twice in a row pushes the same index twice, provided
    the second random draw lies in [0, 1): the first measurement has
    collapsed the state onto that index. *)
Theorem X7_measure_twice_gives_the_same_result :
  forall (s : runtime) (ref : nat) (q : qstate),
    quantumState s = Some ref ->
    qheap s !! ref = Some q ->
    PrimFloat.leb 0 (random s (S (draws s))) = true ->
    PrimFloat.ltb (random s (S (draws s))) 1 = true ->
    exists (k : nat) (s' : runtime),
      (opQuantumMeasure;; opQuantumMeasure) s = Ok tt s'
      /\ stack s' = VNum (of_nat k) :: VNum (of_nat k) :: stack s
      /\ qheap s' !! ref
         = Some (QState (numQubits q) (one_hot (length (amplitudes q)) k) (entangled q)).
Proof.
  intros s ref q Hq Href Hge Hlt. apply not_below_zero in Hge.
  set (k := sample (random s (draws s)) (probabilities (amplitudes q)) 0 zero).
  set (size := length (amplitudes q)).
  set (q1 := QState (numQubits q) (one_hot size k) (entangled q)).
  set (s1 := set_stack (VNum (of_nat k) :: stack s)
               (set_quantum (Some ref) (<[ref := q1]> (qheap s))
                  (set_draws (S (draws s)) s))).
  assert (H1 : opQuantumMeasure s = Ok tt s1) by apply (opQuantumMeasure_any s ref q Hq Href).
  assert (Href1 : qheap s1 !! ref = Some q1).
  { cbn. apply list_lookup_insert_eq. apply lookup_lt_Some in Href. exact Href. }
  assert (Hk : sample (random s1 (draws s1)) (probabilities (amplitudes q1)) 0 zero = k).
  { cbn [s1 q1 random draws amplitudes set_stack set_quantum set_draws].
    rewrite probabilities_one_hot.
    destruct (sample_range (random s (draws s)) (probabilities (amplitudes q)) 0 zero)
      as [H0 | Hr].
    - fold k in H0. destruct size as [ | size'] eqn:Hsize.
      + rewrite H0. reflexivity.
      + apply (sample_one_hot _ k (S size') Hge Hlt 0). lia.
    - fold k in Hr. rewrite length_probabilities in Hr.
      apply (sample_one_hot _ k size Hge Hlt 0). subst size. lia. }
  pose proof (opQuantumMeasure_any s1 ref q1 eq_refl Href1) as H2.
  cbv zeta in H2. rewrite Hk in H2.
  exists k. eexists. split.
  - unfold mbind, outcome_bind, bind. rewrite H1. exact H2.
  - split; [reflexivity | ].
    subst s1 q1. cbn [qheap set_stack set_quantum set_draws numQubits amplitudes entangled].
    rewrite list_lookup_insert_eq
      by (rewrite length_insert; apply lookup_lt_Some in Href; exact Href).
    rewrite length_one_hot. reflexivity.
Qed.

Lemma X7_measure_twice_gives_the_same_result_witness :
  exists (k : nat) (s' : runtime),
    (opQuantumMeasure;; opQuantumMeasure) superposed = Ok tt s'
    /\ stack s' = [VNum (of_nat k); VNum (of_nat k)]
    /\ qheap s' !! 0%nat = Some (QState (VNum 1) (one_hot 2 k) []).
Proof.
  apply (X7_measure_twice_gives_the_same_result superposed 0%nat
           (QState (VNum 1)
              [Complex (1 / PrimFloat.sqrt 2)%float 0%float;
               Complex (1 / PrimFloat.sqrt 2)%float 0%float] []));
    reflexivity.
Defined.

End MeasureTheorems.

Section MemoryTheorems.

Lemma map_get_insert (m : gmap string value) (x : string) (v : value) :
  map_get (<[x := v]> m) x = v.
Proof. unfold map_get. rewrite lookup_insert_eq. reflexivity. Qed.

(** X13: [store] under a name followed by [load] of that name puts a
    truthy value back on the stack, and leaves it bound in memory. *)
Theorem X13_store_then_load_restores_a_truthy_value :
  forall (s : runtime) (x : string) (v : value) (rest : list value),
    stack s = v :: rest ->
    truthy v = true ->
    exists s',
      (opMemStore x;; opMemLoad x) s = Ok tt s'
      /\ stack s' = v :: rest
      /\ memory s' = <[x := v]> (memory s)
      /\ globals s' = globals s.
Proof.
  intros s x v rest Hs Hv. eexists. split.
  - unfold mbind, outcome_bind, bind. unfold opMemStore at 1. unfold_M. unfold pop.
    rewrite Hs. rewrite opMemLoad_spec. cbv zeta.
    cbn [memory set_memory set_stack stack globals].
    rewrite map_get_insert, Hv. reflexivity.
  - cbn. repeat split.
Qed.

Lemma X13_store_then_load_restores_a_truthy_value_witness :
  exists s',
    (opMemStore "x";; opMemLoad "x") running_with_5 = Ok tt s'
    /\ stack s' = [VNum 5]
    /\ memory s' = <["x" := VNum 5]> (memory running_with_5)
    /\ globals s' = globals running_with_5.
Proof.
  apply (X13_store_then_load_restores_a_truthy_value running_with_5 "x" (VNum 5) []);
    reflexivity.
Defined.

(** The bindings of [PATTERN_BIND]: the fold over the names. *)
Lemma bind_all_in (v : value) (bindings : list string) :
  forall (m : gmap string value) (x : string),
    x ∈ bindings ->
    foldl (fun m binding => <[binding := v]> m) m bindings !! x = Some v.
Proof.
  induction bindings as [ | b bs IH] using rev_ind; intros m x Hx.
  - apply elem_of_nil in Hx. destruct Hx.
  - rewrite foldl_app. cbn. destruct (decide (b = x)) as [-> | Hne].
    + apply lookup_insert_eq.
    + rewrite lookup_insert_ne by exact Hne. apply IH.
      apply elem_of_app in Hx as [Hx | Hx]; [exact Hx | ].
      apply list_elem_of_singleton in Hx. congruence.
Qed.

Lemma bind_all_out (v : value) (bindings : list string) :
  forall (m : gmap string value) (x : string),
    x ∉ bindings ->
    foldl (fun m binding => <[binding := v]> m) m bindings !! x = m !! x.
Proof.
  induction bindings as [ | b bs IH]; intros m x Hx; [reflexivity | ].
  apply not_elem_of_cons in Hx as [Hne Hx]. cbn.
  rewrite IH by exact Hx. apply lookup_insert_ne. congruence.
Qed.

(** X14: [opPatternBind] never fails.  It pops one value ([undefined]
    when the stack is empty), binds every listed name to it, and leaves
    every other name as it was. *)
Theorem X14_pattern_bind_binds_every_name :
  forall (s : runtime) (bindings : list string),
    exists s',
      opPatternBind bindings s = Ok tt s'
      /\ stack s' = tail (stack s)
      /\ (forall x, x ∈ bindings -> memory s' !! x = Some (top s))
      /\ (forall x, x ∉ bindings -> memory s' !! x = memory s !! x).
Proof.
  intros s bindings. unfold opPatternBind, pop, top. unfold_M.
  destruct (stack s) as [ | v rest] eqn:Hs; eexists; (split; [reflexivity | ]);
    cbn; rewrite ?Hs; (split; [reflexivity | split]); intros x Hx;
    first [apply bind_all_in; exact Hx | apply bind_all_out; exact Hx].
Qed.

(** X15: a function registered with [registerNative] can be loaded by
    name, when memory holds no truthy value under that name, but it cannot
    be called: [call] looks the name up among the declared functions only
    and throws "Undefined function". *)
Theorem X15_registered_native_is_loaded_but_not_callable :
  forall (s : runtime) (name f : string) (argCount : nat),
    truthy (map_get (memory s) name) = false ->
    functions s !! name = None ->
    (exists s', (registerNative name (VNative f);; opMemLoad name) s = Ok tt s'
                /\ stack s' = VNative f :: stack s)
    /\ (exists s', (registerNative name (VNative f);; opCall name argCount) s
                   = Throw (Error ("Undefined function: " +:+ name)) s').
Proof.
  intros s name f argCount Hm Hf. split.
  - eexists. split.
    + unfold mbind, outcome_bind, bind, registerNative, modify.
      rewrite opMemLoad_spec. cbv zeta.
      cbn [memory globals set_globals stack]. rewrite Hm, map_get_insert. reflexivity.
    + reflexivity.
  - eexists. unfold mbind, outcome_bind, bind, registerNative, modify.
    unfold opCall. unfold_M. cbn. rewrite Hf. reflexivity.
Qed.

Lemma X15_registered_native_is_loaded_but_not_callable_witness :
  (exists s', (registerNative "sqrt" (VNative "Math.sqrt");; opMemLoad "sqrt") fresh = Ok tt s'
              /\ stack s' = [VNative "Math.sqrt"])
  /\ (exists s', (registerNative "sqrt" (VNative "Math.sqrt");; opCall "sqrt" 1) fresh
                 = Throw (Error "Undefined function: sqrt") s').
Proof.
  apply (X15_registered_native_is_loaded_but_not_callable fresh "sqrt" "Math.sqrt" 1);
    reflexivity.
Defined.

End MemoryTheorems.

Section ControlFlowTheorems.

Lemma set_pc_set_pc (a b : Z) (s : runtime) : set_pc a (set_pc b s) = set_pc a s.
Proof. reflexivity. Qed.

Lemma set_pc_same (s : runtime) : set_pc (pc s) s = s.
Proof. destruct s. reflexivity. Qed.

Lemma at_index_Some_range {A : Type} (l : list A) (i : Z) (x : A) :
  at_index l i = Some x -> 0 <= i < Z.of_nat (length l).
Proof.
  unfold at_index. destruct (Z.ltb_spec i 0); [discriminate | ].
  intros Hl. apply lookup_lt_Some in Hl. lia.
Qed.

(** X8: a [call] of a defined function followed at once by [return] puts
    the caller's memory map, pc and call stack back, so the parameter
    bindings disappear with the callee.  The arguments are gone from the
    stack, and [return] pushes a second copy of the value left on top of
    it, unless that value is [undefined] or the stack is empty. *)
Theorem X8_call_then_return_restores_the_caller :
  forall (s : runtime) (function : string) (func : func) (args rest : list value),
    functions s !! function = Some func ->
    stack s = rev args ++ rest ->
    exists s',
      (opCall function (length args);; opReturn) s = Ok tt s'
      /\ memory s' = memory s
      /\ pc s' = pc s
      /\ callStack s' = callStack s
      /\ functions s' = functions s
      /\ stack s' = match rest with
                    | v :: _ => if is_undefined v then rest else v :: rest
                    | [] => []
                    end.
Proof.
  intros s function func args rest Hf Hs.
  assert (Hcall : opCall function (length args) s
                  = Ok tt (set_pc (func_address func - 1)
                             (set_memory (bind_params (func_params func) 0 args (memory s))
                                (set_stack rest
                                   (set_callStack (Frame (pc s) (memory s) :: callStack s) s))))).
  { unfold opCall. unfold_M. cbn. rewrite Hf.
    rewrite (pop_args_spec args [] rest) by exact Hs. cbn. rewrite app_nil_r. reflexivity. }
  unfold mbind, outcome_bind, bind. rewrite Hcall.
  unfold opReturn, top. unfold_M. cbn.
  destruct rest as [ | v rest'].
  - cbn. eexists. split; [reflexivity | repeat split].
  - destruct (is_undefined v); eexists; (split; [reflexivity | repeat split]).
Qed.

Lemma X8_call_then_return_restores_the_caller_witness :
  exists s',
    (opCall "f" 1;; opReturn) caller = Ok tt s'
    /\ memory s' = memory caller
    /\ pc s' = pc caller
    /\ callStack s' = callStack caller
    /\ functions s' = functions caller
    /\ stack s' = [].
Proof.
  apply (X8_call_then_return_restores_the_caller
           caller "f" (Func [Param "a"] 5 false) [VNum 7] []);
    reflexivity.
Defined.

(** X9: a [call] of a name that is no declared function throws
    "Undefined function: name", but only after its frame has been pushed:
    the failed run leaves one more frame on the call stack, with stack and
    memory as they were. *)
Theorem X9_call_of_undefined_function_leaves_a_frame :
  forall (fuel : nat) (s : runtime) (function : string) (argCount : nat),
    functions s !! function = None ->
    opCall function argCount s
    = Throw (Error ("Undefined function: " +:+ function))
        (set_callStack (Frame (pc s) (memory s) :: callStack s) s)
    /\ exists s',
         execute (S fuel) [CALL function argCount] s
         = Ok (Failure (Error ("Undefined function: " +:+ function)) 0) s'
         /\ callStack s' = Frame 0 (memory s) :: callStack s
         /\ stack s' = stack s
         /\ memory s' = memory s.
Proof.
  intros fuel s function argCount Hf.
  assert (Hcall : forall s0, functions s0 !! function = None ->
            opCall function argCount s0
            = Throw (Error ("Undefined function: " +:+ function))
                (set_callStack (Frame (pc s0) (memory s0) :: callStack s0) s0)).
  { intros s0 H0. unfold opCall. unfold_M. cbn. rewrite H0. reflexivity. }
  split; [apply Hcall, Hf | ].
  exists (set_callStack (Frame 0 (memory s) :: callStack s) (set_running true (set_pc 0 s))).
  split; [ | repeat split].
  unfold execute.
  erewrite run_throw;
    [ | reflexivity | reflexivity
      | cbn [executeInstruction]; apply (Hcall (set_running true (set_pc 0 s))); exact Hf ].
  reflexivity.
Qed.

Lemma X9_call_of_undefined_function_leaves_a_frame_witness :
  opCall "g" 0 fresh
  = Throw (Error "Undefined function: g")
      (set_callStack [Frame 0 (memory fresh)] fresh)
  /\ exists s',
       execute 1 [CALL "g" 0] fresh = Ok (Failure (Error "Undefined function: g") 0) s'
       /\ callStack s' = [Frame 0 (memory fresh)]
       /\ stack s' = []
       /\ memory s' = memory fresh.
Proof.
  apply (X9_call_of_undefined_function_leaves_a_frame 0 fresh "g" 0). reflexivity.
Defined.



(** X10: a [return] executed with an empty call stack ends the run:
    [running] becomes false, the pc stops one past the [return], and no
    later instruction is executed. *)
Theorem X10_top_level_return_stops_the_run :
  forall (fuel : nat) (code : list instruction) (s : runtime),
    running s = true ->
    callStack s = [] ->
    at_index code (pc s) = Some RETURN ->
    run (S fuel) code s = Ok tt (set_pc (pc s + 1) (set_running false s)).
Proof.
  intros fuel code s Hrun Hcs Hi.
  pose proof (at_index_Some_range _ _ _ Hi) as Hpc.
  rewrite (run_step fuel code s (set_running false s) RETURN);
    [ | rewrite Hrun, andb_true_r; apply Z.ltb_lt; lia | exact Hi
      | cbn [executeInstruction]; unfold opReturn; unfold_M; rewrite Hcs; reflexivity ].
  apply run_done. cbn. apply andb_false_r.
Qed.

Lemma X10_top_level_return_stops_the_run_witness :
  run 1 [RETURN; ADD] running_with_5
  = Ok tt (set_pc 1 (set_running false running_with_5)).
Proof.
  apply (X10_top_level_return_stops_the_run 0 [RETURN; ADD] running_with_5);
    reflexivity.
Defined.

(** X12: the main loop has no bound on the number of steps.  A [jump] to
    its own address is executed again and again and the run never returns:
    the loop is out of fuel whatever fuel it is given. *)
Theorem X12_jump_to_itself_never_returns :
  forall (fuel : nat) (code : list instruction) (s : runtime),
    running s = true ->
    at_index code (pc s) = Some (JUMP (pc s)) ->
    run fuel code s = OutOfFuel.
Proof.
  intros fuel code s Hrun Hi.
  pose proof (at_index_Some_range _ _ _ Hi) as Hpc.
  assert (Hc : (pc s <? Z.of_nat (length code)) && running s = true).
  { rewrite Hrun, andb_true_r. apply Z.ltb_lt. lia. }
  induction fuel as [ | fuel IH].
  - cbn [run]. rewrite Hc. reflexivity.
  - rewrite (run_step fuel code s (set_pc (pc s - 1) s) (JUMP (pc s)) Hc Hi eq_refl).
    cbn [pc set_pc]. rewrite set_pc_set_pc.
    replace (pc s - 1 + 1) with (pc s) by lia. rewrite set_pc_same. exact IH.
Qed.

Lemma X12_jump_to_itself_never_returns_witness :
  run 1000 [JUMP 0] running_with_5 = OutOfFuel.
Proof.
  apply (X12_jump_to_itself_never_returns 1000 [JUMP 0] running_with_5); reflexivity.
Defined.

End ControlFlowTheorems.

Section RangeTheorems.

Lemma ToLength_not_positive (x : float) :
  PrimFloat.ltb 0 x = false -> ToLength x = 0.
Proof.
  rewrite ltb_spec. change (Prim2SF 0) with (S754_zero false).
  unfold ToLength, trunc.
  destruct (Prim2SF x) as [sg | sg | | sg m e]; try destruct sg; cbn; try congruence;
    intros _; [reflexivity | reflexivity | ].
  assert (Hmag : 0 <= (if 0 <=? e then Z.pos m * 2 ^ e else Z.pos m / 2 ^ (- e))).
  { destruct (Z.leb_spec 0 e).
    - pose proof (Z.pow_nonneg 2 e). lia.
    - apply Z.div_pos; [lia | ]. apply Z.pow_pos_nonneg; lia. }
  lia.
Qed.

(** X16: the range [start .. end] is the empty array whenever
    [end - start] is not greater than 0, NaN included: [evalExpression]
    raises no error for a reversed range or for a bound that is no
    number. *)
Theorem X16_range_is_empty_unless_the_end_is_greater :
  forall (start end_ : value) (s : runtime),
    PrimFloat.ltb 0 (ToNumber end_ - ToNumber start)%float = false ->
    range start end_ s = Ok (EArray []) s
    /\ evalExpression
         (CallExpression ".." [Literal (LitValue start); Literal (LitValue end_)]) s
       = Ok (EArray []) s.
Proof.
  intros start end_ s Hle.
  assert (Hr : range start end_ s = Ok (EArray []) s).
  { unfold range. rewrite (ToLength_not_positive _ Hle). reflexivity. }
  split; [exact Hr | ].
  cbn [evalExpression]. unfold_M. cbn. exact Hr.
Qed.

Lemma X16_range_is_empty_unless_the_end_is_greater_witness :
  range (VNum 3) (VNum 1) fresh = Ok (EArray []) fresh
  /\ evalExpression
       (CallExpression ".." [Literal (LitValue (VNum 3)); Literal (LitValue (VNum 1))]) fresh
     = Ok (EArray []) fresh.
Proof.
  apply (X16_range_is_empty_unless_the_end_is_greater (VNum 3) (VNum 1) fresh).
  reflexivity.
Defined.

End RangeTheorems.

(** ** Further properties of [RunicMap] and of the compiler *)

Section RunicMapFacts.
Import RunicMap.

(** A pattern that holds a unit the text lacks occurs nowhere in it. *)
Lemma strip_prefix_absent (c : N) (pat : jsstring) :
  forall s : jsstring, In c pat -> ~ In c s -> strip_prefix pat s = None.
Proof.
  induction pat as [ | p pat IH]; intros s Hpat Hs; [destruct Hpat | ].
  destruct s as [ | x s]; [reflexivity | ].
  cbn [strip_prefix]. destruct (N.eqb_spec p x) as [-> | Hne]; [ | reflexivity].
  apply IH.
  - destruct Hpat as [-> | Hpat]; [ | exact Hpat]. exfalso. apply Hs. left. reflexivity.
  - intros Hin. apply Hs. right. exact Hin.
Qed.

Lemma replace_from_absent (c : N) (pat rep : jsstring) :
  forall s : jsstring, In c pat -> ~ In c s -> replace_from pat rep 0 s = s.
Proof.
  intros s Hpat. induction s as [ | x s IH]; intros Hs; [reflexivity | ].
  cbn [replace_from]. rewrite (strip_prefix_absent c pat (x :: s) Hpat Hs).
  rewrite IH; [reflexivity | ]. intros Hin. apply Hs. right. exact Hin.
Qed.

Lemma split_join_absent (c : N) (pat rep s : jsstring) :
  In c pat -> ~ In c s -> split_join pat rep s = s.
Proof.
  intros Hpat Hs. destruct pat as [ | p pat]; [destruct Hpat | ].
  apply (replace_from_absent c); assumption.
Qed.

(** Every ASCII spelling of the table holds a dot. *)
Lemma every_key_has_a_dot :
  Forall (fun kv : jsstring * jsstring => In 46%N kv.1) sortedKeys.
Proof.
  apply Forall_forall. intros kv Hkv.
  assert (Hb : forallb (fun kv : jsstring * jsstring => existsb (N.eqb 46) kv.1) sortedKeys = true)
    by (vm_compute; reflexivity).
  rewrite forallb_forall in Hb. specialize (Hb kv). 
  apply list_elem_of_In in Hkv. specialize (Hb Hkv).
  apply existsb_exists in Hb as (x & Hx & Heq). apply N.eqb_eq in Heq. subst x. exact Hx.
Qed.

(** X23: [toRunic] returns unchanged every text without a dot: each
    ASCII spelling of the table contains one. *)
Theorem X23_toRunic_leaves_text_without_dot :
  forall code : jsstring, ~ In 46%N code -> toRunic code = code.
Proof.
  intros code Hdot. unfold toRunic.
  pose proof every_key_has_a_dot as Hkeys.
  induction sortedKeys as [ | [ascii runic] keys IH]; [reflexivity | ].
  apply Forall_cons in Hkeys as [Hk Hkeys]. cbn [foldl].
  rewrite (split_join_absent 46%N ascii runic code Hk Hdot).
  apply IH. exact Hkeys.
Qed.

Lemma X23_toRunic_leaves_text_without_dot_witness :
  toRunic (u "q = 2") = u "q = 2".
Proof.
  apply (X23_toRunic_leaves_text_without_dot (u "q = 2")).
  vm_compute. intuition discriminate.
Defined.

End RunicMapFacts.

Section TokenizerFacts.
Import APLCompiler.

(** A property of every token the tokenizer can push holds of all the
    tokens it returns.  The TYPE branch is entered only on a unit that is
    one of the three lead glyphs and no key of [runicAlphabet]. *)
Lemma tokenize_from_Forall (this : glyphs) (P : token -> Prop) :
  (forall c d, P (Token RUNE (Str [c]) (Some d) None)) ->
  (forall c w t,
      lookup_key [c] (runicAlphabet this) = None ->
      existsb (jsstring_eqb [c]) (typeLeads this) = true ->
      P (Token TYPE (Str w) None (Some t))) ->
  (forall w, P (Token IDENTIFIER (Str w) None None)) ->
  (forall x, P (Token NUMBER (Num x) None None)) ->
  (forall c, P (Token DELIMITER (Str [c]) None None)) ->
  (forall c, P (Token OPERATOR (Str [c]) None None)) ->
  (forall w, P (Token KEYWORD (Str w) None None)) ->
  forall (fuel : nat) (code : jsstring) (acc ts : list token),
    Forall P acc ->
    tokenize_from this fuel code acc = Return ts ->
    Forall P ts.
Proof.
  intros Hrune Htype Hident Hnum Hdelim Hop Hkw.
  induction fuel as [ | fuel IH]; intros code acc ts Hacc Hts; [discriminate | ].
  cbn [tokenize_from] in Hts. destruct code as [ | char rest].
  { injection Hts as <-. exact Hacc. }
  assert (Hpush : forall t, P t -> Forall P (acc ++ [t])).
  { intros t Ht. apply Forall_app. split; [exact Hacc | constructor; [exact Ht | constructor]]. }
  destruct (lookup_key [char] (runicAlphabet this)) as [d | ] eqn:Hkey.
  { apply IH in Hts; [exact Hts | ]. apply Hpush, Hrune. }
  destruct (existsb (jsstring_eqb [char]) (typeLeads this)) eqn:Hlead.
  { destruct (span _ _) as [word rest'].
    destruct (lookup_key word (dataTypes this)) as [t | ].
    - apply IH in Hts; [exact Hts | ]. apply Hpush. apply (Htype char); assumption.
    - apply IH in Hts; [exact Hts | ]. apply Hpush, Hident. }
  destruct (isDigit char).
  { destruct (span _ _) as [num rest'].
    apply IH in Hts; [exact Hts | ]. apply Hpush, Hnum. }
  destruct (isWhitespace char); [apply IH in Hts; assumption | ].
  destruct (is_delimiter char).
  { apply IH in Hts; [exact Hts | ]. apply Hpush, Hdelim. }
  destruct (is_operator char).
  { apply IH in Hts; [exact Hts | ]. apply Hpush, Hop. }
  destruct (isAlpha char).
  { destruct (span _ _) as [word rest'].
    apply IH in Hts; [exact Hts | ]. apply Hpush.
    destruct (isKeyword word); [apply Hkw | apply Hident]. }
  apply IH in Hts; assumption.
Qed.

(** In the table with its keys re-decoded, the three lead glyphs of the
    TYPE branch are keys of [runicAlphabet]. *)
Lemma repaired_leads_are_runes (c : N) :
  lookup_key [c] (runicAlphabet repaired) = None ->
  existsb (jsstring_eqb [c]) (typeLeads repaired) = false.
Proof.
  intros Hkey.
  destruct (existsb (jsstring_eqb [c]) (typeLeads repaired)) eqn:Hlead; [ | reflexivity].
  exfalso. apply existsb_exists in Hlead as (lead & Hin & Heq).
  unfold jsstring_eqb in Heq. destruct (decide ([c] = lead)) as [<- | ]; [ | discriminate].
  change (typeLeads repaired) with [[0x16dc%N]; [0x16ca%N]; [0x16be%N]] in Hin.
  destruct Hin as [Hc | [Hc | [Hc | []]]]; injection Hc as <-;
    vm_compute in Hkey; discriminate Hkey.
Qed.

(** X19: the tokenizer never returns a TYPE token, neither with the glyph
    table as stored nor with its keys re-decoded.  The three glyphs that
    open the data-type branch are keys of [runicAlphabet] (and, as stored,
    three units long), so the first branch takes them and [dataTypes] is
    never consulted. *)
Theorem X19_tokenize_never_yields_a_type_token :
  forall (this : glyphs) (code : jsstring) (tokens : list token),
    this = stored \/ this = repaired ->
    tokenize this code = Return tokens ->
    Forall (fun t => tok_type t <> TYPE /\ tok_dataType t = None) tokens.
Proof.
  intros this code tokens Hthis Htok. unfold tokenize in Htok.
  apply (tokenize_from_Forall this _) with (fuel := S (length code)) (code := code) (acc := []);
    try (intros; split; [discriminate | reflexivity]); [ | constructor | exact Htok].
  intros c w t Hkey Hlead. exfalso.
  destruct Hthis as [-> | ->].
  - rewrite stored_leads_are_no_unit in Hlead. discriminate Hlead.
  - rewrite (repaired_leads_are_runes c Hkey) in Hlead. discriminate Hlead.
Qed.

Lemma X19_tokenize_never_yields_a_type_token_witness :
  exists tokens,
    tokenize repaired quantum_type = Return tokens
    /\ Forall (fun t => tok_type t <> TYPE /\ tok_dataType t = None) tokens.
Proof.
  eexists. split; [vm_compute; reflexivity | ].
  apply (X19_tokenize_never_yields_a_type_token repaired quantum_type);
    [right; reflexivity | vm_compute; reflexivity].
Defined.

End TokenizerFacts.

Section ParserFacts.
Import APLCompiler TokenKinds.

Lemma walk_simple (tokens : list token) :
  Forall simple tokens ->
  forall fuel : nat,
    (forall current,
        (current < length tokens)%nat ->
        (2 * (length tokens - current) + 1 <= fuel)%nat ->
        exists n c', walk tokens fuel current = Return (n, c') /\ (current < c')%nat)
    /\ (forall stop commas current acc,
          (2 * (length tokens - current) + 2 <= fuel)%nat ->
          exists ns c', walk_until tokens fuel stop commas current acc = Return (ns, c')
                        /\ (current <= c')%nat).
Proof.
  intros Hsimple. induction fuel as [ | fuel [IHw IHu]].
  { split; intros; lia. }
  split.
  - intros current Hcur Hfuel. cbn [walk].
    destruct (lookup_lt_is_Some_2 tokens current Hcur) as [token Htoken].
    rewrite Htoken.
    pose proof (Forall_lookup_1 _ _ _ _ Hsimple Htoken) as [Hkw Hrune].
    destruct (tok_type token) eqn:Htype; try (eexists; eexists; split; [reflexivity | lia]).
    + destruct (tok_op token) as [d | ]; [ | exfalso; apply Hrune; reflexivity].
      destruct (match tokens !! S current with
                | Some t => is_str (tok_value t) "("
                | None => false
                end).
      * destruct (IHu ")" true (S (S current)) []) as (params & c1 & Hparams & Hc1); [lia | ].
        rewrite Hparams. cbn. eexists; eexists; split; [reflexivity | lia].
      * eexists; eexists; split; [reflexivity | lia].
    + rewrite (Hkw eq_refl). eexists; eexists; split; [reflexivity | lia].
  - intros stop commas current acc Hfuel. cbn [walk_until].
    destruct (more tokens stop current) eqn:Hmore;
      [ | eexists; eexists; split; [reflexivity | lia]].
    assert (Hcur : (current < length tokens)%nat).
    { unfold more in Hmore. destruct (tokens !! current) eqn:Ht; [ | discriminate].
      apply lookup_lt_Some in Ht. exact Ht. }
    destruct (IHw current Hcur) as (n & c1 & Hw & Hc1); [lia | ].
    rewrite Hw. cbn.
    assert (Hskip : (c1 <= (if commas then skip_comma tokens c1 else c1))%nat).
    { destruct commas; [ | lia]. unfold skip_comma.
      destruct (tokens !! c1) as [t | ]; [ | lia].
      destruct (is_str (tok_value t) ","); lia. }
    destruct (IHu stop commas (if commas then skip_comma tokens c1 else c1) (acc ++ [n]))
      as (ns & c2 & Hu & Hc2); [lia | ].
    rewrite Hu. eexists; eexists; split; [reflexivity | lia].
Qed.

Lemma parse_from_simple (tokens : list token) :
  Forall simple tokens ->
  forall (fuel current : nat) (acc : list node),
    (2 * (length tokens - current) + 2 <= fuel)%nat ->
    exists body, parse_from tokens fuel current acc = Return body.
Proof.
  intros Hsimple. induction fuel as [ | fuel IH]; intros current acc Hfuel; [lia | ].
  cbn [parse_from]. destruct (Nat.ltb_spec current (length tokens)) as [Hcur | Hcur].
  - destruct (proj1 (walk_simple tokens Hsimple (S fuel)) current Hcur)
      as (n & c1 & Hw & Hc1); [lia | ].
    rewrite Hw. cbn. apply IH. lia.
  - eexists. reflexivity.
Qed.

(** X21: [parse] accepts every token list that [tokenize] returns and
    that lacks the keyword [function]: it returns an AST, and [compile]
    returns [{ success: true }] with the code generated from it. *)
Theorem X21_parse_accepts_every_text_without_function :
  forall (this : glyphs) (source : jsstring) (tokens : list token),
    tokenize this source = Return tokens ->
    Forall (fun t => tok_type t = KEYWORD -> is_str (tok_value t) "function" = false) tokens ->
    exists ast, parse tokens = Return ast
                /\ compile this source = Return (Compiled (generate ast) tokens ast).
Proof.
  intros this source tokens Htok Hkw.
  assert (Hop : Forall (fun t => tok_type t = RUNE -> tok_op t <> None) tokens).
  { unfold tokenize in Htok.
    apply (tokenize_from_Forall this _) with (fuel := S (length source)) (code := source) (acc := []);
      try (intros; discriminate); [constructor | exact Htok]. }
  assert (Hsimple : Forall simple tokens).
  { apply Forall_forall. intros t Ht. split.
    - rewrite Forall_forall in Hkw. apply Hkw, Ht.
    - rewrite Forall_forall in Hop. apply Hop, Ht. }
  destruct (parse_from_simple tokens Hsimple (2 * length tokens + 2) 0 []) as [body Hbody];
    [lia | ].
  exists (Program body). 
  assert (Hparse : parse tokens = Return (Program body)).
  { unfold parse. rewrite Hbody. reflexivity. }
  split; [exact Hparse | ].
  unfold compile, mbind, res_bind. rewrite Htok, Hparse. reflexivity.
Qed.

Lemma X21_parse_accepts_every_text_without_function_witness :
  exists tokens,
    tokenize repaired scenarioB_runes = Return tokens
    /\ exists ast,
         parse tokens = Return ast
         /\ compile repaired scenarioB_runes = Return (Compiled (generate ast) tokens ast).
Proof.
  eexists. split; [vm_compute; reflexivity | ].
  apply (X21_parse_accepts_every_text_without_function repaired scenarioB_runes);
    [vm_compute; reflexivity | ].
  repeat (constructor; [cbn; discriminate | ]). constructor.
Defined.

End ParserFacts.

Section GeneratorFacts.
Import APLCompiler CodeMap.

(** What holds of [code] before a traversal and is kept by the one write
    [traverse] makes holds after it. *)
Lemma traverse_preserves (Q : code -> Prop) :
  (forall c operation h params,
      Q c ->
      Q (Code (operations c ++ [Operation operation h params])
              (push_unit h (Operation operation h params) (hardwareMap c))
              (executionPlan c))) ->
  forall (n : node) (c : code), Q c -> Q (snd (traverse n c)).
Proof.
  intros Hpush. fix IH 1. intros [v | o h d ps | nm | nm ps body | t] c Hc;
    try exact Hc.
  - cbn [traverse].
    match goal with
    | |- context [ ?F ps c ] => set (traverse_all := F)
    end.
    assert (Hall : forall c, Q c -> Q (snd (traverse_all ps c))).
    { clear c Hc. induction ps as [ | x ps IHp]; intros c Hc; [exact Hc | ].
      unfold traverse_all at 1. cbn fix. fold traverse_all. cbv beta iota.
      pose proof (IH x c Hc) as Hx. destruct (traverse x c) as [x' c1]. cbn in Hx.
      pose proof (IHp c1 Hx) as Hr. destruct (traverse_all ps c1) as [rest' c2].
      cbn in Hr. exact Hr. }
    specialize (Hall c Hc). destruct (traverse_all ps c) as [ps' c1]. cbn in Hall.
    cbn [snd]. apply Hpush. exact Hall.
  - cbn [traverse].
    match goal with
    | |- context [ ?F body c ] => set (traverse_all := F)
    end.
    assert (Hall : forall c, Q c -> Q (snd (traverse_all body c))).
    { clear c Hc. induction body as [ | x body IHb]; intros c Hc; [exact Hc | ].
      unfold traverse_all at 1. cbn fix. fold traverse_all. cbv beta iota.
      pose proof (IH x c Hc) as Hx. destruct (traverse x c) as [x' c1]. cbn in Hx.
      pose proof (IHb c1 Hx) as Hr. destruct (traverse_all body c1) as [rest' c2].
      cbn in Hr. exact Hr. }
    specialize (Hall c Hc). destruct (traverse_all body c) as [body' c1]. cbn in Hall.
    exact Hall.
Qed.

Lemma generate_preserves (Q : code -> Prop) :
  (forall c operation h params,
      Q c ->
      Q (Code (operations c ++ [Operation operation h params])
              (push_unit h (Operation operation h params) (hardwareMap c))
              (executionPlan c))) ->
  (forall c o, Q c -> Q (Code (operations c) (hardwareMap c) (executionPlan c ++ [o]))) ->
  Q (Code [] [] []) ->
  forall ast : program, Q (generate ast).
Proof.
  intros Hpush Hplan H0 [body]. unfold generate. cbn [APLCompiler.body].
  generalize (Code [] [] []) H0. induction body as [ | n body IH]; intros c Hc; [exact Hc | ].
  cbn [foldl]. pose proof (traverse_preserves Q Hpush n c Hc) as Hn.
  destruct (traverse n c) as [o c1]. cbn in Hn.
  apply IH. apply Hplan. exact Hn.
Qed.

Lemma hardwareMap_get_push (k h : string) (o : lowered) (m : list (string * list lowered)) :
  hardwareMap_get k (push_unit h o m)
  = if decide (h = k) then Some (default [] (hardwareMap_get h m) ++ [o])
    else hardwareMap_get k m.
Proof.
  induction m as [ | [k' ops] m IH].
  - cbn. destruct (decide (h = k)); reflexivity.
  - cbn [push_unit]. destruct (decide (k' = h)) as [-> | Hne].
    + cbn [hardwareMap_get]. destruct (decide (h = k)) as [-> | Hhk].
      * rewrite decide_True by reflexivity. reflexivity.
      * reflexivity.
    + cbn [hardwareMap_get]. rewrite IH.
      destruct (decide (h = k)) as [-> | Hhk].
      * rewrite !decide_False by exact Hne. reflexivity.
      * destruct (decide (k' = k)); reflexivity.
Qed.

Lemma keys_push (h : string) (o : lowered) (m : list (string * list lowered)) :
  NoDup (map fst m) -> NoDup (map fst (push_unit h o m)).
Proof.
  intros Hnd.
  assert (Hkeys : forall k, k ∈ map fst (push_unit h o m) -> k = h \/ k ∈ map fst m).
  { induction m as [ | [k' ops] m IH]; intros k Hk.
    - cbn in Hk. apply list_elem_of_singleton in Hk. left. exact Hk.
    - cbn [push_unit] in Hk. destruct (decide (k' = h)).
      + right. exact Hk.
      + cbn in Hk. apply elem_of_cons in Hk as [-> | Hk].
        * right. left.
        * apply NoDup_cons in Hnd as [_ Hnd].
          destruct (IH Hnd k Hk) as [-> | Hin]; [left; reflexivity | right; right; exact Hin]. }
  clear Hkeys. induction m as [ | [k' ops] m IH].
  - cbn. apply NoDup_singleton.
  - cbn [push_unit]. destruct (decide (k' = h)) as [-> | Hne]; [exact Hnd | ].
    cbn in *. apply NoDup_cons in Hnd as [Hk' Hnd]. apply NoDup_cons. split; [ | apply IH, Hnd].
    intros Hin. apply Hk'. clear IH Hnd Hk'.
    induction m as [ | [k'' ops'] m IHm]; cbn in *.
    + apply list_elem_of_singleton in Hin. congruence.
    + destruct (decide (k'' = h)); [exact Hin | ].
      cbn in Hin. apply elem_of_cons in Hin as [-> | Hin]; [left | right; apply IHm, Hin].
Qed.

(** X22: in compiled code, [hardwareMap] lists under each hardware unit
    exactly the operations of [operations] that run on this unit, in the
    same order, and it has no key for a unit without operation;
    [executionPlan] has one entry per top-level node of the AST.  (The
    unit names of the glyph tables are no property names of
    [Object.prototype], so [hardwareMap[unit]] reads own properties
    only.) *)
Theorem X22_hardwareMap_groups_the_operations_by_unit :
  forall (this : glyphs) (source : jsstring) (c : code) (tokens : list token) (ast : program),
    this = stored \/ this = repaired ->
    compile this source = Return (Compiled c tokens ast) ->
    (forall k,
        hardwareMap_get k (hardwareMap c)
        = match unit_ops k (operations c) with
          | [] => None
          | ops => Some ops
          end)
    /\ NoDup (map fst (hardwareMap c))
    /\ length (executionPlan c) = length (body ast).
Proof.
  intros this source c tokens ast _ Hc.
  assert (Hgen : c = generate ast).
  { unfold compile, mbind, res_bind in Hc.
    destruct (tokenize this source) as [ts | | ]; try discriminate Hc.
    destruct (parse ts) as [a | | ]; try discriminate Hc.
    cbn in Hc. injection Hc as <- _ <-. reflexivity. }
  subst c. split; [ | split].
  - apply (generate_preserves
             (fun c => forall k, hardwareMap_get k (hardwareMap c)
                                 = match unit_ops k (operations c) with
                                   | [] => None
                                   | ops => Some ops
                                   end)).
    + intros c operation h params Hc' k. cbn [operations hardwareMap].
      rewrite hardwareMap_get_push. unfold unit_ops. rewrite List.filter_app.
      cbn [List.filter on_unit].
      destruct (decide (h = k)) as [-> | Hne].
      * rewrite Hc'. unfold unit_ops.
        destruct (List.filter (on_unit k) (operations c)); reflexivity.
      * rewrite app_nil_r. apply Hc'.
    + intros c o Hc' k. apply Hc'.
    + intros k. reflexivity.
  - apply (generate_preserves (fun c => NoDup (map fst (hardwareMap c)))).
    + intros c operation h params Hc'. cbn [hardwareMap]. apply keys_push, Hc'.
    + intros c o Hc'. exact Hc'.
    + constructor.
  - clear Hc. destruct ast as [body]. unfold generate. cbn [APLCompiler.body].
    change (length body) with (length (executionPlan (Code [] [] [])) + length body)%nat.
    generalize (Code [] [] []). induction body as [ | n body IH]; intros c0.
    + cbn. lia.
    + cbn [foldl length].
      pose proof (traverse_preserves (fun c => executionPlan c = executionPlan c0)
                    ltac:(intros; assumption) n c0 eq_refl) as Hn.
      destruct (traverse n c0) as [o c1]. cbn in Hn.
      rewrite IH. cbn [executionPlan]. rewrite length_app, Hn. cbn. lia.
Qed.

Lemma X22_hardwareMap_groups_the_operations_by_unit_witness :
  exists c tokens ast,
    compile repaired scenarioB_runes = Return (Compiled c tokens ast)
    /\ (forall k,
          hardwareMap_get k (hardwareMap c)
          = match unit_ops k (operations c) with
            | [] => None
            | ops => Some ops
            end)
    /\ NoDup (map fst (hardwareMap c))
    /\ length (executionPlan c) = length (body ast).
Proof.
  eexists. eexists. eexists. split; [vm_compute; reflexivity | ].
  eapply (X22_hardwareMap_groups_the_operations_by_unit repaired scenarioB_runes);
    [right; reflexivity | vm_compute; reflexivity].
Defined.

End GeneratorFacts.

Section UnknownCharacters.
Import APLCompiler TokenKinds.
Local Open Scope N_scope.

Lemma span_stops (p : N -> bool) (x : N) (s2 : jsstring) :
  p x = false ->
  forall s1 : jsstring,
    span p (s1 ++ x :: s2) = ((span p s1).1, (span p s1).2 ++ x :: s2).
Proof.
  intros Hx. induction s1 as [ | c s1 IH].
  - cbn. rewrite Hx. reflexivity.
  - cbn [app span]. destruct (p c); [ | reflexivity].
    rewrite IH. destruct (span p s1) as [w r]. reflexivity.
Qed.

(** What is left of a text after a span is one of its suffixes. *)
Lemma span_length (p : N -> bool) (s : jsstring) :
  (length (span p s).2 <= length s)%nat.
Proof.
  induction s as [ | c s IH]; [reflexivity | ].
  cbn [span]. destruct (p c); [ | reflexivity].
  destruct (span p s) as [w r]. cbn in *. lia.
Qed.

Lemma tokenize_from_dropped (this : glyphs) (c : N) (s2 : jsstring) :
  (forall k, lookup_key [k] (runicAlphabet this) = None ->
             existsb (jsstring_eqb [k]) (typeLeads this) = false) ->
  lookup_key [32] (runicAlphabet this) = None ->
  dropped this c ->
  forall (fuel : nat) (s1 : jsstring) (acc : list token),
    tokenize_from this fuel (s1 ++ c :: s2) acc
    = tokenize_from this fuel (s1 ++ 32 :: s2) acc.
Proof.
  intros Hdead Hspace (Hkey & Hlead & Hdigit & Hws & Hdelim & Hop & Halpha & Hdot & Hus).
  induction fuel as [ | fuel IH]; intros s1 acc; [reflexivity | ].
  destruct s1 as [ | char s1].
  - cbn [app tokenize_from].
    rewrite Hkey, Hlead, Hdigit, Hws, Hdelim, Hop, Halpha.
    rewrite Hspace, (Hdead 32 Hspace). reflexivity.
  - cbn [app tokenize_from].
    destruct (lookup_key [char] (runicAlphabet this)) as [d | ] eqn:Hchar; [apply IH | ].
    rewrite (Hdead char Hchar).
    destruct (isDigit char).
    { change (char :: s1 ++ c :: s2) with ((char :: s1) ++ c :: s2).
      change (char :: s1 ++ 32 :: s2) with ((char :: s1) ++ 32 :: s2).
      rewrite !span_stops by (rewrite ?Hdigit, ?Hdot; reflexivity).
      destruct (span (fun c0 => isDigit c0 || (c0 =? 46)) (char :: s1)) as [num r].
      cbn [fst snd]. apply IH. }
    destruct (isWhitespace char); [apply IH | ].
    destruct (is_delimiter char); [apply IH | ].
    destruct (is_operator char); [apply IH | ].
    destruct (isAlpha char); [ | apply IH].
    change (char :: s1 ++ c :: s2) with ((char :: s1) ++ c :: s2).
    change (char :: s1 ++ 32 :: s2) with ((char :: s1) ++ 32 :: s2).
    rewrite !span_stops by (rewrite ?Halpha, ?Hdigit, ?Hus; reflexivity).
    destruct (span (fun c0 => isAlpha c0 || isDigit c0 || (c0 =? 95)) (char :: s1)) as [w r].
    cbn [fst snd]. apply IH.
Qed.

Lemma lookup_key_In {A : Type} (key : jsstring) (v : A) (table : list (jsstring * A)) :
  lookup_key key table = Some v -> In (key, v) table.
Proof.
  induction table as [ | [k w] table IH]; [discriminate | ].
  cbn [lookup_key]. unfold jsstring_eqb. destruct (decide (k = key)) as [-> | _].
  - intros [= ->]. left. reflexivity.
  - intros Hl. right. apply IH, Hl.
Qed.

(** Re-decoded, every key of [runicAlphabet] is one rune. *)
Lemma repaired_keys_are_runes (c : N) :
  RunicMap.isValidRunic c = false -> lookup_key [c] (runicAlphabet repaired) = None.
Proof.
  intros Hrune.
  destruct (lookup_key [c] (runicAlphabet repaired)) as [d | ] eqn:Hkey; [ | reflexivity].
  apply lookup_key_In in Hkey.
  assert (Hall : forallb (fun kd : jsstring * opdesc =>
                            match kd.1 with
                            | [r] => RunicMap.isValidRunic r
                            | _ => true
                            end) (runicAlphabet repaired) = true)
    by (vm_compute; reflexivity).
  rewrite forallb_forall in Hall. specialize (Hall _ Hkey). cbn in Hall. congruence.
Qed.

(** X20: a character that no branch of the tokenizer takes is skipped
    like a space: replacing it by a space changes neither the tokens nor
    the result of [compile].  With the keys re-decoded these are the
    characters that are no key of [runicAlphabet] and no digit, whitespace,
    delimiter, operator or letter: the comma, the semicolon, and the runes
    the table does not list.  With the table as stored no single character
    is a key, so every rune is skipped too.  The dot and the underscore
    are excepted, since they continue a number or an identifier. *)
Theorem X20_unknown_characters_are_whitespace :
  forall (this : glyphs) (c : N) (s1 s2 : jsstring),
    this = stored
    \/ (this = repaired /\ lookup_key [c] (runicAlphabet repaired) = None) ->
    isDigit c || isWhitespace c || is_delimiter c || is_operator c || isAlpha c
      || (c =? 46) || (c =? 95) = false ->
    tokenize this (s1 ++ c :: s2) = tokenize this (s1 ++ 32 :: s2)
    /\ compile this (s1 ++ c :: s2) = compile this (s1 ++ 32 :: s2).
Proof.
  intros this c s1 s2 Hthis Hc.
  repeat (apply orb_false_elim in Hc as [Hc ?]).
  assert (Htok : tokenize this (s1 ++ c :: s2) = tokenize this (s1 ++ 32 :: s2)).
  { unfold tokenize. rewrite !length_app. cbn [length].
    destruct Hthis as [-> | [-> Hkey]].
    - apply tokenize_from_dropped.
      + intros k _. apply stored_leads_are_no_unit.
      + apply stored_alphabet_has_no_unit_key.
      + repeat split; try assumption.
        * apply stored_alphabet_has_no_unit_key.
        * apply stored_leads_are_no_unit.
    - apply tokenize_from_dropped.
      + apply repaired_leads_are_runes.
      + reflexivity.
      + repeat split; try assumption.
        apply repaired_leads_are_runes, Hkey. }
  split; [exact Htok | ]. unfold compile. rewrite Htok. reflexivity.
Qed.

Lemma X20_unknown_characters_are_whitespace_witness :
  tokenize repaired (u "a" ++ 0x16a1 :: u "b") = tokenize repaired (u "a" ++ 32 :: u "b")
  /\ compile repaired (u "a" ++ 0x16a1 :: u "b") = compile repaired (u "a" ++ 32 :: u "b").
Proof.
  apply (X20_unknown_characters_are_whitespace repaired 0x16a1 (u "a") (u "b"));
    first [right; split; reflexivity | reflexivity].
Defined.

End UnknownCharacters.

Section ToAsciiFacts.
Import RunicToAscii.
Local Open Scope N_scope.

(** Every key of the reverse table starts with a rune or with a capital
    letter. *)
Lemma every_reverse_key_is_marked :
  Forall (fun kv : jsstring * jsstring =>
            exists c, In c kv.1 /\ (RunicMap.isValidRunic c || (65 <=? c) && (c <=? 90) = true))
         runicToAscii.
Proof.
  apply Forall_forall. intros kv Hkv.
  assert (Hb : forallb (fun kv : jsstring * jsstring =>
                          existsb (fun c => RunicMap.isValidRunic c || (65 <=? c) && (c <=? 90)) kv.1)
                       runicToAscii = true)
    by (vm_compute; reflexivity).
  rewrite forallb_forall in Hb. apply list_elem_of_In in Hkv. specialize (Hb kv Hkv).
  apply existsb_exists in Hb as (c & Hc & Hmark). exists c. split; assumption.
Qed.

(** X24: for every entry of [asciiToRunic], [toRunic] maps the ASCII
    spelling to its glyph and [toAscii] maps the glyph back; [init] builds
    a reverse table with one entry per entry of [asciiToRunic]; and
    [toAscii] returns unchanged every text that holds neither a rune nor a
    capital letter. *)
Theorem X24_toAscii_inverts_the_table :
  Forall (fun '(ascii, runic) => RunicMap.toRunic ascii = runic /\ toAscii runic = ascii) RunicMap.asciiToRunic
  /\ length runicToAscii = length RunicMap.asciiToRunic
  /\ forall code : jsstring,
       (forall c, In c code -> RunicMap.isValidRunic c || (65 <=? c) && (c <=? 90) = false) ->
       toAscii code = code.
Proof.
  split; [ | split].
  - assert (Hb : forallb (fun '(ascii, runic) =>
                            bool_decide (RunicMap.toRunic ascii = runic)
                            && bool_decide (toAscii runic = ascii)) RunicMap.asciiToRunic = true)
      by (vm_compute; reflexivity).
    rewrite forallb_forall in Hb. apply Forall_forall. intros [ascii runic] Hin.
    apply list_elem_of_In in Hin. specialize (Hb _ Hin). cbn in Hb.
    apply andb_prop in Hb as [H1 H2].
    split; [apply bool_decide_eq_true in H1 | apply bool_decide_eq_true in H2]; assumption.
  - vm_compute. reflexivity.
  - intros code Hplain. unfold toAscii.
    pose proof every_reverse_key_is_marked as Hkeys.
    induction runicToAscii as [ | [runic ascii] keys IH]; [reflexivity | ].
    apply Forall_cons in Hkeys as [(c & Hc & Hmark) Hkeys]. cbn [foldl].
    rewrite (split_join_absent c runic ascii code Hc).
    + apply IH. exact Hkeys.
    + intros Hin. rewrite (Hplain c Hin) in Hmark. discriminate Hmark.
Qed.

End ToAsciiFacts.

(** ** Pattern matching and parallel loops *)

Section PatternFacts.
Import Handlers.

(** The loop of [every] reads the value array below the length of the
    pattern only. *)
Lemma every_prefix (vs extra : list data) :
  forall (ps : list data) (i : nat),
    (i + length ps <= length vs)%nat ->
    (fix every (i : nat) (ps : list data) : option bool :=
       match ps with
       | [] => Some true
       | p :: rest =>
           match matchPattern (default DUndefined ((vs ++ extra) !! i)) p with
           | Some true => every (S i) rest
           | r => r
           end
       end) i ps
    = (fix every (i : nat) (ps : list data) : option bool :=
         match ps with
         | [] => Some true
         | p :: rest =>
             match matchPattern (default DUndefined (vs !! i)) p with
             | Some true => every (S i) rest
             | r => r
             end
         end) i ps.
Proof.
  induction ps as [ | p ps IH]; intros i Hi; [reflexivity | ].
  cbn [length] in Hi. rewrite lookup_app_l by lia.
  destruct (matchPattern (default DUndefined (vs !! i)) p) as [[ | ] | ]; try reflexivity.
  apply IH. lia.
Qed.

(** Past the end of the value array the pattern meets [undefined]. *)
Lemma every_beyond (vs : list data) :
  forall (n i : nat),
    (length vs <= i)%nat ->
    (fix every (i : nat) (ps : list data) : option bool :=
       match ps with
       | [] => Some true
       | p :: rest =>
           match matchPattern (default DUndefined (vs !! i)) p with
           | Some true => every (S i) rest
           | r => r
           end
       end) i (replicate n DUndefined)
    = Some true.
Proof.
  induction n as [ | n IH]; intros i Hi; [reflexivity | ].
  cbn [replicate]. rewrite (proj2 (lookup_ge_None vs i) Hi). cbn [default from_option id matchPattern strict_eq].
  apply IH. lia.
Qed.

(** X17: an array pattern is matched as a prefix.  [matchPattern] reads
    the value array below the length of the pattern only, so the elements
    beyond it are ignored; the empty pattern matches every array; a
    pattern of [undefined]s matches the empty array; and the pattern NaN
    matches no value. *)
Theorem X17_array_pattern_matches_a_prefix :
  forall (vs extra ps : list data),
    (length ps <= length vs)%nat ->
    matchPattern (DArray (vs ++ extra)) (DArray ps) = matchPattern (DArray vs) (DArray ps)
    /\ matchPattern (DArray (vs ++ extra)) (DArray []) = Some true
    /\ matchPattern (DArray []) (DArray (replicate (length ps) DUndefined)) = Some true
    /\ (forall v, matchPattern v (DNum nan) = Some false).
Proof.
  intros vs extra ps Hlen. split; [ | split; [ | split]].
  - cbn [matchPattern]. apply every_prefix. lia.
  - reflexivity.
  - cbn [matchPattern]. apply every_beyond. cbn. lia.
  - intros v. destruct v as [ | | b | x | s | items | ]; try reflexivity.
    cbn [matchPattern strict_eq]. f_equal.
    rewrite FloatAxioms.eqb_spec. change (Prim2SF nan) with S754_nan.
    destruct (Prim2SF x) as [sg | sg | | sg m e]; try destruct sg; reflexivity.
Qed.

Lemma X17_array_pattern_matches_a_prefix_witness :
  matchPattern (DArray ([DNum 1; DNum 2] ++ [DNum 3])) (DArray [DNum 1; DNum 2])
  = matchPattern (DArray [DNum 1; DNum 2]) (DArray [DNum 1; DNum 2])
  /\ matchPattern (DArray ([DNum 1; DNum 2] ++ [DNum 3])) (DArray []) = Some true
  /\ matchPattern (DArray []) (DArray (replicate 2 DUndefined)) = Some true
  /\ (forall v, matchPattern v (DNum nan) = Some false).
Proof.
  apply (X17_array_pattern_matches_a_prefix [DNum 1; DNum 2] [DNum 3] [DNum 1; DNum 2]).
  cbn. lia.
Defined.

End PatternFacts.

Section ParallelFacts.
Import Handlers.

Lemma executeParallelTasks_without_bytecode (variable : string) (items : list value) :
  forall s : runtime,
    bytecode s = None ->
    executeParallelTasks variable items s
    = Ok tt (set_memory (foldl (fun m item => <[variable := item]> m) (memory s) items) s).
Proof.
  induction items as [ | item rest IH]; intros s Hb.
  - cbn. unfold_M. destruct s. reflexivity.
  - cbn [executeParallelTasks foldl]. unfold_M. cbn [bytecode set_memory]. rewrite Hb.
    rewrite IH by exact Hb. reflexivity.
Qed.

Lemma last_binding_wins (variable : string) (items : list value) (item : value) :
  forall m : gmap string value,
    foldl (fun m item => <[variable := item]> m) m (items ++ [item]) = <[variable := item]> m.
Proof.
  induction items as [ | x items IH]; intros m; [reflexivity | ].
  cbn [app foldl]. rewrite IH. apply insert_insert_eq.
Qed.

(** X18: every [PARALLEL] loop over an array throws, because
    [this.bytecode] is never assigned.  Each task is rejected at its first
    read of [this.bytecode.length], after it has replaced [this.memory] by
    a copy that binds the loop variable, and an empty loop throws in the
    final scan.  After the fault the loop variable is bound to the last
    item; stack and pc are as before. *)
Theorem X18_parallel_loop_faults :
  forall (iterable : expr) (variable : string) (items : list value) (s s1 : runtime),
    evalExpression iterable s = Ok (EArray items) s1 ->
    bytecode s1 = None ->
    exists s',
      opParallel iterable variable s = Throw (TypeError "this.bytecode is undefined") s'
      /\ memory s' = match last items with
                     | Some item => <[variable := item]> (memory s1)
                     | None => memory s1
                     end
      /\ stack s' = stack s1
      /\ pc s' = pc s1.
Proof.
  intros iterable variable items s s1 He Hb.
  unfold opParallel. unfold mbind, outcome_bind, bind. rewrite He.
  rewrite executeParallelTasks_without_bytecode by exact Hb.
  destruct items as [ | item rest] using rev_ind.
  - unfold_M. cbn. unfold skip_fuel. cbn. rewrite Hb. cbn. rewrite Hb.
    eexists. split; [reflexivity | repeat split].
  - clear IHrest. rewrite last_binding_wins, last_snoc.
    destruct (rest ++ [item]) eqn:Hne; [destruct rest; discriminate Hne | ].
    unfold_M. eexists. split; [reflexivity | repeat split].
Qed.

Lemma X18_parallel_loop_faults_witness :
  exists s',
    opParallel (Literal (LitArray [VNum 1; VNum 2])) "i" fresh
    = Throw (TypeError "this.bytecode is undefined") s'
    /\ memory s' = <["i" := VNum 2]> (memory fresh)
    /\ stack s' = stack fresh
    /\ pc s' = pc fresh.
Proof.
  apply (X18_parallel_loop_faults (Literal (LitArray [VNum 1; VNum 2])) "i"
           [VNum 1; VNum 2] fresh fresh);
    reflexivity.
Defined.

End ParallelFacts.
